(** * The bus bridge of fvtt-bwo-integration

    A shallow embedding of [scripts/lib/bus.js] (the [Emitter] class, the
    singleton [bus] and the sender plumbing), of the bridge controller
    [mountBusBridge] and of the channel transport, followed by the
    properties of the specification that were settled against them. *)

From stdpp Require Import gmap strings list.

Set Warnings "-register-all".

Local Open Scope string_scope.
Local Open Scope list_scope.

(** ** JavaScript values carried by events and messages *)

(** [BusEvent] is [any] in the source.  The values that cross the bridge
    are structured-clone data; the model keeps the primitives whose
    truthiness the code tests and plain objects with their own fields. *)
Inductive Val :=
| VUndef
| VNull
| VBool (b : bool)
| VNum (n : Z)
| VNaN
| VStr (s : string)
| VObj (fields : list (string * Val)).

(** [if (v)], [!!v], [v || d]. *)
Definition truthy (v : Val) : bool :=
  match v with
  | VUndef | VNull | VNaN => false
  | VBool b => b
  | VNum n => negb (n =? 0)%Z
  | VStr s => negb (String.eqb s "")
  | VObj _ => true
  end.

(** [a || b] *)
Definition js_or (a b : Val) : Val := if truthy a then a else b.

(** [v] is [null] or [undefined]: the test of [??] and [?.]. *)
Definition nullish (v : Val) : bool :=
  match v with VUndef | VNull => true | _ => false end.

Fixpoint assoc (k : string) (fs : list (string * Val)) : Val :=
  match fs with
  | [] => VUndef
  | (k', v) :: fs' => if String.eqb k' k then v else assoc k fs'
  end.

(** [v.k] for the keys the code reads ([type], [topic], [payload]):
    an own field of an object; [undefined] on a boxed primitive, whose
    prototype has none of them.  Reading a property of [null] or
    [undefined] throws, which is [None]. *)
Definition get_prop (v : Val) (k : string) : option Val :=
  match v with
  | VUndef | VNull => None
  | VObj fs => Some (assoc k fs)
  | _ => Some VUndef
  end.

(** ** The Emitter *)

(** A listener is a function object, compared by identity in a [Set].
    [LFn f] is the function [f] of the surrounding program; [LOnce k s f]
    is the closure [(e) => { off(); fn(e); }] allocated by the [k]-th call
    of [once], where [off] deletes this very closure from the [Set] object
    [s] and [fn] is [f]. *)
Inductive Listener :=
| LFn (f : nat)
| LOnce (k : nat) (s : nat) (f : nat).

#[global] Instance Listener_eq_dec : EqDecision Listener.
Proof. solve_decision. Defined.

(** The closure [() => { set && set.delete(fn); }] returned by [on]: it
    holds the [Set] object it was created with, not the topic. *)
Record Unsubscribe := Unsub { u_set : nat; u_fn : Listener }.

(** [this.map] is a [Map<string, Set<Listener>>].  The [Set] objects live
    in a store ([sets], indexed by allocation order) because the closures
    above keep pointing at a [Set] after [clear] has dropped it from the
    map.  A [Set] iterates in insertion order: it is the list of its
    members, oldest first.  [closures] counts the wrappers allocated by
    [once]. *)
Record Emitter := mkEmitter {
  e_map : gmap string nat;
  sets : list (list Listener);
  closures : nat
}.

(** [new Emitter()] *)
Definition new_Emitter : Emitter := mkEmitter ∅ [] 0.

(** [set.add(fn)]: no effect when [fn] is already a member. *)
Definition set_add (fn : Listener) (s : list Listener) : list Listener :=
  if decide (fn ∈ s) then s else s ++ [fn].

(** [set.delete(fn)] *)
Definition set_delete (fn : Listener) (s : list Listener) : list Listener :=
  filter (λ g, g ≠ fn) s.

Definition on (topic : string) (fn : Listener) (em : Emitter)
  : Emitter * Unsubscribe :=
  match e_map em !! topic with
  | Some s =>
      (mkEmitter (e_map em) (alter (set_add fn) s (sets em)) (closures em),
       Unsub s fn)
  | None =>
      let s := length (sets em) in
      (mkEmitter (<[topic := s]> (e_map em))
                 (sets em ++ [set_add fn []]) (closures em),
       Unsub s fn)
  end.

(** Calling the closure returned by [on]. *)
Definition unsubscribe (u : Unsubscribe) (em : Emitter) : Emitter :=
  mkEmitter (e_map em) (alter (set_delete (u_fn u)) (u_set u) (sets em))
            (closures em).

(** [once(topic, fn)]: the wrapper refers to [off], which [on] returns
    only afterwards; the [Set] that [off] will hold is the one [on] finds
    or creates for [topic]. *)
Definition once (topic : string) (f : nat) (em : Emitter)
  : Emitter * Unsubscribe :=
  let s := match e_map em !! topic with
           | Some s => s
           | None => length (sets em)
           end in
  let wrapper := LOnce (closures em) s f in
  on topic wrapper (mkEmitter (e_map em) (sets em) (S (closures em))).

Definition off (topic : string) (fn : Listener) (em : Emitter) : Emitter :=
  match e_map em !! topic with
  | Some s =>
      mkEmitter (e_map em) (alter (set_delete fn) s (sets em)) (closures em)
  | None => em
  end.

(** [clear(topic)]: [if (topic)] is false for a missing topic and for
    the empty string. *)
Definition clear (topic : option string) (em : Emitter) : Emitter :=
  match topic with
  | Some t =>
      if truthy (VStr t)
      then mkEmitter (delete t (e_map em)) (sets em) (closures em)
      else mkEmitter ∅ (sets em) (closures em)
  | None => mkEmitter ∅ (sets em) (closures em)
  end.

(** The members of the [Set] registered under [topic], oldest first. *)
Definition listeners (em : Emitter) (topic : string) : list Listener :=
  match e_map em !! topic with
  | Some s => default [] (sets em !! s)
  | None => []
  end.

(** ** What a run leaves behind *)

(** The observable effects, in program order.  An emission holds the calls
    it made; a call holds what the listener body did. *)
Inductive Ev :=
| EvEmit (topic : Val) (e : Val) (calls : list Ev)
| EvCall (fn : Listener) (e : Val) (inner : list Ev) (threw : bool)
| EvError (msg : string)
| EvLog (msg : string)
| EvWinPost (win : nat) (msg : Val) (origin : Val) (transfer : nat)
| EvPortPost (port : nat) (data : Val)
| EvPortClose (port : nat)
| EvPortStart (port : nat)
| EvSend (sender : nat) (data : Val)
| EvDom (op : string).

(** ** Listener bodies *)

(** The functions passed to the hub are code of its clients.  A body is
    modelled by what it does to the hub: the sequence of [Emitter]
    operations it performs, ending early when it throws.  [CUnsub] calls
    a closure that [on] or [once] returned.  What a body does elsewhere
    (to the sender, to the bridge, to the page) is outside the model. *)
Inductive Cmd :=
| COn (topic : string) (f : nat)
| COnce (topic : string) (f : nat)
| COff (topic : string) (f : nat)
| CUnsub (u : Unsubscribe)
| CEmit (topic : string) (e : Val)
| CClear (topic : option string)
| CThrow.

Section Emit.

(** [P f e] is the body of function [f] applied to the event [e]. *)
Variable P : nat → Val → list Cmd.

Section Body.

(** [emit] as seen from a listener body: the recursive call. *)
Variable emitf : string → Val → Emitter → option (Emitter * Ev).

(** Runs a body; the boolean tells whether it threw. *)
Fixpoint run (cs : list Cmd) (em : Emitter)
  : option (Emitter * list Ev * bool) :=
  match cs with
  | [] => Some (em, [], false)
  | CThrow :: _ => Some (em, [], true)
  | COn t f :: cs' => run cs' (on t (LFn f) em).1
  | COnce t f :: cs' => run cs' (once t f em).1
  | COff t f :: cs' => run cs' (off t (LFn f) em)
  | CUnsub u :: cs' => run cs' (unsubscribe u em)
  | CClear t :: cs' => run cs' (clear t em)
  | CEmit t e :: cs' =>
      '(em1, ev) ← emitf t e em;
      '(em2, tr, threw) ← run cs' em1;
      Some (em2, ev :: tr, threw)
  end.

(** [fn(e)] for a member of a [Set]. *)
Definition call (fn : Listener) (e : Val) (em : Emitter)
  : option (Emitter * list Ev * bool) :=
  match fn with
  | LFn f => run (P f e) em
  | LOnce k s f =>
      (* off(); fn(e); *)
      let em1 := unsubscribe (Unsub s (LOnce k s f)) em in
      '(em2, tr, threw) ← run (P f e) em1;
      Some (em2, [EvCall (LFn f) e tr threw], threw)
  end.

(** The loop of [emit] over [Array.from(set)]. *)
Fixpoint deliver (snapshot : list Listener) (e : Val) (em : Emitter)
  : option (Emitter * list Ev) :=
  match snapshot with
  | [] => Some (em, [])
  | fn :: rest =>
      '(em1, inner, threw) ← call fn e em;
      '(em2, tr) ← deliver rest e em1;
      Some (em2,
            EvCall fn e inner threw
              :: (if threw then [EvError "bus listener error"] else [])
              ++ tr)
  end.

End Body.

(** [emit(topic, e)].  The fuel bounds how deep emissions nest (a
    listener that emits, whose listeners emit, ...); [None] means the
    bound was reached. *)
Fixpoint emit (fuel : nat) (topic : string) (e : Val) (em : Emitter)
  : option (Emitter * Ev) :=
  match fuel with
  | O => None
  | S fuel' =>
      match e_map em !! topic with
      | None => Some (em, EvEmit (VStr topic) e [])
      | Some s =>
          let set := default [] (sets em !! s) in
          if decide (length set = 0)
          then Some (em, EvEmit (VStr topic) e [])
          else
            '(em', calls) ← deliver (emit fuel') set e em;
            Some (em', EvEmit (VStr topic) e calls)
      end
  end.

End Emit.

(** ** Completions and the module state *)

(** How a call ends: it returns a value or throws. *)
Inductive Completion (A : Type) :=
| Returned (a : A)
| Thrown (err : string).
Arguments Returned {A} a.
Arguments Thrown {A} err.

(** The outbound function held in [_post]: the closure
    [(data) => port?.postMessage(data)] installed by the bridge, or a
    function of another client, known by its identity and by how a call
    of it ends: [body data] is the error it throws on [data], or [None]
    when it returns. *)
Inductive Sender :=
| SBridge
| SFn (id : nat) (body : Val → option string).

(** The hidden frame element created by [mountBusBridge].
    [contentWindow] is [null] while the element has no browsing
    context. *)
Record Iframe := mkIframe {
  el_src : string;
  el_title : string;
  el_display : string;
  el_onload : bool;
  el_attached : bool;
  contentWindow : option nat
}.

(** Work queued with [queueMicrotask]. *)
Inductive Task := TConnect.

(** The singleton [bus] and [_post] of bus.js, the variables closed over
    by one mounted bridge ([iframeEl], [port], [loaded]), the microtask
    queue and the number of [MessageChannel]s allocated so far.  A port
    is named after its channel: [port = Some c] is [port1] of channel
    [c], and [c] in a window post stands for the transferred [port2]. *)
Record World := mkWorld {
  bus : Emitter;
  _post : option Sender;
  iframeEl : option Iframe;
  port : option nat;
  loaded : bool;
  microtasks : list Task;
  channels : nat
}.

Definition set_bus (b : Emitter) (w : World) : World :=
  mkWorld b (_post w) (iframeEl w) (port w) (loaded w) (microtasks w)
          (channels w).
Definition set_post (p : option Sender) (w : World) : World :=
  mkWorld (bus w) p (iframeEl w) (port w) (loaded w) (microtasks w)
          (channels w).
Definition set_iframeEl (el : option Iframe) (w : World) : World :=
  mkWorld (bus w) (_post w) el (port w) (loaded w) (microtasks w)
          (channels w).
Definition set_port (p : option nat) (w : World) : World :=
  mkWorld (bus w) (_post w) (iframeEl w) p (loaded w) (microtasks w)
          (channels w).
Definition set_loaded (l : bool) (w : World) : World :=
  mkWorld (bus w) (_post w) (iframeEl w) (port w) l (microtasks w)
          (channels w).
Definition set_microtasks (q : list Task) (w : World) : World :=
  mkWorld (bus w) (_post w) (iframeEl w) (port w) (loaded w) q
          (channels w).
Definition set_channels (n : nat) (w : World) : World :=
  mkWorld (bus w) (_post w) (iframeEl w) (port w) (loaded w) (microtasks w)
          n.

(** A computation over the module state: it may run out of fuel
    ([None]); otherwise it leaves a state, a trace and a completion. *)
Definition M (A : Type) : Type :=
  World → option (World * list Ev * Completion A).

Definition ret {A} (a : A) : M A := λ w, Some (w, [], Returned a).

Definition throw {A} (err : string) : M A := λ w, Some (w, [], Thrown err).

Definition bind {A B} (m : M A) (k : A → M B) : M B := λ w,
  match m w with
  | None => None
  | Some (w1, t1, Thrown err) => Some (w1, t1, Thrown err)
  | Some (w1, t1, Returned a) =>
      match k a w1 with
      | None => None
      | Some (w2, t2, c) => Some (w2, t1 ++ t2, c)
      end
  end.

(** [try { m } catch (err) { h err }] *)
Definition try_catch {A} (m : M A) (h : string → M A) : M A := λ w,
  match m w with
  | None => None
  | Some (w1, t1, Thrown err) =>
      match h err w1 with
      | None => None
      | Some (w2, t2, c) => Some (w2, t1 ++ t2, c)
      end
  | Some r => Some r
  end.

Definition gets {A} (f : World → A) : M A := λ w, Some (w, [], Returned (f w)).
Definition modify (f : World → World) : M unit :=
  λ w, Some (f w, [], Returned tt).
Definition tell (tr : list Ev) : M unit := λ w, Some (w, tr, Returned tt).

Declare Scope m_scope.
Delimit Scope m_scope with M.
Notation "x <- m ;; k" := (bind m (λ x, k))
  (at level 100, m at next level, right associativity) : m_scope.
Notation "m ;; k" := (bind m (λ _, k))
  (at level 100, right associativity) : m_scope.
Local Open Scope m_scope.

(** ** bus.js: the sender plumbing *)

Section Bus.

Variable P : nat → Val → list Cmd.
Variable fuel : nat.

(** [bus.emit(topic, e)] on the singleton.  The registry is keyed by
    strings ([on] takes a string), so a key of another type finds no
    [Set]. *)
Definition bus_emit (topic : Val) (e : Val) : M unit := λ w,
  match topic with
  | VStr t =>
      match emit P fuel t e (bus w) with
      | None => None
      | Some (b', ev) => Some (set_bus b' w, [ev], Returned tt)
      end
  | _ => Some (w, [EvEmit topic e []], Returned tt)
  end.

Definition setSender (fn : option Sender) : M unit :=
  modify (set_post fn) ;;
  bus_emit (VStr "bridge:sender")
           (VObj [("ready", VBool (bool_decide (is_Some fn)))]).

(** [_post(data)]: what the call does and how it ends.  The bridge's
    closure posts on the port the bridge holds, if any; posting
    structured-clone data does not throw. *)
Definition invoke_sender (s : Sender) (data : Val) (w : World)
  : list Ev * Completion unit :=
  match s with
  | SBridge =>
      (* port?.postMessage(data) *)
      (match port w with
       | Some p => [EvPortPost p data]
       | None => []
       end, Returned tt)
  | SFn id body =>
      ([EvSend id data],
       match body data with
       | Some err => Thrown err
       | None => Returned tt
       end)
  end.

(** [options?.throwIfOffline] *)
Definition throwIfOffline (options : Val) : Val :=
  if nullish options then VUndef
  else default VUndef (get_prop options "throwIfOffline").

Definition send (data : Val) (options : Val) : M bool := λ w,
  match _post w with
  | Some s =>
      match invoke_sender s data w with
      | (tr, Returned _) => Some (w, tr, Returned true)
      | (tr, Thrown err) => Some (w, tr, Thrown err)
      end
  | None =>
      if truthy (throwIfOffline options)
      then Some (w, [], Thrown "bus: sender not ready")
      else Some (w, [], Returned false)
  end.

Definition isReady (w : World) : bool := bool_decide (is_Some (_post w)).

End Bus.

(** ** The bridge controller: [mountBusBridge] *)

(** The options of [mountBusBridge].  They are destructured into
    [const] bindings: nothing assigns [src] or [targetOrigin] later.
    [parent] is the document body. *)
Record BridgeOptions := mkOptions {
  src : string;
  targetOrigin : Val;
  title : option string
}.

(** What the browser decides: the origin of [new URL(src,
    window.location.href)] ([None] when the constructor throws), whether
    [postMessage] to the frame throws for a given target origin, and the
    window the frame gets when it is attached. *)
Record Host := mkHost {
  url_origin : string → option string;
  postMessage_throws : Val → bool;
  frame_window : nat
}.

(** The argument of [update]; an absent field reads [undefined]. *)
Record Next := mkNext { n_src : Val; n_targetOrigin : Val }.

(** [s.includes("?")] *)
Definition includes_qmark (s : string) : bool :=
  bool_decide (is_Some (String.index 0 "?" s)).

Module Bridge.
Section Controller.

Variable P : nat → Val → list Cmd.
Variable fuel : nat.
Variable host : Host.
Variable options : BridgeOptions.

(** The body of [mountBusBridge] up to [parent.appendChild(iframeEl)]. *)
Definition mount : M unit :=
  modify (set_iframeEl (Some
    (mkIframe (src options) (default "bus-bridge" (title options)) "none"
              true true (Some (frame_window host))))) ;;
  modify (set_port None) ;;
  modify (set_loaded false).

(** [try { port?.close?.(); } catch {}] *)
Definition close_port : M unit :=
  try_catch
    (p <- gets port ;;
     match p with
     | Some c => tell [EvPortClose c]
     | None => ret tt
     end)
    (λ _, ret tt).

(** [targetOrigin ?? new URL(src, window.location.href).origin] *)
Definition resolve_origin : M Val :=
  if nullish (targetOrigin options) then
    match url_origin host (src options) with
    | Some o => ret (VStr o)
    | None => throw "TypeError: Invalid URL"
    end
  else ret (targetOrigin options).

(** The handler installed as [port.onmessage]; [e_data] is [e.data]. *)
Definition onmessage (e_data : Val) : M unit :=
  let data := js_or e_data (VObj []) in
  match get_prop (js_or data (VObj [])) "topic",
        get_prop (js_or data (VObj [])) "payload" with
  | Some topic, Some payload =>
      if truthy topic then
        bus_emit P fuel topic payload ;;
        bus_emit P fuel (VStr "bridge:message")
                 (VObj [("topic", topic); ("payload", payload)])
      else
        bus_emit P fuel (VStr "bridge:message") data
  | _, _ => throw "TypeError"
  end.

Definition connect : M unit :=
  el <- gets iframeEl ;;
  ld <- gets loaded ;;
  match el with
  | None => ret tt
  | Some el =>
      if negb ld then ret tt else
      origin <- resolve_origin ;;
      (* close previous *)
      close_port ;;
      c <- gets channels ;;
      modify (set_channels (S c)) ;;
      modify (set_port (Some c)) ;;
      try_catch (tell [EvPortStart c]) (λ _, ret tt) ;;
      (* parent -> iframe handshake *)
      try_catch
        (match contentWindow el with
         | Some win =>
             if postMessage_throws host origin then throw "postMessage"
             else tell [EvWinPost win (VObj [("type", VStr "connect")])
                                  origin c]
         | None => ret tt
         end)
        (λ _, tell [EvError "bridge handshake failed"]) ;;
      (* outflow: set global sender *)
      setSender P fuel (Some SBridge) ;;
      bus_emit P fuel (VStr "bridge:open") (VObj [("origin", origin)])
  end.

Definition onIframeLoad : M unit :=
  modify (set_loaded true) ;;
  connect.

(** The frame fires [load]: the listener runs while it is attached. *)
Definition fire_load : M unit :=
  el <- gets iframeEl ;;
  match el with
  | Some el => if el_onload el then onIframeLoad else ret tt
  | None => ret tt
  end.

Definition disconnect : M unit :=
  setSender P fuel None ;;
  close_port ;;
  modify (set_port None) ;;
  bus_emit P fuel (VStr "bridge:close") VUndef.

Definition destroy : M unit :=
  disconnect ;;
  el <- gets iframeEl ;;
  match el with
  | Some el =>
      tell [EvDom "removeEventListener"] ;;
      (if el_attached el then tell [EvDom "removeChild"] else ret tt) ;;
      modify (set_iframeEl None)
  | None => ret tt
  end.

(** [iframeEl.src = s] *)
Definition assign_src (s : string) : M unit :=
  modify (λ w,
    match iframeEl w with
    | Some el =>
        set_iframeEl (Some (mkIframe s (el_title el) (el_display el)
                                     (el_onload el) (el_attached el)
                                     (contentWindow el))) w
    | None => w
    end).

(** [update(next)]; [now] is the decimal rendering of [Date.now()]. *)
Definition update (now : string) (next : Next) : M unit :=
  let needsSrcChange :=
    match n_src next with
    | VStr s => bool_decide (s ≠ src options)
    | _ => false
    end in
  let newOrigin :=
    match n_targetOrigin next with
    | VUndef => targetOrigin options
    | o => o
    end in
  (* Disconnect first to avoid dangling sender *)
  disconnect ;;
  el <- gets iframeEl ;;
  (if needsSrcChange && bool_decide (is_Some el) then
     match n_src next with
     | VStr s =>
         assign_src s ;;
         modify (set_loaded false) ;;
         (* force reload if same URL but we still want to reconnect *)
         if bool_decide (s = src options) then
           assign_src (String.append s
             (String.append (if includes_qmark s then "&" else "?")
                (String.append "_ts=" now)))
         else ret tt
     | _ => ret tt
     end
   else ret tt) ;;
  (* If the src didn't change, just reconnect with the new origin *)
  if negb needsSrcChange then
    modify (λ w, set_microtasks (microtasks w ++ [TConnect]) w)
  else ret tt.

(** The microtask checkpoint: the queued callbacks run in order; an
    exception of one is reported and the next one runs. *)
Fixpoint run_tasks (ts : list Task) : M unit :=
  match ts with
  | [] => ret tt
  | TConnect :: ts' =>
      try_catch connect (λ err, tell [EvError (String.append "Uncaught " err)]) ;;
      run_tasks ts'
  end.

Definition run_microtasks : M unit :=
  ts <- gets microtasks ;;
  modify (set_microtasks []) ;;
  run_tasks ts.

End Controller.
End Bridge.

(** ** The channel transport *)

Module Transport.

(** [chan], [port1] and [connected] of the module, and the number of
    channels allocated so far. *)
Record State := mkState {
  chan : option nat;
  port1 : option nat;
  connected : bool;
  allocated : nat
}.

Definition initial : State := mkState None None false 0.

(** A window [message] event: [source] is [null] when the sending window
    is gone. *)
Record MessageEvent := mkEvent {
  data : Val;
  source : option nat;
  origin : string
}.

Definition connect (win : option nat) (t : State) : State * list Ev :=
  match win with
  | Some w =>
      if negb (connected t) then
        let c := allocated t in
        (mkState (Some c) (Some c) true (S c),
         [EvLog "[BWO] Connecting channel to iframe as window data";
          EvWinPost w (VStr "init") (VStr "*") c])
      else (t, [])
  | None => (t, [])
  end.

(** [v === 'init'] *)
Definition is_init (v : Val) : bool :=
  match v with
  | VStr s => String.eqb s "init"
  | _ => false
  end.

Definition windowReceive (ev : MessageEvent) (t : State)
  : State * list Ev * Completion unit :=
  let log := EvLog "[BWO] Received window data" in
  match get_prop (data ev) "type" with
  | None => (t, [log], Thrown "TypeError")
  | Some ty =>
      if is_init ty then
        let '(t', tr) := connect (source ev) t in
        (t', log :: tr, Returned tt)
      else (t, [log], Returned tt)
  end.

End Transport.

(** ** Reading traces and states *)

(** The calls an emission made itself, with the event each one got. *)
Definition called (calls : list Ev) : list (Listener * Val) :=
  omap (λ ev, match ev with
              | EvCall fn e _ _ => Some (fn, e)
              | _ => None
              end) calls.

(** The shape of what one pass over a snapshot leaves: one call per
    member, in order, each followed by the console error when, and only
    when, it threw. *)
Inductive delivered (e : Val) : list Listener → list Ev → Prop :=
| delivered_nil : delivered e [] []
| delivered_ok fn inner rest tr :
    delivered e rest tr →
    delivered e (fn :: rest) (EvCall fn e inner false :: tr)
| delivered_fault fn inner rest tr :
    delivered e rest tr →
    delivered e (fn :: rest)
      (EvCall fn e inner true :: EvError "bus listener error" :: tr).

(** One pass of [emit] over a snapshot, said without the loop: every
    member is called once, in order, with the event, on the registry the
    member before it left; the call's trace and the fact that it threw
    are what the call gave; a throw is followed by the console error and
    the pass goes on with the next member. *)
Inductive pass (P : nat → Val → list Cmd)
    (emitf : string → Val → Emitter → option (Emitter * Ev)) (e : Val)
  : list Listener → Emitter → Emitter → list Ev → Prop :=
| pass_nil em : pass P emitf e [] em em []
| pass_cons fn rest em em1 em2 inner threw tr :
    call P emitf fn e em = Some (em1, inner, threw) →
    pass P emitf e rest em1 em2 tr →
    pass P emitf e (fn :: rest) em em2
      (EvCall fn e inner threw
         :: (if threw then [EvError "bus listener error"] else []) ++ tr).

(** How often [l] was called anywhere in a trace, nested emissions
    included. *)
Fixpoint count_calls (l : Listener) (ev : Ev) : nat :=
  match ev with
  | EvEmit _ _ calls =>
      (fix go (tr : list Ev) : nat :=
         match tr with
         | [] => 0
         | x :: tr' => count_calls l x + go tr'
         end) calls
  | EvCall fn _ inner _ =>
      (if decide (fn = l) then 1 else 0) +
      (fix go (tr : list Ev) : nat :=
         match tr with
         | [] => 0
         | x :: tr' => count_calls l x + go tr'
         end) inner
  | _ => 0
  end.

Fixpoint count_calls_in (l : Listener) (tr : list Ev) : nat :=
  match tr with
  | [] => 0
  | x :: tr' => count_calls l x + count_calls_in l tr'
  end.

(** The emissions a trace holds at its top level: topic and event. *)
Definition emissions (tr : list Ev) : list (Val * Val) :=
  omap (λ ev, match ev with
              | EvEmit t e _ => Some (t, e)
              | _ => None
              end) tr.

(** The window posts of a trace. *)
Definition posts (tr : list Ev) : list (nat * Val * Val * nat) :=
  omap (λ ev, match ev with
              | EvWinPost w m o c => Some (w, m, o, c)
              | _ => None
              end) tr.

(** What the handshake post of the bridge's [connect] leaves in the
    trace: the post, the logged error when the post throws, nothing when
    the frame has no window. *)
Definition handshake_trace (host : Host) (el : Iframe) (origin : Val)
    (c : nat) : list Ev :=
  match contentWindow el with
  | Some win =>
      if postMessage_throws host origin
      then [EvError "bridge handshake failed"]
      else [EvWinPost win (VObj [("type", VStr "connect")]) origin c]
  | None => []
  end.

(** A body that starts no emission. *)
Definition emit_free (cs : list Cmd) : Prop :=
  Forall (λ c, match c with CEmit _ _ => False | _ => True end) cs.

(** What every registry built through the API satisfies: a [Set] has no
    duplicates, a [once] wrapper sits only in the [Set] its [off] holds
    and is older than the next wrapper to come, and the map refers to
    allocated [Set]s. *)
Definition inv (em : Emitter) : Prop :=
  Forall NoDup (sets em) ∧
  (∀ i set k s f,
     sets em !! i = Some set → LOnce k s f ∈ set → i = s ∧ k < closures em) ∧
  (∀ t s, e_map em !! t = Some s → s < length (sets em)).

(** [l] is a member of no [Set], and no later [once] can allocate it. *)
Definition silenced (l : Listener) (em : Emitter) : Prop :=
  Forall (λ set, l ∉ set) (sets em) ∧
  match l with
  | LOnce k _ _ => k < closures em
  | LFn _ => True
  end.

(** One use of the hub by its clients. *)
Inductive step (P : nat → Val → list Cmd) : Emitter → Emitter → Prop :=
| step_on t f em : step P em (on t (LFn f) em).1
| step_once t f em : step P em (once t f em).1
| step_off t f em : step P em (off t (LFn f) em)
| step_unsubscribe u em : step P em (unsubscribe u em)
| step_clear t em : step P em (clear t em)
| step_emit fuel t e em em' ev :
    emit P fuel t e em = Some (em', ev) → step P em em'.

(** ** Scenarios *)

Module Scenario.

(** Function 0 subscribes function 2 and unsubscribes function 1 from
    topic T while it handles an event; function 1 subscribes function 3
    to topic U. *)
Definition P_churn (f : nat) (e : Val) : list Cmd :=
  match f with
  | 0 => [COn "T" 2; COff "T" 1]
  | 1 => [COn "U" 3]
  | _ => []
  end.

(** Functions 0 and 1 subscribed to T, in that order. *)
Definition em_pair : Emitter :=
  (on "T" (LFn 1) (on "T" (LFn 0) new_Emitter).1).1.

(** Function 0 throws; function 1 subscribes function 3 to topic U. *)
Definition P_fault (f : nat) (e : Val) : list Cmd :=
  match f with
  | 0 => [CThrow]
  | 1 => [COn "U" 3]
  | _ => []
  end.

(** Function 0 emits the event it got on T again. *)
Definition P_reentrant (f : nat) (e : Val) : list Cmd :=
  match f with
  | 0 => [CEmit "T" e]
  | _ => []
  end.

(** [bus.once("T", f0); bus.once("T", f1)] *)
Definition em_once_pair : Emitter :=
  (once "T" 1 (once "T" 0 new_Emitter).1).1.

(** No function does anything. *)
Definition P_idle (f : nat) (e : Val) : list Cmd := [].

(** Function 0 emits the event it got on U and then subscribes
    function 3 to V; function 1 throws. *)
Definition P_relay (f : nat) (e : Val) : list Cmd :=
  match f with
  | 0 => [CEmit "U" e; COn "V" 3]
  | 1 => [CThrow]
  | _ => []
  end.

(** Function 0 subscribed to T, function 1 to U. *)
Definition em_relay : Emitter :=
  (on "U" (LFn 1) (on "T" (LFn 0) new_Emitter).1).1.

(** Ranks for [P_relay]: function 0 and topic T stand above the
    rest. *)
Definition rkf_relay (f : nat) : nat :=
  match f with
  | 0 => 1
  | _ => 0
  end.

Definition rkt_relay (t : string) : nat :=
  if decide (t = "T") then 1 else 0.

End Scenario.

Module BridgeScenario.

(** A host whose [postMessage] never throws, and one whose
    [postMessage] always does; the frame window is window 7. *)
Definition host_ok : Host :=
  mkHost (λ _, Some "https://example.test") (λ _, false) 7.
Definition host_failing : Host :=
  mkHost (λ _, Some "https://example.test") (λ _, true) 7.

(** [mountBusBridge({src, targetOrigin: "https://a.test"})] *)
Definition options : BridgeOptions :=
  mkOptions "https://example.test/frame.html" (VStr "https://a.test") None.

(** Before [mountBusBridge]: a fresh bus, no sender. *)
Definition w_fresh : World := mkWorld new_Emitter None None None false [] 0.

End BridgeScenario.

(** ** Further invariants *)

(** Beyond [inv]: every topic has a [Set] of its own. *)
Definition wf (em : Emitter) : Prop :=
  inv em ∧
  ∀ t1 t2 s, e_map em !! t1 = Some s → e_map em !! t2 = Some s → t1 = t2.

(** The function a listener runs. *)
Definition fn_of (l : Listener) : nat :=
  match l with
  | LFn f => f
  | LOnce _ _ f => f
  end.

(** A program is stratified by a rank on functions and a rank on topics
    when a function emits only on topics ranked below it and subscribes
    functions only to topics ranked at or above them.  A registry is
    ranked when every listener of a topic is ranked at or below the
    topic.  Emissions then nest no deeper than the rank of the topic. *)
Definition stratified (rkf : nat → nat) (rkt : string → nat)
    (P : nat → Val → list Cmd) : Prop :=
  ∀ f e,
    Forall (λ c, match c with
                 | CEmit t _ => (rkt t < rkf f)%nat
                 | COn t g | COnce t g => (rkf g ≤ rkt t)%nat
                 | _ => True
                 end) (P f e).

Definition ranked (rkf : nat → nat) (rkt : string → nat) (em : Emitter)
  : Prop :=
  ∀ t l, l ∈ listeners em t → (rkf (fn_of l) ≤ rkt t)%nat.

(** The port the bridge holds was allocated before the next channel. *)
Definition ports_ok (w : World) : Prop :=
  ∀ p, port w = Some p → p < channels w.

(** While the bridge's sender is installed the bridge holds a port, and
    that port was allocated before the next channel. *)
Definition bridge_ok (w : World) : Prop :=
  ports_ok w ∧ (_post w = Some SBridge → is_Some (port w)).

(** One event in the life of a mounted bridge: the frame loads, a
    client calls [connect], [disconnect], [destroy] or [update], the
    microtask checkpoint runs, or a message arrives on the port. *)
Inductive bridge_step (P : nat → Val → list Cmd) (host : Host)
    (options : BridgeOptions) : World → World → Prop :=
| bs_load fuel w w' tr c :
    Bridge.fire_load P fuel host options w = Some (w', tr, c) →
    bridge_step P host options w w'
| bs_connect fuel w w' tr c :
    Bridge.connect P fuel host options w = Some (w', tr, c) →
    bridge_step P host options w w'
| bs_disconnect fuel w w' tr c :
    Bridge.disconnect P fuel w = Some (w', tr, c) →
    bridge_step P host options w w'
| bs_destroy fuel w w' tr c :
    Bridge.destroy P fuel w = Some (w', tr, c) →
    bridge_step P host options w w'
| bs_update fuel now next w w' tr c :
    Bridge.update P fuel options now next w = Some (w', tr, c) →
    bridge_step P host options w w'
| bs_checkpoint fuel w w' tr c :
    Bridge.run_microtasks P fuel host options w = Some (w', tr, c) →
    bridge_step P host options w w'
| bs_message fuel e_data w w' tr c :
    Bridge.onmessage P fuel e_data w = Some (w', tr, c) →
    bridge_step P host options w w'.

(** ** The transport over many window messages *)

(** The window delivers the events one after another to
    [window.onmessage]; an exception of the handler is reported and the
    next event is handled. *)
Fixpoint receive_all (evs : list Transport.MessageEvent) (t : Transport.State)
  : Transport.State * list Ev :=
  match evs with
  | [] => (t, [])
  | ev :: evs' =>
      let '(t1, tr1, _) := Transport.windowReceive ev t in
      let '(t2, tr2) := receive_all evs' t1 in
      (t2, tr1 ++ tr2)
  end.

(** What keeps holding of the transport's variables: [connected] tells
    whether a port is held, [port1] is the port of [chan], and it was
    allocated before the next channel. *)
Definition transport_ok (t : Transport.State) : Prop :=
  (Transport.connected t = true ↔ is_Some (Transport.port1 t)) ∧
  Transport.chan t = Transport.port1 t ∧
  ∀ p, Transport.port1 t = Some p → p < Transport.allocated t.

(** ** The channel object of the transport *)

Module Channel.

(** [handlers] is a [Set] that [channelReceive] walks with [forEach]
    while the callbacks may add to it and delete from it.  Its data is
    the list of its entries in insertion order, in which [delete] leaves
    a hole and [add] appends: what [forEach] is defined on. *)
Definition add (f : nat) (hs : list (option nat)) : list (option nat) :=
  if decide (Some f ∈ hs) then hs else hs ++ [Some f].

Definition delete (f : nat) (hs : list (option nat)) : list (option nat) :=
  (λ e, if decide (e = Some f) then None else e) <$> hs.

(** The members, oldest first. *)
Definition live (hs : list (option nat)) : list nat := omap id hs.

(** [channel.send(msg)]: [port1] is [undefined] until the handshake. *)
Definition send (msg : Val) (t : Transport.State)
  : list Ev * Completion unit :=
  match Transport.port1 t with
  | Some p =>
      ([EvLog "[BWO] Sending channel data"; EvPortPost p msg], Returned tt)
  | None => ([EvLog "[BWO] Sending channel data"], Thrown "TypeError")
  end.

(** [channel.addListener(fn)]: the new [Set] and the closure
    [() => handlers.delete(fn)] it returns. *)
Definition addListener (f : nat) (hs : list (option nat))
  : list (option nat) * (list (option nat) → list (option nat)) :=
  (add f hs, delete f).

(** What a handler does with the channel: it adds a listener, calls
    the closure [addListener] returned for one, sends, or throws. *)
Inductive HCmd :=
| HAdd (f : nat)
| HRemove (f : nat)
| HSend (msg : Val)
| HThrow.

Section Receive.

(** [H f data] is the body of handler [f] applied to [data]. *)
Variable H : nat → Val → list HCmd.

(** The transport's variables; no handler changes them. *)
Variable t : Transport.State.

(** Runs a body; the result tells the error it threw, if any. *)
Fixpoint hrun (cs : list HCmd) (hs : list (option nat))
  : list (option nat) * list Ev * option string :=
  match cs with
  | [] => (hs, [], None)
  | HThrow :: _ => (hs, [], Some "Error")
  | HAdd f :: cs' => hrun cs' (addListener f hs).1
  | HRemove f :: cs' => hrun cs' ((addListener f hs).2 hs)
  | HSend msg :: cs' =>
      match send msg t with
      | (tr, Returned _) =>
          let '(hs', tr', r) := hrun cs' hs in (hs', tr ++ tr', r)
      | (tr, Thrown err) => (hs, tr, Some err)
      end
  end.

(** [handlers.forEach(fn => fn(ev.data))] from entry [index] on: the
    entries are read one index after the other from the [Set] as it is
    by then; an exception of a callback ends the walk.  The fuel bounds
    the number of entries visited. *)
Fixpoint forEach (fuel : nat) (index : nat) (data : Val)
    (hs : list (option nat))
  : option (list (option nat) * list Ev * Completion unit) :=
  match fuel with
  | O => None
  | S fuel' =>
      match hs !! index with
      | None => Some (hs, [], Returned tt)
      | Some None => forEach fuel' (S index) data hs
      | Some (Some f) =>
          let '(hs1, inner, r) := hrun (H f data) hs in
          match r with
          | Some err =>
              Some (hs1, [EvCall (LFn f) data inner true], Thrown err)
          | None =>
              '(hs2, tr, c) ← forEach fuel' (S index) data hs1;
              Some (hs2, EvCall (LFn f) data inner false :: tr, c)
          end
      end
  end.

(** [channelReceive(ev)]; [ev] is [None] for a missing event and
    [Some data] for an event whose [data] is [data]. *)
Definition channelReceive (fuel : nat) (ev : option Val)
    (hs : list (option nat))
  : option (list (option nat) * list Ev * Completion unit) :=
  match ev with
  | Some data =>
      if truthy data then
        '(hs', tr, c) ← forEach fuel 0 data hs;
        Some (hs', EvLog "[BWO] Received channel data" :: tr, c)
      else Some (hs, [], Returned tt)
  | None => Some (hs, [], Returned tt)
  end.

End Receive.

(** A body that only sends. *)
Definition passive (cs : list HCmd) : Prop :=
  Forall (λ c, match c with HSend _ => True | _ => False end) cs.

(** The handlers called by a walk, in order. *)
Definition handled (tr : list Ev) : list nat :=
  omap (λ ev, match ev with
              | EvCall (LFn f) _ _ _ => Some f
              | _ => None
              end) tr.

End Channel.

(** An event that makes an unconnected transport handshake: its data
    has [type] "init" and it names a source window. *)
Definition triggers (ev : Transport.MessageEvent) : bool :=
  match get_prop (Transport.data ev) "type" with
  | Some ty =>
      Transport.is_init ty && bool_decide (is_Some (Transport.source ev))
  | None => false
  end.

(** ** The module script *)

Module App.

(** The two functions the script subscribes: [handleMessage] (function
    0), which is [async], so that what it throws rejects its promise and
    never reaches [emit], and the arrow function that logs "bridge open"
    (function 1), whose parameter pattern [{origin}] throws on [null] and
    [undefined].  Neither touches the hub. *)
Definition handleMessage : nat := 0.
Definition logOpen : nat := 1.

Definition P (f : nat) (e : Val) : list Cmd :=
  match f with
  | 1 => if nullish e then [CThrow] else []
  | _ => []
  end.

(** [mountBusBridge({ src: "https://magic-portal.divora.world" })] *)
Definition options : BridgeOptions :=
  mkOptions "https://magic-portal.divora.world" VUndef None.

(** The registry after the two subscriptions of the hook. *)
Definition registry : Emitter :=
  (on "bridge:open" (LFn logOpen)
      (on "bwo:roll" (LFn handleMessage) new_Emitter).1).1.

(** The body of the "ready" hook. *)
Definition ready (host : Host) : M unit :=
  modify (λ w, set_bus (on "bwo:roll" (LFn handleMessage) (bus w)).1 w) ;;
  modify (λ w, set_bus (on "bridge:open" (LFn logOpen) (bus w)).1 w) ;;
  Bridge.mount host options.

End App.

(** ** Properties of the Emitter *)

Lemma count_calls_emit l t e calls :
  count_calls l (EvEmit t e calls) = count_calls_in l calls.
Proof. simpl. induction calls as [|x calls IH]; simpl; congruence. Qed.

Lemma count_calls_call l fn e inner threw :
  count_calls l (EvCall fn e inner threw) =
  (if decide (fn = l) then 1 else 0) + count_calls_in l inner.
Proof.
  simpl. f_equal. induction inner as [|x inner IH]; simpl; congruence.
Qed.

Arguments count_calls : simpl never.

Lemma count_calls_in_app l tr1 tr2 :
  count_calls_in l (tr1 ++ tr2) = count_calls_in l tr1 + count_calls_in l tr2.
Proof. induction tr1 as [|x tr1 IH]; simpl; lia. Qed.

Lemma delivered_called e snapshot tr :
  delivered e snapshot tr → called tr = (λ fn, (fn, e)) <$> snapshot.
Proof. unfold called. induction 1; csimpl; congruence. Qed.

Section EmitFacts.

Variable P : nat → Val → list Cmd.

(** *** Termination *)

Lemma run_emit_free emitf cs em :
  emit_free cs → is_Some (run emitf cs em).
Proof.
  intros Hfree. revert em.
  induction Hfree as [|c cs Hc _ IH]; intros em; [by eexists|].
  destruct c; simpl; first [done | apply IH | by eexists].
Qed.

Lemma call_emit_free emitf fn e em :
  (∀ f e, emit_free (P f e)) → is_Some (call P emitf fn e em).
Proof.
  intros Hfree. destruct fn as [f|k s f]; simpl.
  - by apply run_emit_free.
  - destruct (run_emit_free emitf (P f e)
                (unsubscribe (Unsub s (LOnce k s f)) em) (Hfree f e))
      as [[[em2 tr] threw] ->].
    by eexists.
Qed.

Lemma deliver_emit_free emitf snapshot e em :
  (∀ f e, emit_free (P f e)) → is_Some (deliver P emitf snapshot e em).
Proof.
  intros Hfree. revert em.
  induction snapshot as [|fn rest IH]; intros em; simpl; [by eexists|].
  destruct (call_emit_free emitf fn e em Hfree) as [[[em1 inner] threw] ->].
  simpl. destruct (IH em1) as [[em2 tr] ->]. by eexists.
Qed.

Lemma emit_emit_free fuel topic e em :
  (∀ f e, emit_free (P f e)) → is_Some (emit P (S fuel) topic e em).
Proof.
  intros Hfree. simpl.
  destruct (e_map em !! topic) as [s|]; [|by eexists].
  case_decide; [by eexists|].
  destruct (deliver_emit_free (emit P fuel) (default [] (sets em !! s)) e em
              Hfree) as [[em' calls] ->].
  by eexists.
Qed.

(** *** More budget never changes an emission that returned *)

Lemma emit_S fuel topic e em :
  emit P (S fuel) topic e em =
  match e_map em !! topic with
  | None => Some (em, EvEmit (VStr topic) e [])
  | Some s =>
      let set := default [] (sets em !! s) in
      if decide (length set = 0)
      then Some (em, EvEmit (VStr topic) e [])
      else
        '(em', calls) ← deliver P (emit P fuel) set e em;
        Some (em', EvEmit (VStr topic) e calls)
  end.
Proof. reflexivity. Qed.

Section Monotone.

Variables emitf emitf' : string → Val → Emitter → option (Emitter * Ev).
Hypothesis emitf_le :
  ∀ t e em r, emitf t e em = Some r → emitf' t e em = Some r.

Lemma run_mono cs em r :
  run emitf cs em = Some r → run emitf' cs em = Some r.
Proof.
  revert em r. induction cs as [|c cs IH]; intros em r; simpl; [done|].
  destruct c; eauto.
  destruct (emitf topic e em) as [[em1 ev]|] eqn:E; [|done].
  rewrite (emitf_le _ _ _ _ E). simpl.
  destruct (run emitf cs em1) as [[[em2 tr] threw]|] eqn:E2; [|done].
  by rewrite (IH _ _ E2).
Qed.

Lemma call_mono fn e em r :
  call P emitf fn e em = Some r → call P emitf' fn e em = Some r.
Proof.
  destruct fn as [f|k s f]; simpl; [apply run_mono|].
  destruct (run emitf (P f e) _) as [[[em2 tr] threw]|] eqn:E; [|done].
  by rewrite (run_mono _ _ _ E).
Qed.

Lemma deliver_mono snapshot e em r :
  deliver P emitf snapshot e em = Some r →
  deliver P emitf' snapshot e em = Some r.
Proof.
  revert em r. induction snapshot as [|fn rest IH]; intros em r; simpl;
    [done|].
  destruct (call P emitf fn e em) as [[[em1 inner] threw]|] eqn:E; [|done].
  rewrite (call_mono _ _ _ _ E). simpl.
  destruct (deliver P emitf rest e em1) as [[em2 tr]|] eqn:E2; [|done].
  by rewrite (IH _ _ E2).
Qed.

End Monotone.

Lemma emit_mono fuel topic e em r :
  emit P fuel topic e em = Some r → emit P (S fuel) topic e em = Some r.
Proof.
  revert topic e em r.
  induction fuel as [|fuel IH]; intros topic e em r; [done|].
  rewrite (emit_S (S fuel)), (emit_S fuel).
  destruct (e_map em !! topic) as [s|]; [|done]. cbv zeta.
  case_decide; [done|].
  destruct (deliver P (emit P fuel) _ e em) as [[em1 calls]|] eqn:E; [|done].
  by rewrite (deliver_mono _ _ IH _ _ _ _ E).
Qed.

Lemma emit_fuel_le (fuel fuel' : nat) topic e em r :
  (fuel ≤ fuel')%nat →
  emit P fuel topic e em = Some r → emit P fuel' topic e em = Some r.
Proof. induction 1; [done|]. intros. by apply emit_mono; auto. Qed.

(** *** The shape of an emission *)

Lemma deliver_delivered emitf snapshot e em em' tr :
  deliver P emitf snapshot e em = Some (em', tr) → delivered e snapshot tr.
Proof.
  revert em em' tr.
  induction snapshot as [|fn rest IH]; intros em em' tr; simpl.
  - intros [= _ <-]. constructor.
  - destruct (call P emitf fn e em) as [[[em1 inner] threw]|]; [|done].
    simpl. destruct (deliver P emitf rest e em1) as [[em2 tr2]|] eqn:E;
      [|done].
    simpl. intros [= _ <-]. destruct threw; simpl.
    + apply delivered_fault. eauto.
    + apply delivered_ok. eauto.
Qed.

Lemma emit_shape fuel topic e em em' ev :
  emit P fuel topic e em = Some (em', ev) →
  ∃ calls, ev = EvEmit (VStr topic) e calls ∧
           delivered e (listeners em topic) calls.
Proof.
  destruct fuel as [|fuel]; [done|]. simpl. unfold listeners.
  destruct (e_map em !! topic) as [s|].
  - case_decide as Hlen.
    + intros [= _ <-]. eexists; split; [done|].
      apply length_zero_iff_nil in Hlen. rewrite Hlen. constructor.
    + destruct (deliver P (emit P fuel) (default [] (sets em !! s)) e em)
        as [[em1 calls]|] eqn:E; [|done].
      simpl. intros [= _ <-]. eexists; split; [done|].
      by eapply deliver_delivered.
  - intros [= _ <-]. eexists; split; [done|]. constructor.
Qed.

End EmitFacts.

(** *** Sets as duplicate-free lists *)

Lemma elem_of_set_add x fn s : x ∈ set_add fn s ↔ x ∈ s ∨ x = fn.
Proof.
  unfold set_add. case_decide.
  - split; [by left|]. by intros [?|?]; subst.
  - by rewrite elem_of_app, list_elem_of_singleton.
Qed.

Lemma elem_of_set_delete x fn s : x ∈ set_delete fn s ↔ x ∈ s ∧ x ≠ fn.
Proof. unfold set_delete. rewrite list_elem_of_filter. tauto. Qed.

Lemma NoDup_set_add fn s : NoDup s → NoDup (set_add fn s).
Proof.
  intros Hs. unfold set_add. case_decide; [done|].
  apply NoDup_app. split_and!; [done| |apply NoDup_singleton].
  intros x Hx ->%list_elem_of_singleton. done.
Qed.

Lemma NoDup_set_delete fn s : NoDup s → NoDup (set_delete fn s).
Proof. apply NoDup_filter. Qed.

Lemma set_add_new fn s : fn ∉ s → set_add fn s = s ++ [fn].
Proof. intros Hfn. unfold set_add. by case_decide. Qed.

Lemma set_add_old fn s : fn ∈ s → set_add fn s = s.
Proof. intros Hfn. unfold set_add. by case_decide. Qed.

(** *** The invariant of the registry *)

Lemma inv_new : inv new_Emitter.
Proof. split_and!; [constructor|done|done]. Qed.

Lemma inv_delete fn s em :
  inv em →
  inv (mkEmitter (e_map em) (alter (set_delete fn) s (sets em)) (closures em)).
Proof.
  intros (Hnd & Hw & Hr). split_and!; simpl.
  - apply Forall_alter; [done|]. intros set _ ?. by apply NoDup_set_delete.
  - intros i set k s' f Hi Hin.
    destruct (decide (s = i)) as [->|Hne].
    + rewrite list_lookup_alter_eq in Hi.
      destruct (sets em !! i) as [set0|] eqn:E; [|done].
      simpl in Hi. injection Hi as <-.
      apply elem_of_set_delete in Hin as [Hin _]. eauto.
    + rewrite list_lookup_alter_ne in Hi by done. eauto.
  - intros t s' Ht. rewrite length_alter. eauto.
Qed.

Lemma inv_closures em :
  inv em → inv (mkEmitter (e_map em) (sets em) (S (closures em))).
Proof.
  intros (Hnd & Hw & Hr). split_and!; [done| |done]. simpl.
  intros i set k s f Hi Hin. destruct (Hw _ _ _ _ _ Hi Hin). split; [done|lia].
Qed.

(** [on] keeps the invariant when the function is one of the program,
    or a wrapper that names the [Set] [on] puts it in. *)
Lemma inv_on topic fn em :
  inv em →
  match fn with
  | LFn _ => True
  | LOnce k s _ =>
      k < closures em ∧
      s = match e_map em !! topic with
          | Some s => s
          | None => length (sets em)
          end
  end →
  inv (on topic fn em).1.
Proof.
  intros (Hnd & Hw & Hr) Hfn. unfold on.
  destruct (e_map em !! topic) as [s|] eqn:Ht; simpl; split_and!; simpl.
  - apply Forall_alter; [done|]. intros set _ ?. by apply NoDup_set_add.
  - intros i set k s' f Hi Hin.
    destruct (decide (s = i)) as [->|Hne].
    + rewrite list_lookup_alter_eq in Hi.
      destruct (sets em !! i) as [set0|] eqn:E; [|done].
      simpl in Hi. injection Hi as <-.
      apply elem_of_set_add in Hin as [Hin| <-]; [eauto|].
      destruct Hfn as [? ->]. done.
    + rewrite list_lookup_alter_ne in Hi by done. eauto.
  - intros t s' Ht'. rewrite length_alter. eauto.
  - apply Forall_app. split; [done|]. repeat constructor. set_solver.
  - intros i set k s' f Hi Hin.
    apply lookup_app_Some in Hi as [Hi|[Hlen Hi]]; [eauto|].
    apply list_lookup_singleton_Some in Hi as [Hi <-].
    apply elem_of_set_add in Hin as [Hin| <-]; [set_solver|].
    destruct Hfn as [? ->]. split; [lia|done].
  - intros t s' Ht'. rewrite length_app. simpl.
    destruct (decide (topic = t)) as [->|Hne].
    + rewrite lookup_insert_eq in Ht'. injection Ht' as <-. lia.
    + rewrite lookup_insert_ne in Ht' by done. apply Hr in Ht'. lia.
Qed.

Lemma inv_once topic f em : inv em → inv (once topic f em).1.
Proof.
  intros Hinv. unfold once. apply inv_on.
  - by apply inv_closures.
  - simpl. split; [lia|done].
Qed.

Lemma inv_off topic fn em : inv em → inv (off topic fn em).
Proof.
  intros Hinv. unfold off. destruct (e_map em !! topic); [|done].
  by apply inv_delete.
Qed.

Lemma inv_unsubscribe u em : inv em → inv (unsubscribe u em).
Proof. apply inv_delete. Qed.

Lemma inv_clear topic em : inv em → inv (clear topic em).
Proof.
  intros (Hnd & Hw & Hr). unfold clear.
  destruct topic as [t|]; [destruct (truthy (VStr t))|];
    (split_and!; [done|done|]); simpl; intros t' s' Ht'; [|done|done].
  apply lookup_delete_Some in Ht' as [_ Ht']. eauto.
Qed.

(** *** A listener that has left the registry *)

Lemma silenced_delete l m fn s em :
  silenced l em →
  silenced l (mkEmitter m (alter (set_delete fn) s (sets em)) (closures em)).
Proof.
  intros [Hgone Hk]. split; [|done]. simpl.
  apply Forall_alter; [done|].
  intros set _ Hl [Hin _]%elem_of_set_delete. done.
Qed.

Lemma silenced_map l m em :
  silenced l em → silenced l (mkEmitter m (sets em) (closures em)).
Proof. by intros [Hgone Hk]. Qed.

Lemma silenced_on l topic fn em :
  silenced l em → fn ≠ l → silenced l (on topic fn em).1.
Proof.
  intros [Hgone Hk] Hne. unfold on.
  destruct (e_map em !! topic) as [s|]; simpl; (split; [|done]); simpl.
  - apply Forall_alter; [done|].
    intros set _ Hl [Hin| ->]%elem_of_set_add; done.
  - apply Forall_app. split; [done|]. repeat constructor.
    intros [Hin| ->]%elem_of_set_add; [set_solver|done].
Qed.

Lemma silenced_once l topic f em :
  silenced l em → silenced l (once topic f em).1.
Proof.
  intros [Hgone Hk]. unfold once. apply silenced_on.
  - split; [done|]. destruct l; simpl in *; [done|lia].
  - intros <-. simpl in Hk. lia.
Qed.

Lemma silenced_off l topic fn em : silenced l em → silenced l (off topic fn em).
Proof.
  intros Hs. unfold off. destruct (e_map em !! topic); [|done].
  by apply silenced_delete.
Qed.

Lemma silenced_unsubscribe l u em :
  silenced l em → silenced l (unsubscribe u em).
Proof. apply silenced_delete. Qed.

Lemma silenced_clear l topic em : silenced l em → silenced l (clear topic em).
Proof.
  intros Hs. unfold clear.
  destruct topic as [t|]; [destruct (truthy (VStr t))|]; by apply silenced_map.
Qed.

Lemma silenced_listeners l em topic : silenced l em → l ∉ listeners em topic.
Proof.
  intros [Hgone _]. unfold listeners.
  destruct (e_map em !! topic) as [s|]; [|set_solver].
  destruct (sets em !! s) as [set|] eqn:E; simpl; [|set_solver].
  rewrite Forall_lookup in Hgone. eauto.
Qed.

(** The wrapper's own [off()] takes it out of the only [Set] that held
    it. *)
Lemma inv_unsubscribe_silenced k s f em :
  inv em → k < closures em →
  silenced (LOnce k s f) (unsubscribe (Unsub s (LOnce k s f)) em).
Proof.
  intros (Hnd & Hw & _) Hk. unfold unsubscribe. simpl. split; simpl; [|done].
  apply Forall_lookup. intros i set Hi Hin.
  destruct (decide (s = i)) as [->|Hne].
  - rewrite list_lookup_alter_eq in Hi.
    destruct (sets em !! i) as [set0|]; [|done].
    simpl in Hi. injection Hi as <-.
    by apply elem_of_set_delete in Hin as [_ ?].
  - rewrite list_lookup_alter_ne in Hi by done.
    destruct (Hw _ _ _ _ _ Hi Hin) as [? _]. congruence.
Qed.

(** *** What a whole emission preserves *)

Section Preservation.

Variable P : nat → Val → list Cmd.
Variable I : Emitter → Prop.

Hypothesis I_on : ∀ t f em, I em → I (on t (LFn f) em).1.
Hypothesis I_once : ∀ t f em, I em → I (once t f em).1.
Hypothesis I_off : ∀ t f em, I em → I (off t (LFn f) em).
Hypothesis I_unsubscribe : ∀ u em, I em → I (unsubscribe u em).
Hypothesis I_clear : ∀ t em, I em → I (clear t em).

Section Inner.

Variable emitf : string → Val → Emitter → option (Emitter * Ev).
Hypothesis emitf_keeps :
  ∀ t e em em' ev, I em → emitf t e em = Some (em', ev) → I em'.

Lemma run_keeps cs em em' tr threw :
  I em → run emitf cs em = Some (em', tr, threw) → I em'.
Proof.
  revert em em' tr threw.
  induction cs as [|c cs IH]; intros em em' tr threw HI; simpl.
  - by intros [= <- _ _].
  - destruct c; eauto.
    + destruct (emitf topic e em) as [[em1 ev]|] eqn:E; [|done]. simpl.
      destruct (run emitf cs em1) as [[[em2 tr2] threw2]|] eqn:E2; [|done].
      simpl. intros [= <- _ _]. eauto.
    + by intros [= <- _ _].
Qed.

Lemma call_keeps fn e em em' tr threw :
  I em → call P emitf fn e em = Some (em', tr, threw) → I em'.
Proof.
  intros HI. destruct fn as [f|k s f]; simpl.
  - by apply run_keeps.
  - destruct (run emitf (P f e) _) as [[[em2 tr2] threw2]|] eqn:E; [|done].
    simpl. intros [= <- _ _]. eapply run_keeps; [|done]. eauto.
Qed.

Lemma deliver_keeps snapshot e em em' tr :
  I em → deliver P emitf snapshot e em = Some (em', tr) → I em'.
Proof.
  revert em em' tr.
  induction snapshot as [|fn rest IH]; intros em em' tr HI; simpl.
  - by intros [= <- _].
  - destruct (call P emitf fn e em) as [[[em1 inner] threw]|] eqn:E; [|done].
    simpl. destruct (deliver P emitf rest e em1) as [[em2 tr2]|] eqn:E2;
      [|done].
    simpl. intros [= <- _]. eapply IH; [|done]. by eapply call_keeps.
Qed.

End Inner.

Lemma emit_keeps fuel topic e em em' ev :
  I em → emit P fuel topic e em = Some (em', ev) → I em'.
Proof.
  revert topic e em em' ev.
  induction fuel as [|fuel IH]; intros topic e em em' ev HI; [done|]. simpl.
  destruct (e_map em !! topic) as [s|]; [|by intros [= <- _]].
  case_decide; [by intros [= <- _]|].
  destruct (deliver P (emit P fuel) _ e em) as [[em1 calls]|] eqn:E; [|done].
  simpl. intros [= <- _]. by eapply (deliver_keeps (emit P fuel)).
Qed.

End Preservation.

Lemma emit_inv P fuel topic e em em' ev :
  inv em → emit P fuel topic e em = Some (em', ev) → inv em'.
Proof.
  apply (emit_keeps P inv).
  - intros; by apply inv_on.
  - apply inv_once.
  - intros; by apply inv_off.
  - apply inv_unsubscribe.
  - apply inv_clear.
Qed.

Lemma step_inv P em em' : step P em em' → inv em → inv em'.
Proof.
  destruct 1; intros Hinv.
  - by apply inv_on.
  - by apply inv_once.
  - by apply inv_off.
  - by apply inv_unsubscribe.
  - by apply inv_clear.
  - by eapply emit_inv.
Qed.

(** Every registry reached from [new Emitter()] satisfies the
    invariant. *)
Lemma reachable_inv P em : rtc (step P) new_Emitter em → inv em.
Proof.
  intros Hr.
  eapply (rtc_ind_r (λ em, inv em)); [apply inv_new| |exact Hr].
  intros y z _ Hstep IH. by eapply step_inv.
Qed.

(** *** A silenced listener is never called *)

Section Silence.

Variable P : nat → Val → list Cmd.
Variables k s f : nat.

Let l : Listener := LOnce k s f.

Section Inner.

Variable emitf : string → Val → Emitter → option (Emitter * Ev).
Hypothesis emitf_silent :
  ∀ t e em em' ev,
    silenced l em → emitf t e em = Some (em', ev) →
    count_calls l ev = 0 ∧ silenced l em'.

Lemma run_silent cs em em' tr threw :
  silenced l em → run emitf cs em = Some (em', tr, threw) →
  count_calls_in l tr = 0 ∧ silenced l em'.
Proof.
  revert em em' tr threw.
  induction cs as [|c cs IH]; intros em em' tr threw Hs; simpl.
  - by intros [= <- <- _].
  - destruct c.
    + apply IH. by apply silenced_on.
    + apply IH. by apply silenced_once.
    + apply IH. by apply silenced_off.
    + apply IH. by apply silenced_unsubscribe.
    + destruct (emitf topic e em) as [[em1 ev]|] eqn:E; [|done]. simpl.
      destruct (run emitf cs em1) as [[[em2 tr2] threw2]|] eqn:E2; [|done].
      simpl. intros [= <- <- _].
      destruct (emitf_silent _ _ _ _ _ Hs E) as [Hc Hs1].
      destruct (IH _ _ _ _ Hs1 E2) as [Hc2 Hs2].
      split; [simpl; lia|done].
    + apply IH. by apply silenced_clear.
    + by intros [= <- <- _].
Qed.

Lemma call_silent fn e em em' tr threw :
  silenced l em → fn ≠ l → call P emitf fn e em = Some (em', tr, threw) →
  count_calls_in l tr = 0 ∧ silenced l em'.
Proof.
  intros Hs Hne. destruct fn as [f'|k' s' f']; simpl.
  - by apply run_silent.
  - destruct (run emitf (P f' e) _) as [[[em2 tr2] threw2]|] eqn:E; [|done].
    simpl. intros [= <- <- _].
    apply run_silent in E as [Hc Hs2]; [|by apply silenced_unsubscribe].
    split; [|done]. simpl. rewrite count_calls_call, Hc.
    by rewrite decide_False.
Qed.

Lemma deliver_silent snapshot e em em' tr :
  silenced l em → l ∉ snapshot →
  deliver P emitf snapshot e em = Some (em', tr) →
  count_calls_in l tr = 0 ∧ silenced l em'.
Proof.
  revert em em' tr.
  induction snapshot as [|fn rest IH]; intros em em' tr Hs Hout; simpl.
  - by intros [= <- <-].
  - apply not_elem_of_cons in Hout as [Hne Hout].
    destruct (call P emitf fn e em) as [[[em1 inner] threw]|] eqn:E; [|done].
    simpl. destruct (deliver P emitf rest e em1) as [[em2 tr2]|] eqn:E2;
      [|done].
    simpl. intros [= <- <-].
    apply call_silent in E as [Hc Hs1]; [|done|done].
    destruct (IH _ _ _ Hs1 Hout E2) as [Hc2 Hs2].
    split; [|done]. simpl. rewrite count_calls_call, Hc.
    rewrite count_calls_in_app, Hc2.
    rewrite decide_False by done. by destruct threw.
Qed.

End Inner.

Lemma emit_silent fuel topic e em em' ev :
  silenced l em → emit P fuel topic e em = Some (em', ev) →
  count_calls l ev = 0 ∧ silenced l em'.
Proof.
  revert topic e em em' ev.
  induction fuel as [|fuel IH]; intros topic e em em' ev Hs; [done|].
  pose proof (silenced_listeners l em topic Hs) as Hout.
  unfold listeners in Hout. simpl.
  destruct (e_map em !! topic) as [i|]; [|by intros [= <- <-]].
  case_decide; [by intros [= <- <-]|].
  destruct (deliver P (emit P fuel) _ e em) as [[em1 calls]|] eqn:E; [|done].
  simpl. intros [= <- <-]. rewrite count_calls_emit.
  by eapply (deliver_silent (emit P fuel)).
Qed.

Lemma step_silent em em' : step P em em' → silenced l em → silenced l em'.
Proof.
  destruct 1; intros Hs.
  - by apply silenced_on.
  - by apply silenced_once.
  - by apply silenced_off.
  - by apply silenced_unsubscribe.
  - by apply silenced_clear.
  - by eapply emit_silent.
Qed.

Lemma rtc_step_silent em em' :
  rtc (step P) em em' → silenced l em → silenced l em'.
Proof. induction 1; eauto using step_silent. Qed.

End Silence.

(** ** Registration order *)

(** [on] puts a new function at the end of the topic's [Set]. *)
Lemma listeners_on topic fn em :
  inv em → listeners (on topic fn em).1 topic = set_add fn (listeners em topic).
Proof.
  intros (_ & _ & Hr). unfold on, listeners.
  destruct (e_map em !! topic) as [s|] eqn:Ht; simpl.
  - rewrite Ht, list_lookup_alter_eq.
    destruct (lookup_lt_is_Some_2 (sets em) s (Hr _ _ Ht)) as [set ->]. done.
  - rewrite lookup_insert_eq.
    by rewrite lookup_app_r, Nat.sub_diag by lia.
Qed.

(** ** Subscribing once *)

(** C3, as the code has it.  A [once] wrapper deletes itself from its
    [Set] before it runs the function, so nothing the function does,
    emitting on the same topic included, calls the wrapper again, and no
    emission that starts after this call does, whatever the clients do
    to the hub in between.  Nothing is said of an emission that was
    already under way and holds the wrapper in its snapshot. *)
Theorem once_wrapper_not_called_again P fuel k s f e em em1 tr threw :
  inv em → k < closures em →
  call P (emit P fuel) (LOnce k s f) e em = Some (em1, tr, threw) →
  (∃ body,
     tr = [EvCall (LFn f) e body threw] ∧
     run (emit P fuel) (P f e) (unsubscribe (Unsub s (LOnce k s f)) em)
       = Some (em1, body, threw)) ∧
  (∀ topic, LOnce k s f ∉
              listeners (unsubscribe (Unsub s (LOnce k s f)) em) topic) ∧
  count_calls_in (LOnce k s f) tr = 0 ∧
  (∀ em2, rtc (step P) em1 em2 →
     ∀ fuel' topic x em3 ev,
       emit P fuel' topic x em2 = Some (em3, ev) →
       count_calls (LOnce k s f) ev = 0).
Proof.
  intros Hinv Hk Hcall. simpl in Hcall.
  pose proof (inv_unsubscribe_silenced k s f em Hinv Hk) as Hs.
  destruct (run (emit P fuel) (P f e) _) as [[[em2 body] threw2]|] eqn:E;
    [|done].
  simpl in Hcall. injection Hcall as <- <- <-.
  destruct (run_silent k s f (emit P fuel)
              (emit_silent P k s f fuel) _ _ _ _ _ Hs E) as [Hc Hs2].
  split_and!.
  - by exists body.
  - intros topic. by apply silenced_listeners.
  - simpl. rewrite count_calls_call, Hc. by rewrite decide_False.
  - intros em3 Hreach fuel' topic x em4 ev Hemit.
    eapply emit_silent; [|done]. by eapply rtc_step_silent.
Qed.

Lemma inv_em_once_pair : inv Scenario.em_once_pair.
Proof. unfold Scenario.em_once_pair. apply inv_once, inv_once, inv_new. Qed.

(** The wrapper of function 0 is called; function 0 emits on T again,
    which reaches the wrapper of function 1 but not its own. *)
Lemma once_wrapper_not_called_again_witness :
  ∃ em1 tr threw,
    call Scenario.P_reentrant (emit Scenario.P_reentrant 2) (LOnce 0 0 0)
         (VNum 7) Scenario.em_once_pair = Some (em1, tr, threw) ∧
    count_calls_in (LOnce 0 0 0) tr = 0 ∧
    count_calls_in (LOnce 1 0 1) tr = 1.
Proof.
  destruct (call Scenario.P_reentrant (emit Scenario.P_reentrant 2)
              (LOnce 0 0 0) (VNum 7) Scenario.em_once_pair)
    as [[[em1 tr] threw]|] eqn:Hcall; [|vm_compute in Hcall; discriminate].
  exists em1, tr, threw. split; [done|].
  assert (0 < closures Scenario.em_once_pair) as Hk by (vm_compute; lia).
  destruct (once_wrapper_not_called_again Scenario.P_reentrant 2 0 0 0
              (VNum 7) Scenario.em_once_pair em1 tr threw
              inv_em_once_pair Hk Hcall) as (_ & _ & Hcount & _).
  split; [exact Hcount|].
  vm_compute in Hcall. injection Hcall as _ <- _. by vm_compute.
Defined.

(** C3 as stated fails: one emission on T, during which function 0
    emits on T again, calls the wrapper of function 1, and function 1
    through it, twice. *)
Lemma once_called_twice_by_overlapping_emissions :
  ∃ em' ev,
    emit Scenario.P_reentrant 3 "T" (VNum 7) Scenario.em_once_pair
      = Some (em', ev) ∧
    listeners Scenario.em_once_pair "T" = [LOnce 0 0 0; LOnce 1 0 1] ∧
    count_calls (LOnce 1 0 1) ev = 2 ∧
    count_calls (LFn 1) ev = 2.
Proof.
  destruct (emit Scenario.P_reentrant 3 "T" (VNum 7) Scenario.em_once_pair)
    as [[em' ev]|] eqn:Hemit; [|vm_compute in Hemit; discriminate].
  exists em', ev. split; [done|].
  vm_compute in Hemit. injection Hemit as _ <-. by vm_compute.
Qed.

(** ** The sender plumbing *)

Lemma bus_emit_spec P fuel topic e w w' tr c :
  bus_emit P fuel topic e w = Some (w', tr, c) →
  ∃ b' calls,
    w' = set_bus b' w ∧ tr = [EvEmit topic e calls] ∧ c = Returned tt.
Proof.
  unfold bus_emit. destruct w as [b p el pt ld q n].
  destruct topic; try (intros [= <- <- <-]; by eexists b, []).
  simpl. destruct (emit P fuel s e b) as [[b' ev]|] eqn:E; [|done].
  intros [= <- <- <-].
  apply emit_shape in E as (calls & -> & _). by exists b', calls.
Qed.

Lemma bus_emit_emit_free P fuel topic e w :
  (∀ f e, emit_free (P f e)) → is_Some (bus_emit P (S fuel) topic e w).
Proof.
  intros Hfree. unfold bus_emit. destruct topic; try by eexists.
  destruct (emit_emit_free P fuel s e (bus w) Hfree) as [[b' ev] ->].
  by eexists.
Qed.

Lemma setSender_spec P fuel fn w w' tr c :
  setSender P fuel fn w = Some (w', tr, c) →
  ∃ b' calls,
    w' = set_bus b' (set_post fn w) ∧
    tr = [EvEmit (VStr "bridge:sender")
            (VObj [("ready", VBool (bool_decide (is_Some fn)))]) calls] ∧
    c = Returned tt.
Proof.
  unfold setSender, bind, modify.
  destruct (bus_emit P fuel _ _ (set_post fn w)) as [[[w1 t1] c1]|] eqn:E;
    [|done].
  intros [= <- <- <-]. by apply bus_emit_spec in E.
Qed.

Lemma setSender_emit_free P fuel fn w :
  (∀ f e, emit_free (P f e)) → is_Some (setSender P (S fuel) fn w).
Proof.
  intros Hfree. unfold setSender, bind, modify.
  destruct (bus_emit_emit_free P fuel (VStr "bridge:sender")
              (VObj [("ready", VBool (bool_decide (is_Some fn)))])
              (set_post fn w) Hfree) as [[[w1 t1] c1] ->].
  by eexists.
Qed.

Lemma P_idle_emit_free f e : emit_free (Scenario.P_idle f e).
Proof. constructor. Qed.

(** C7, as the code has it.  With a sender installed [send] calls it
    with the data and returns true when the call returns; what the
    sender throws leaves [send], which has no [try] around the call.
    With none installed it returns false, unless [throwIfOffline] is set,
    and then it throws "bus: sender not ready".  So [send] returns true
    exactly when a sender is installed and its call returns.  [send]
    leaves the state as it is.  After [setSender(null)], whose listeners
    act on the hub only, there is no sender and [send] answers as with
    none installed; [setSender(null)] returns whatever the budget when
    no listener body starts an emission. *)
Theorem send_calls_installed_sender data options w :
  (_post w = Some SBridge →
   send data options w
   = Some (w, match port w with
              | Some p => [EvPortPost p data]
              | None => []
              end, Returned true)) ∧
  (∀ id body,
     _post w = Some (SFn id body) →
     send data options w
     = Some (w, [EvSend id data],
             match body data with
             | Some err => Thrown err
             | None => Returned true
             end)) ∧
  (_post w = None →
     send data options w =
       Some (w, [],
             if truthy (throwIfOffline options)
             then Thrown "bus: sender not ready"
             else Returned false)) ∧
  ((∃ w' tr, send data options w = Some (w', tr, Returned true)) ↔
   ∃ s, _post w = Some s ∧ (invoke_sender s data w).2 = Returned tt) ∧
  (∀ P,
     (∀ fuel w1 tr c,
        setSender P fuel None w = Some (w1, tr, c) →
        c = Returned tt ∧
        _post w1 = None ∧
        send data options w1 =
          Some (w1, [],
                if truthy (throwIfOffline options)
                then Thrown "bus: sender not ready"
                else Returned false)) ∧
     ((∀ f e, emit_free (P f e)) →
      ∀ fuel, is_Some (setSender P (S fuel) None w))).
Proof.
  unfold send. split_and!.
  - by intros ->.
  - intros id body ->. simpl. by destruct (body data).
  - intros ->. by destruct (truthy (throwIfOffline options)).
  - destruct (_post w) as [s|].
    + split.
      * intros (w' & tr & Hsend). exists s. split; [done|].
        destruct (invoke_sender s data w) as [tr0 [[]|err]]; done.
      * intros (s' & [= <-] & Hret).
        destruct (invoke_sender s data w) as [tr0 c]. simpl in Hret.
        subst c. by eexists _, _.
    + split; [|by intros (s & [=] & _)].
      intros (w' & tr & Hsend).
      by destruct (truthy (throwIfOffline options)).
  - intros P. split.
    + intros fuel w1 tr c (b' & calls & -> & -> & ->)%setSender_spec.
      simpl. split_and!; try done.
      by destruct (truthy (throwIfOffline options)).
    + intros Hfree fuel. by apply setSender_emit_free.
Qed.

(** A sender of a client that returns is called with the data and
    [send] returns true; after [setSender(null)], [send] returns false,
    and throws for a caller who passed [{throwIfOffline: true}]. *)
Lemma send_calls_installed_sender_witness :
  send (VNum 5) VUndef
       (set_post (Some (SFn 3 (λ _, None))) BridgeScenario.w_fresh)
    = Some (set_post (Some (SFn 3 (λ _, None))) BridgeScenario.w_fresh,
            [EvSend 3 (VNum 5)], Returned true) ∧
  (∃ w1 tr,
     setSender Scenario.P_idle 1 None
       (set_post (Some (SFn 3 (λ _, None))) BridgeScenario.w_fresh)
     = Some (w1, tr, Returned tt) ∧
     send (VNum 5) VUndef w1 = Some (w1, [], Returned false)) ∧
  send (VNum 5) VUndef BridgeScenario.w_fresh
    = Some (BridgeScenario.w_fresh, [], Returned false) ∧
  send (VNum 5) (VObj [("throwIfOffline", VBool true)]) BridgeScenario.w_fresh
    = Some (BridgeScenario.w_fresh, [], Thrown "bus: sender not ready").
Proof.
  split_and!.
  - apply (proj1 (proj2 (send_calls_installed_sender (VNum 5) VUndef
                   (set_post (Some (SFn 3 (λ _, None)))
                             BridgeScenario.w_fresh)))
                 3 (λ _, None)).
    reflexivity.
  - destruct (proj2 (proj2 (proj2 (proj2
                (send_calls_installed_sender (VNum 5) VUndef
                   (set_post (Some (SFn 3 (λ _, None)))
                             BridgeScenario.w_fresh)))))
                Scenario.P_idle) as [Hspec Hret].
    destruct (Hret P_idle_emit_free 0) as [[[w1 tr] c] Hset].
    destruct (Hspec _ _ _ _ Hset) as (-> & _ & Hsend).
    by exists w1, tr.
  - apply (proj1 (proj2 (proj2 (send_calls_installed_sender (VNum 5) VUndef
                                  BridgeScenario.w_fresh)))).
    reflexivity.
  - apply (proj1 (proj2 (proj2 (send_calls_installed_sender (VNum 5)
                                  (VObj [("throwIfOffline", VBool true)])
                                  BridgeScenario.w_fresh)))).
    reflexivity.
Defined.

(** C7 as stated fails: with a sender installed that throws, [send]
    calls it and does not return true; the error it throws is not "sender
    not ready" and the caller did not pass [throwIfOffline]. *)
Lemma send_with_throwing_sender :
  send (VNum 5) VUndef
       (set_post (Some (SFn 3 (λ _, Some "DataCloneError")))
                 BridgeScenario.w_fresh)
  = Some (set_post (Some (SFn 3 (λ _, Some "DataCloneError")))
                   BridgeScenario.w_fresh,
          [EvSend 3 (VNum 5)], Thrown "DataCloneError").
Proof. reflexivity. Qed.

(** ** The bridge controller *)

Arguments bus_emit : simpl never.
Arguments setSender : simpl never.

Section BridgeFacts.

Variable P : nat → Val → list Cmd.

(** [disconnect] clears the sender, closes and forgets the port, and
    emits the two notifications, whatever state it starts from. *)
Lemma disconnect_spec fuel w w' tr c :
  Bridge.disconnect P fuel w = Some (w', tr, c) →
  ∃ b' calls1 calls2,
    w' = set_bus b' (set_port None (set_post None w)) ∧
    tr = EvEmit (VStr "bridge:sender") (VObj [("ready", VBool false)]) calls1
           :: match port w with
              | Some p => [EvPortClose p]
              | None => []
              end
           ++ [EvEmit (VStr "bridge:close") VUndef calls2] ∧
    c = Returned tt.
Proof.
  unfold Bridge.disconnect. unfold bind at 1.
  destruct (setSender P fuel None w) as [[[w1 t1] c1]|] eqn:E1; [|done].
  apply setSender_spec in E1 as (b1 & calls1 & -> & -> & ->).
  unfold Bridge.close_port, try_catch, bind, gets, tell, ret, modify.
  destruct w as [b p el pt ld q n]. simpl.
  destruct pt as [pt|]; simpl.
  - destruct (bus_emit P fuel _ _ _) as [[[w2 t2] c2]|] eqn:E2; [|done].
    apply bus_emit_spec in E2 as (b2 & calls2 & -> & -> & ->).
    intros [= <- <- <-]. by exists b2, calls1, calls2.
  - destruct (bus_emit P fuel _ _ _) as [[[w2 t2] c2]|] eqn:E2; [|done].
    apply bus_emit_spec in E2 as (b2 & calls2 & -> & -> & ->).
    intros [= <- <- <-]. by exists b2, calls1, calls2.
Qed.

Lemma disconnect_emit_free fuel w :
  (∀ f e, emit_free (P f e)) → is_Some (Bridge.disconnect P (S fuel) w).
Proof.
  intros Hfree. unfold Bridge.disconnect. unfold bind at 1.
  destruct (setSender_emit_free P fuel None w Hfree) as [[[w1 t1] c1] E1].
  rewrite E1.
  apply setSender_spec in E1 as (b1 & calls1 & -> & -> & ->).
  unfold Bridge.close_port, try_catch, bind, gets, tell, ret, modify.
  destruct (port _) as [pt|]; simpl.
  - destruct (bus_emit_emit_free P fuel (VStr "bridge:close") VUndef
                (set_port None (set_bus b1 (set_post None w))) Hfree)
      as [[[w2 t2] c2] ->].
    destruct c2; by eexists.
  - destruct (bus_emit_emit_free P fuel (VStr "bridge:close") VUndef
                (set_port None (set_bus b1 (set_post None w))) Hfree)
      as [[[w2 t2] c2] ->].
    destruct c2; by eexists.
Qed.

Lemma destroy_spec fuel w w' tr c :
  Bridge.destroy P fuel w = Some (w', tr, c) →
  ∃ b' calls1 calls2,
    w' = set_iframeEl None (set_bus b' (set_port None (set_post None w))) ∧
    tr = (EvEmit (VStr "bridge:sender") (VObj [("ready", VBool false)]) calls1
            :: match port w with
               | Some p => [EvPortClose p]
               | None => []
               end
            ++ [EvEmit (VStr "bridge:close") VUndef calls2])
         ++ match iframeEl w with
            | Some el =>
                EvDom "removeEventListener"
                  :: (if el_attached el then [EvDom "removeChild"] else [])
            | None => []
            end ∧
    c = Returned tt.
Proof.
  unfold Bridge.destroy. unfold bind at 1.
  destruct (Bridge.disconnect P fuel w) as [[[w1 t1] c1]|] eqn:E1; [|done].
  apply disconnect_spec in E1 as (b1 & calls1 & calls2 & -> & -> & ->).
  unfold bind, gets, tell, ret, modify.
  destruct w as [b p el pt ld q n]. simpl.
  destruct el as [el|]; simpl.
  - destruct (el_attached el); simpl; intros [= <- <- <-];
      exists b1, calls1, calls2; by rewrite ?app_nil_r.
  - intros [= <- <- <-]. exists b1, calls1, calls2. by rewrite ?app_nil_r.
Qed.

Lemma destroy_emit_free fuel w :
  (∀ f e, emit_free (P f e)) → is_Some (Bridge.destroy P (S fuel) w).
Proof.
  intros Hfree. unfold Bridge.destroy. unfold bind at 1.
  destruct (disconnect_emit_free fuel w Hfree) as [[[w1 t1] c1] E1].
  rewrite E1.
  apply disconnect_spec in E1 as (b1 & calls1 & calls2 & -> & -> & ->).
  unfold bind, gets, tell, ret, modify. simpl.
  destruct (iframeEl w) as [el|]; simpl; [|by eexists].
  destruct (el_attached el); by eexists.
Qed.

End BridgeFacts.

Section ConnectFacts.

Variable P : nat → Val → list Cmd.
Variable host : Host.
Variable options : BridgeOptions.

(** [connect] on a loaded frame: the steps it goes through, whether or
    not the handshake post throws. *)
Lemma connect_spec fuel w el origin w' tr c :
  iframeEl w = Some el → loaded w = true →
  Bridge.resolve_origin host options w = Some (w, [], Returned origin) →
  Bridge.connect P fuel host options w = Some (w', tr, c) →
  ∃ b' calls1 calls2,
    w' = mkWorld b' (Some SBridge) (iframeEl w) (Some (channels w))
                 (loaded w) (microtasks w) (S (channels w)) ∧
    tr = match port w with
         | Some p => [EvPortClose p]
         | None => []
         end
         ++ EvPortStart (channels w)
         :: handshake_trace host el origin (channels w)
         ++ [EvEmit (VStr "bridge:sender") (VObj [("ready", VBool true)])
               calls1;
             EvEmit (VStr "bridge:open") (VObj [("origin", origin)]) calls2] ∧
    c = Returned tt.
Proof.
  intros Hel Hld Horigin. unfold Bridge.connect.
  unfold bind at 1. unfold gets at 1. unfold bind at 1. unfold gets at 1.
  rewrite Hel, Hld. simpl. unfold bind at 1. rewrite Horigin.
  unfold Bridge.close_port.
  assert (∀ w0 : World,
    try_catch
      match contentWindow el with
      | Some win =>
          if postMessage_throws host origin then throw "postMessage"
          else tell [EvWinPost win (VObj [("type", VStr "connect")]) origin
                       (channels w)]
      | None => ret tt
      end (λ _, tell [EvError "bridge handshake failed"]) w0
    = Some (w0, handshake_trace host el origin (channels w), Returned tt))
    as Hpost.
  { intros w0. unfold handshake_trace, try_catch, throw, tell, ret.
    destruct (contentWindow el); [|done].
    by destruct (postMessage_throws host origin). }
  unfold handshake_trace in *.
  destruct w as [b p el0 pt ld q n]. simpl in *. subst el0 ld.
  destruct pt as [pt|];
    unfold bind, try_catch, gets, tell, ret, modify in *; simpl;
    rewrite Hpost;
    (destruct (setSender P fuel (Some SBridge) _) as [[[w1 t1] c1]|] eqn:E1;
       [|done]);
    apply setSender_spec in E1 as (b1 & calls1 & -> & -> & ->); simpl;
    (destruct (bus_emit P fuel _ _ _) as [[[w2 t2] c2]|] eqn:E2; [|done]);
    apply bus_emit_spec in E2 as (b2 & calls2 & -> & -> & ->);
    intros [= <- <- <-]; exists b2, calls1, calls2;
    (split_and!; [done| |done]);
    simpl; by rewrite <- ?app_assoc.
Qed.

Lemma connect_emit_free fuel w el origin :
  (∀ f e, emit_free (P f e)) →
  iframeEl w = Some el → loaded w = true →
  Bridge.resolve_origin host options w = Some (w, [], Returned origin) →
  is_Some (Bridge.connect P (S fuel) host options w).
Proof.
  intros Hfree Hel Hld Horigin. unfold Bridge.connect.
  unfold bind at 1. unfold gets at 1. unfold bind at 1. unfold gets at 1.
  rewrite Hel, Hld. simpl. unfold bind at 1. rewrite Horigin.
  unfold Bridge.close_port.
  destruct w as [b p el0 pt ld q n]. simpl in *.
  destruct pt as [pt|], (contentWindow el) as [win|],
    (postMessage_throws host origin);
    unfold bind, try_catch, gets, tell, ret, modify, throw; simpl;
    match goal with
    | |- context [setSender P (S fuel) ?fn ?w0] =>
        destruct (setSender_emit_free P fuel fn w0 Hfree) as [[[w1 t1] c1] E1];
        rewrite E1;
        apply setSender_spec in E1 as (b1 & calls1 & -> & -> & ->)
    end;
    match goal with
    | |- context [bus_emit P (S fuel) ?t ?e ?w0] =>
        destruct (bus_emit_emit_free P fuel t e w0 Hfree)
          as [[[w2 t2] c2] ->]
    end;
    by eexists.
Qed.

End ConnectFacts.

(** C1, as the code has it.  When the handshake post throws, [connect]
    catches and logs the error and then carries on as after a post that
    went through: it installs the bridge's sender, so [isReady()] is
    true, and emits "bridge:sender" and "bridge:open".  Nothing is posted
    to the frame.  With listener bodies that start no emission,
    [connect] returns whatever the budget. *)
Theorem connect_survives_failed_handshake P host options w el win origin :
  iframeEl w = Some el → loaded w = true → contentWindow el = Some win →
  Bridge.resolve_origin host options w = Some (w, [], Returned origin) →
  postMessage_throws host origin = true →
  (∀ fuel w' tr c,
     Bridge.connect P fuel host options w = Some (w', tr, c) →
     c = Returned tt ∧
     EvError "bridge handshake failed" ∈ tr ∧
     posts tr = [] ∧
     emissions tr =
       [(VStr "bridge:sender", VObj [("ready", VBool true)]);
        (VStr "bridge:open", VObj [("origin", origin)])] ∧
     _post w' = Some SBridge ∧
     isReady w' = true) ∧
  ((∀ f e, emit_free (P f e)) →
   ∀ fuel, is_Some (Bridge.connect P (S fuel) host options w)).
Proof.
  intros Hel Hld Hwin Horigin Hthrows. split.
  - intros fuel w' tr c Hconnect.
    destruct (connect_spec P host options fuel w el origin w' tr c
                Hel Hld Horigin Hconnect)
      as (b' & calls1 & calls2 & -> & -> & ->).
    unfold handshake_trace. rewrite Hwin, Hthrows.
    split_and!; [done| |by destruct (port w)|by destruct (port w)|done|done].
    apply elem_of_app. right. apply list_elem_of_further, list_elem_of_here.
  - intros Hfree fuel. by eapply connect_emit_free.
Qed.

(** The frame has loaded, the bridge targets a.test, and the post to the
    frame throws. *)
Lemma connect_survives_failed_handshake_witness :
  ∃ w' tr,
    Bridge.connect Scenario.P_idle 1 BridgeScenario.host_failing
      BridgeScenario.options
      (mkWorld new_Emitter None
         (Some (mkIframe "https://example.test/frame.html" "bus-bridge"
                         "none" true true (Some 7)))
         None true [] 0)
      = Some (w', tr, Returned tt) ∧
    EvError "bridge handshake failed" ∈ tr ∧
    isReady w' = true.
Proof.
  set (w := mkWorld new_Emitter None
         (Some (mkIframe "https://example.test/frame.html" "bus-bridge"
                         "none" true true (Some 7)))
         None true [] 0).
  destruct (connect_survives_failed_handshake Scenario.P_idle
              BridgeScenario.host_failing BridgeScenario.options w
              (mkIframe "https://example.test/frame.html" "bus-bridge"
                        "none" true true (Some 7))
              7 (VStr "https://a.test")
              eq_refl eq_refl eq_refl eq_refl eq_refl) as [Hspec Hret].
  destruct (Hret P_idle_emit_free 0) as [[[w' tr] c] Hconnect].
  destruct (Hspec _ _ _ _ Hconnect) as (-> & Hlog & _ & _ & _ & Hready).
  by exists w', tr.
Defined.

(** C1 as stated fails: mount, let the frame load, and have the
    handshake post throw; the error is logged, and the sender is
    installed all the same. *)
Lemma failed_handshake_installs_sender :
  ∃ w' tr,
    (Bridge.mount BridgeScenario.host_failing BridgeScenario.options ;;
     Bridge.fire_load Scenario.P_idle 1 BridgeScenario.host_failing
       BridgeScenario.options) BridgeScenario.w_fresh
      = Some (w', tr, Returned tt) ∧
    tr = [EvPortStart 0;
          EvError "bridge handshake failed";
          EvEmit (VStr "bridge:sender") (VObj [("ready", VBool true)]) [];
          EvEmit (VStr "bridge:open")
                 (VObj [("origin", VStr "https://a.test")]) []] ∧
    _post w' = Some SBridge ∧
    isReady w' = true.
Proof.
  eexists _, _. split; [vm_compute; reflexivity|].
  split_and!; vm_compute; reflexivity.
Qed.

(** C4, as the code has it.  A second [destroy()] completes without an
    error and changes nothing but what its listeners do to the registry:
    the element, the port and the sender stay cleared.  It runs
    [disconnect] again, so it emits "bridge:sender" and "bridge:close"
    once more, and touches neither a port nor the document.  With
    listener bodies that start no emission, it returns whatever the
    budget. *)
Theorem destroy_again P fuel w w1 t1 c1 :
  Bridge.destroy P fuel w = Some (w1, t1, c1) →
  (∀ fuel' w2 t2 c2,
     Bridge.destroy P fuel' w1 = Some (w2, t2, c2) →
     c2 = Returned tt ∧
     (∃ calls1 calls2,
        t2 = [EvEmit (VStr "bridge:sender") (VObj [("ready", VBool false)])
                calls1;
              EvEmit (VStr "bridge:close") VUndef calls2]) ∧
     set_bus (bus w1) w2 = w1 ∧
     iframeEl w2 = None ∧ port w2 = None ∧ isReady w2 = false) ∧
  ((∀ f e, emit_free (P f e)) →
   ∀ fuel', is_Some (Bridge.destroy P (S fuel') w1)).
Proof.
  intros (b1 & calls1 & calls2 & -> & _ & _)%destroy_spec.
  split; [|intros Hfree fuel'; by apply destroy_emit_free].
  intros fuel' w2 t2 c2
    (b2 & calls3 & calls4 & -> & -> & ->)%destroy_spec.
  destruct w as [b p el pt ld q n]. simpl.
  split_and!; try done. by exists calls3, calls4.
Qed.

(** Mount, load, destroy, destroy. *)
Lemma destroy_again_witness :
  ∃ w1 t1 w2 t2,
    (Bridge.mount BridgeScenario.host_ok BridgeScenario.options ;;
     Bridge.fire_load Scenario.P_idle 1 BridgeScenario.host_ok
       BridgeScenario.options ;;
     Bridge.destroy Scenario.P_idle 1) BridgeScenario.w_fresh
      = Some (w1, t1, Returned tt) ∧
    Bridge.destroy Scenario.P_idle 1 w1 = Some (w2, t2, Returned tt) ∧
    set_bus (bus w1) w2 = w1.
Proof.
  destruct ((Bridge.mount BridgeScenario.host_ok BridgeScenario.options ;;
             Bridge.fire_load Scenario.P_idle 1 BridgeScenario.host_ok
               BridgeScenario.options) BridgeScenario.w_fresh)
    as [[[w0 t0] c0]|] eqn:Hstart; [|vm_compute in Hstart; discriminate].
  assert (c0 = Returned tt) as ->.
  { vm_compute in Hstart. by injection Hstart as _ _ <-. }
  destruct (destroy_emit_free Scenario.P_idle 0 w0 P_idle_emit_free)
    as [[[w1 t1] c1] Hfirst].
  destruct (destroy_again Scenario.P_idle 1 w0 w1 t1 c1 Hfirst)
    as [Hspec Hret].
  destruct (Hret P_idle_emit_free 0) as [[[w2 t2] c2] Hsecond].
  destruct (Hspec _ _ _ _ Hsecond) as (-> & _ & Hsame & _).
  assert (c1 = Returned tt) as ->.
  { by apply destroy_spec in Hfirst as (? & ? & ? & _ & _ & ->). }
  exists w1, (t0 ++ t1), w2, t2. split_and!; [|done|done].
  unfold bind at 1. unfold bind in Hstart.
  destruct (Bridge.mount _ _ _) as [[[wm tm] cm]|]; [|done].
  destruct cm; [|done].
  unfold bind at 1.
  destruct (Bridge.fire_load _ _ _ _ wm) as [[[wl tl] cl]|]; [|done].
  injection Hstart as -> <- ->.
  rewrite Hfirst. by rewrite app_assoc.
Defined.

(** C4 as stated fails: the second [destroy()] emits "bridge:close"
    again. *)
Lemma destroy_twice_emits_close_again :
  ∃ w1 t1 w2 t2,
    (Bridge.mount BridgeScenario.host_ok BridgeScenario.options ;;
     Bridge.fire_load Scenario.P_idle 1 BridgeScenario.host_ok
       BridgeScenario.options ;;
     Bridge.destroy Scenario.P_idle 1) BridgeScenario.w_fresh
      = Some (w1, t1, Returned tt) ∧
    Bridge.destroy Scenario.P_idle 1 w1 = Some (w2, t2, Returned tt) ∧
    t2 = [EvEmit (VStr "bridge:sender") (VObj [("ready", VBool false)]) [];
          EvEmit (VStr "bridge:close") VUndef []].
Proof.
  eexists _, _, _, _. split; [vm_compute; reflexivity|].
  split; [vm_compute; reflexivity|]. reflexivity.
Qed.

(** *** Updating the bridge *)

(** [newOrigin] is computed and never read: [update] does the same for
    every [targetOrigin] it is given. *)
Lemma update_ignores_targetOrigin P fuel options now s o1 o2 :
  Bridge.update P fuel options now (mkNext s o1)
  = Bridge.update P fuel options now (mkNext s o2).
Proof. unfold Bridge.update. simpl. by destruct o1, o2. Qed.

(** With the [src] the bridge was mounted with, or with none, [update]
    leaves the frame element and the loaded flag alone and queues the
    reconnect. *)
Lemma update_same_src P fuel options now next w w' tr c :
  n_src next = VStr (src options) ∨ n_src next = VUndef →
  Bridge.update P fuel options now next w = Some (w', tr, c) →
  iframeEl w' = iframeEl w ∧ loaded w' = loaded w ∧
  microtasks w' = microtasks w ++ [TConnect].
Proof.
  intros Hsrc. unfold Bridge.update.
  assert (match n_src next with
          | VStr s => bool_decide (s ≠ src options)
          | _ => false
          end = false) as ->.
  { destruct Hsrc as [-> | ->]; [|done].
    apply bool_decide_eq_false_2. intros Hne. by apply Hne. }
  unfold bind at 1.
  destruct (Bridge.disconnect P fuel w) as [[[w1 t1] c1]|] eqn:E1; [|done].
  apply disconnect_spec in E1 as (b1 & calls1 & calls2 & -> & -> & ->).
  unfold bind, gets, ret, modify. simpl. by intros [= <- _ _].
Qed.

(** The cache-busting assignment sits under [needsSrcChange], which
    excludes the equality it tests: after [update] the frame source is
    the old one or [next.src], never one with "_ts=" appended. *)
Lemma update_never_busts_cache P fuel options now next w w' tr c el el' :
  Bridge.update P fuel options now next w = Some (w', tr, c) →
  iframeEl w = Some el → iframeEl w' = Some el' →
  el_src el' = el_src el ∨ n_src next = VStr (el_src el').
Proof.
  unfold Bridge.update. unfold bind at 1.
  destruct (Bridge.disconnect P fuel w) as [[[w1 t1] c1]|] eqn:E1; [|done].
  apply disconnect_spec in E1 as (b1 & calls1 & calls2 & -> & -> & ->).
  destruct w as [b p el0 pt ld q n]. simpl.
  intros Hupd ->. revert Hupd.
  destruct (n_src next) as [| |? |? | |s|?];
    unfold bind, gets, ret, modify, Bridge.assign_src; simpl;
    try (intros [= <- _ _] [= <-]; by left).
  destruct (decide (s = src options)) as [->|Hne].
  - rewrite (bool_decide_eq_false_2 (src options ≠ src options))
      by (intros Hne; by apply Hne).
    simpl. intros [= <- _ _] [= <-]. by left.
  - rewrite (bool_decide_eq_true_2 (s ≠ src options)) by done.
    rewrite (bool_decide_eq_false_2 (s = src options)) by done.
    simpl. intros [= <- _ _] [= <-]. by right.
Qed.

(** C5 fails on the code.  The bridge is mounted with target origin
    a.test and has connected; [update({targetOrigin: "https://b.test"})]
    followed by the microtask checkpoint reconnects with a.test: the
    post to the frame is scoped to a.test and "bridge:open" carries
    a.test. *)
Theorem update_targetOrigin_reconnects_with_old_origin :
  ∃ w1 t1 w2 t2,
    (Bridge.mount BridgeScenario.host_ok BridgeScenario.options ;;
     Bridge.fire_load Scenario.P_idle 1 BridgeScenario.host_ok
       BridgeScenario.options) BridgeScenario.w_fresh
      = Some (w1, t1, Returned tt) ∧
    (Bridge.update Scenario.P_idle 1 BridgeScenario.options "1700"
       (mkNext VUndef (VStr "https://b.test")) ;;
     Bridge.run_microtasks Scenario.P_idle 1 BridgeScenario.host_ok
       BridgeScenario.options) w1
      = Some (w2, t2, Returned tt) ∧
    t2 = [EvEmit (VStr "bridge:sender") (VObj [("ready", VBool false)]) [];
          EvPortClose 0;
          EvEmit (VStr "bridge:close") VUndef [];
          EvPortStart 1;
          EvWinPost 7 (VObj [("type", VStr "connect")])
                    (VStr "https://a.test") 1;
          EvEmit (VStr "bridge:sender") (VObj [("ready", VBool true)]) [];
          EvEmit (VStr "bridge:open")
                 (VObj [("origin", VStr "https://a.test")]) []].
Proof.
  eexists _, _, _, _. split; [vm_compute; reflexivity|].
  split; [vm_compute; reflexivity|]. reflexivity.
Qed.

(** C6 fails on the code.  The frame has loaded;
    [update({src})] with the [src] the frame already has leaves the
    frame source as it was, without a "_ts=" parameter, leaves the loaded
    flag set, and queues the reconnect instead of waiting for a load
    event. *)
Theorem update_same_src_does_not_reload :
  ∃ w1 t1 w2 t2,
    (Bridge.mount BridgeScenario.host_ok BridgeScenario.options ;;
     Bridge.fire_load Scenario.P_idle 1 BridgeScenario.host_ok
       BridgeScenario.options) BridgeScenario.w_fresh
      = Some (w1, t1, Returned tt) ∧
    Bridge.update Scenario.P_idle 1 BridgeScenario.options "1700"
      (mkNext (VStr "https://example.test/frame.html") VUndef) w1
      = Some (w2, t2, Returned tt) ∧
    iframeEl w2 =
      Some (mkIframe "https://example.test/frame.html" "bus-bridge" "none"
                     true true (Some 7)) ∧
    loaded w2 = true ∧
    microtasks w2 = [TConnect].
Proof.
  eexists _, _, _, _. split; [vm_compute; reflexivity|].
  split; [vm_compute; reflexivity|].
  split_and!; reflexivity.
Qed.

(** *** Inbound messages *)



(** ** The channel transport *)

(** C9, as the code has it.  A window message whose payload is an
    object with [type] "init", from whatever origin, that arrives with a
    source window while the transport is not connected, makes it create a
    channel, keep [port1], and post the string "init" with [port2] to
    that window. *)
Theorem windowReceive_init_handshake ev t win :
  get_prop (Transport.data ev) "type" = Some (VStr "init") →
  Transport.source ev = Some win →
  Transport.connected t = false →
  Transport.windowReceive ev t =
    (Transport.mkState (Some (Transport.allocated t))
                       (Some (Transport.allocated t)) true
                       (S (Transport.allocated t)),
     [EvLog "[BWO] Received window data";
      EvLog "[BWO] Connecting channel to iframe as window data";
      EvWinPost win (VStr "init") (VStr "*") (Transport.allocated t)],
     Returned tt).
Proof.
  intros Htype Hsrc Hconn. unfold Transport.windowReceive, Transport.connect.
  by rewrite Htype, Hsrc, Hconn.
Qed.

Lemma windowReceive_init_handshake_witness :
  Transport.windowReceive
    (Transport.mkEvent (VObj [("type", VStr "init")]) (Some 3)
                       "https://frame.test")
    Transport.initial
  = (Transport.mkState (Some 0) (Some 0) true 1,
     [EvLog "[BWO] Received window data";
      EvLog "[BWO] Connecting channel to iframe as window data";
      EvWinPost 3 (VStr "init") (VStr "*") 0],
     Returned tt).
Proof.
  apply (windowReceive_init_handshake
           (Transport.mkEvent (VObj [("type", VStr "init")]) (Some 3)
                              "https://frame.test")
           Transport.initial 3); reflexivity.
Defined.

(** C9 as stated fails: a message whose payload is the string "init"
    is logged and nothing else happens. *)
Lemma windowReceive_string_init_ignored :
  Transport.windowReceive
    (Transport.mkEvent (VStr "init") (Some 3) "https://frame.test")
    Transport.initial
  = (Transport.initial, [EvLog "[BWO] Received window data"], Returned tt).
Proof. reflexivity. Qed.

(** ** The registry, operation by operation *)

Lemma wf_inv em : wf em → inv em.
Proof. by intros [? _]. Qed.

Lemma wf_new : wf new_Emitter.
Proof. split; [apply inv_new|]. intros t1 t2 s Ht. done. Qed.

Lemma wf_on topic fn em :
  wf em →
  match fn with
  | LFn _ => True
  | LOnce k s _ =>
      k < closures em ∧
      s = match e_map em !! topic with
          | Some s => s
          | None => length (sets em)
          end
  end →
  wf (on topic fn em).1.
Proof.
  intros [Hinv Hinj] Hfn. split; [by apply inv_on|].
  destruct Hinv as (_ & _ & Hr). unfold on.
  destruct (e_map em !! topic) as [s|] eqn:Ht; simpl; [done|].
  intros t1 t2 s Ht1 Ht2.
  destruct (decide (topic = t1)) as [Heq1|Hne1], (decide (topic = t2))
    as [Heq2|Hne2]; [congruence| | |].
  - subst t1. rewrite lookup_insert_eq in Ht1.
    rewrite lookup_insert_ne in Ht2 by done.
    injection Ht1 as <-. apply Hr in Ht2. lia.
  - subst t2. rewrite lookup_insert_eq in Ht2.
    rewrite lookup_insert_ne in Ht1 by done.
    injection Ht2 as <-. apply Hr in Ht1. lia.
  - rewrite lookup_insert_ne in Ht1, Ht2 by done. eauto.
Qed.

Lemma wf_once topic f em : wf em → wf (once topic f em).1.
Proof.
  intros [Hinv Hinj]. unfold once. apply wf_on.
  - split; [by apply inv_closures|done].
  - simpl. split; [lia|done].
Qed.

Lemma wf_off topic fn em : wf em → wf (off topic fn em).
Proof.
  intros [Hinv Hinj]. split; [by apply inv_off|].
  unfold off. by destruct (e_map em !! topic).
Qed.

Lemma wf_unsubscribe u em : wf em → wf (unsubscribe u em).
Proof. intros [Hinv Hinj]. split; [by apply inv_unsubscribe|done]. Qed.

Lemma wf_clear topic em : wf em → wf (clear topic em).
Proof.
  intros [Hinv Hinj]. split; [by apply inv_clear|].
  unfold clear.
  destruct topic as [t|]; [destruct (truthy (VStr t))|]; simpl; try done.
  intros t1 t2 s [_ Ht1]%lookup_delete_Some [_ Ht2]%lookup_delete_Some.
  eauto.
Qed.

Lemma emit_wf P fuel topic e em em' ev :
  wf em → emit P fuel topic e em = Some (em', ev) → wf em'.
Proof.
  apply (emit_keeps P wf).
  - intros; by apply wf_on.
  - apply wf_once.
  - intros; by apply wf_off.
  - apply wf_unsubscribe.
  - apply wf_clear.
Qed.

Lemma step_wf P em em' : step P em em' → wf em → wf em'.
Proof.
  destruct 1; intros Hwf.
  - by apply wf_on.
  - by apply wf_once.
  - by apply wf_off.
  - by apply wf_unsubscribe.
  - by apply wf_clear.
  - by eapply emit_wf.
Qed.

(** X1.  Whatever the clients do to a fresh hub (subscribe, subscribe
    once, unsubscribe, clear, emit, in any order and nesting), no [Set]
    holds a function twice, every topic has a [Set] of its own, and a
    wrapper of [once] sits only in the [Set] its [off] refers to. *)
Theorem reachable_wf P em : rtc (step P) new_Emitter em → wf em.
Proof.
  intros Hr.
  eapply (rtc_ind_r (λ em, wf em)); [apply wf_new| |exact Hr].
  intros y z _ Hstep IH. by eapply step_wf.
Qed.

Lemma reachable_wf_witness :
  wf (once "T" 1 (on "T" (LFn 0) new_Emitter).1).1.
Proof.
  apply (reachable_wf Scenario.P_idle).
  eapply rtc_l; [apply (step_on _ "T" 0)|].
  eapply rtc_l; [apply (step_once _ "T" 1)|]. done.
Defined.

(** *** Reading the listeners after an operation *)

Lemma listeners_on_other topic fn t em :
  wf em → t ≠ topic → listeners (on topic fn em).1 t = listeners em t.
Proof.
  intros [(_ & _ & Hr) Hinj] Hne. unfold on, listeners.
  destruct (e_map em !! topic) as [s|] eqn:Ht; simpl.
  - destruct (e_map em !! t) as [s'|] eqn:Ht'; [|done].
    rewrite list_lookup_alter_ne; [done|].
    intros ->. apply Hne. eauto.
  - rewrite lookup_insert_ne by done.
    destruct (e_map em !! t) as [s'|] eqn:Ht'; [|done].
    by rewrite lookup_app_l by eauto.
Qed.

Lemma on_handle topic fn em :
  ∃ s, (on topic fn em).2 = Unsub s fn ∧
       e_map (on topic fn em).1 !! topic = Some s.
Proof.
  unfold on. destruct (e_map em !! topic) as [s|] eqn:Ht; simpl.
  - by exists s.
  - exists (length (sets em)). by rewrite lookup_insert_eq.
Qed.

Lemma on_e_map_other topic fn t em :
  t ≠ topic → e_map (on topic fn em).1 !! t = e_map em !! t.
Proof.
  intros Hne. unfold on. destruct (e_map em !! topic); simpl; [done|].
  by rewrite lookup_insert_ne.
Qed.

Lemma listeners_delete fn s t em :
  wf em →
  listeners (mkEmitter (e_map em) (alter (set_delete fn) s (sets em))
                       (closures em)) t
  = if decide (e_map em !! t = Some s)
    then set_delete fn (listeners em t)
    else listeners em t.
Proof.
  intros [(_ & _ & Hr) Hinj]. unfold listeners. simpl.
  destruct (e_map em !! t) as [s'|] eqn:Ht.
  - case_decide as Hs.
    + injection Hs as ->. rewrite list_lookup_alter_eq.
      destruct (lookup_lt_is_Some_2 (sets em) s (Hr _ _ Ht)) as [set ->].
      done.
    + rewrite list_lookup_alter_ne; [done|]. congruence.
  - by case_decide.
Qed.

Lemma set_delete_not_in fn set : fn ∉ set → set_delete fn set = set.
Proof.
  intros Hout. unfold set_delete.
  induction set as [|x set IH]; [done|].
  apply not_elem_of_cons in Hout as [Hne Hout].
  rewrite filter_cons_True by done. by rewrite IH.
Qed.

Lemma set_delete_add fn set : fn ∉ set → set_delete fn (set_add fn set) = set.
Proof.
  intros Hout. rewrite set_add_new by done. unfold set_delete.
  rewrite filter_app. fold (set_delete fn set).
  rewrite set_delete_not_in by done.
  rewrite filter_cons_False, filter_nil by (intros H; by apply H).
  by rewrite app_nil_r.
Qed.

Lemma set_add_idemp fn set : set_add fn (set_add fn set) = set_add fn set.
Proof.
  apply set_add_old. apply elem_of_set_add. by right.
Qed.

Lemma set_delete_idemp fn set :
  set_delete fn (set_delete fn set) = set_delete fn set.
Proof.
  apply set_delete_not_in. by intros [_ ?]%elem_of_set_delete.
Qed.

(** X2.  Subscribing a function that is already subscribed to the topic
    changes nothing: the topic keeps its listeners in the same order, so
    the function is still called once per emission, at its old place. *)
Theorem on_twice_same topic f em :
  wf em →
  listeners (on topic (LFn f) (on topic (LFn f) em).1).1 topic
  = listeners (on topic (LFn f) em).1 topic ∧
  (LFn f ∈ listeners em topic →
   listeners (on topic (LFn f) em).1 topic = listeners em topic).
Proof.
  intros Hwf. pose proof (wf_inv _ Hwf) as Hinv. split.
  - rewrite (listeners_on topic (LFn f) (on topic (LFn f) em).1)
      by by apply inv_on.
    rewrite listeners_on by done. apply set_add_idemp.
  - intros Hin. rewrite listeners_on by done. by apply set_add_old.
Qed.

Lemma on_twice_same_witness :
  listeners (on "T" (LFn 0) (on "T" (LFn 0) Scenario.em_pair).1).1 "T"
  = [LFn 0; LFn 1].
Proof.
  assert (wf Scenario.em_pair) as Hwf.
  { unfold Scenario.em_pair.
    apply wf_on; [apply wf_on; [apply wf_new|done]|done]. }
  assert (listeners Scenario.em_pair "T" = [LFn 0; LFn 1]) as Hl
    by (by vm_compute).
  destruct (on_twice_same "T" 0 Scenario.em_pair Hwf) as [-> Hold].
  rewrite Hold; [done|]. rewrite Hl. apply list_elem_of_here.
Defined.

Lemma set_delete_set_add fn set :
  set_delete fn (set_add fn set) = set_delete fn set.
Proof.
  destruct (decide (fn ∈ set)) as [Hin|Hout].
  - by rewrite set_add_old.
  - by rewrite set_delete_add, set_delete_not_in.
Qed.

(** The listeners after [on] and a call of the closure it returned. *)
Lemma on_unsubscribe_listeners topic fn em t :
  wf em → wf (on topic fn em).1 →
  listeners (unsubscribe (on topic fn em).2 (on topic fn em).1) t
  = if decide (t = topic)
    then set_delete fn (listeners em topic)
    else listeners em t.
Proof.
  intros Hwf Hwf1.
  destruct (on_handle topic fn em) as (s & Hu & Hs). rewrite Hu.
  unfold unsubscribe. simpl. rewrite listeners_delete by done.
  destruct (decide (t = topic)) as [->|Hne].
  - rewrite decide_True by done.
    rewrite listeners_on by by apply wf_inv.
    apply set_delete_set_add.
  - rewrite decide_False.
    + by apply listeners_on_other.
    + intros Ht. apply Hne. destruct Hwf1 as [_ Hinj]. eauto.
Qed.

Lemma unsubscribe_idemp u em :
  unsubscribe u (unsubscribe u em) = unsubscribe u em.
Proof.
  unfold unsubscribe. simpl. f_equal.
  rewrite list_alter_alter_eq. apply list_alter_ext; [|done].
  intros set _. apply set_delete_idemp.
Qed.

(** X3.  The closure returned by [on] undoes the subscription: the
    function is gone from the topic, the other listeners of the topic
    keep their order, every other topic is untouched, and calling the
    closure again changes nothing.  For a function that was not
    subscribed before, the registry reads as it did before [on]. *)
Theorem on_then_unsubscribe topic f em :
  wf em →
  let em1 := (on topic (LFn f) em).1 in
  let u := (on topic (LFn f) em).2 in
  (∀ t, listeners (unsubscribe u em1) t
        = if decide (t = topic)
          then set_delete (LFn f) (listeners em topic)
          else listeners em t) ∧
  (LFn f ∉ listeners em topic →
   ∀ t, listeners (unsubscribe u em1) t = listeners em t) ∧
  unsubscribe u (unsubscribe u em1) = unsubscribe u em1.
Proof.
  intros Hwf em1 u. split_and!.
  - intros t. apply on_unsubscribe_listeners; [done|by apply wf_on].
  - intros Hout t. unfold u, em1.
    rewrite on_unsubscribe_listeners; [|done|by apply wf_on].
    case_decide as Ht; [|done]. subst t. by apply set_delete_not_in.
  - apply unsubscribe_idemp.
Qed.

Lemma wf_em_pair : wf Scenario.em_pair.
Proof.
  unfold Scenario.em_pair.
  apply wf_on; [apply wf_on; [apply wf_new|done]|done].
Qed.

Lemma on_then_unsubscribe_witness :
  listeners (unsubscribe (on "T" (LFn 2) Scenario.em_pair).2
                         (on "T" (LFn 2) Scenario.em_pair).1) "T"
  = [LFn 0; LFn 1].
Proof.
  destruct (on_then_unsubscribe "T" 2 Scenario.em_pair wf_em_pair)
    as (_ & Hback & _).
  assert (listeners Scenario.em_pair "T" = [LFn 0; LFn 1]) as Hl
    by (by vm_compute).
  rewrite Hback; [done|]. rewrite Hl.
  intros Hin. repeat (apply elem_of_cons in Hin as [[=]|Hin]).
  by apply elem_of_nil in Hin.
Defined.

(** X4.  [off(topic, fn)] removes the function from the topic and from
    no other; on a topic that has no [Set] it leaves the emitter as it
    is, and for a function that is not subscribed the listeners stay as
    they are. *)
Theorem off_listeners topic fn em :
  wf em →
  (∀ t, listeners (off topic fn em) t
        = if decide (t = topic)
          then set_delete fn (listeners em topic)
          else listeners em t) ∧
  (fn ∉ listeners (off topic fn em) topic) ∧
  (e_map em !! topic = None → off topic fn em = em) ∧
  (fn ∉ listeners em topic → ∀ t, listeners (off topic fn em) t = listeners em t).
Proof.
  intros Hwf.
  assert (∀ t, listeners (off topic fn em) t
               = if decide (t = topic)
                 then set_delete fn (listeners em topic)
                 else listeners em t) as Hoff.
  { intros t. unfold off.
    destruct (e_map em !! topic) as [s|] eqn:Ht.
    - rewrite listeners_delete by done.
      destruct (decide (t = topic)) as [->|Hne].
      + by rewrite decide_True.
      + rewrite decide_False; [done|].
        intros Ht'. apply Hne. destruct Hwf as [_ Hinj]. eauto.
    - case_decide as Heq; [|done]. subst t.
      unfold listeners. by rewrite Ht. }
  split_and!; [done| | |].
  - rewrite Hoff, decide_True by done. by intros [_ ?]%elem_of_set_delete.
  - intros Ht. unfold off. by rewrite Ht.
  - intros Hout t. rewrite Hoff. case_decide as Heq; [|done]. subst t.
    by apply set_delete_not_in.
Qed.

Lemma off_listeners_witness :
  listeners (off "T" (LFn 0) Scenario.em_pair) "T" = [LFn 1].
Proof.
  destruct (off_listeners "T" (LFn 0) Scenario.em_pair wf_em_pair)
    as (-> & _).
  by vm_compute.
Defined.

(** An emission on a topic without listeners returns at once. *)
Lemma emit_no_listeners P fuel topic e em :
  listeners em topic = [] →
  emit P (S fuel) topic e em = Some (em, EvEmit (VStr topic) e []).
Proof.
  unfold listeners. simpl. destruct (e_map em !! topic) as [s|]; [|done].
  by intros ->.
Qed.

Lemma clear_topic_empty topic em :
  topic ≠ "" → listeners (clear (Some topic) em) topic = [].
Proof.
  intros Hne. unfold clear, listeners.
  assert (truthy (VStr topic) = true) as ->.
  { simpl. destruct (String.eqb_spec topic ""); done. }
  simpl. by rewrite lookup_delete_eq.
Qed.

(** X5.  [clear(topic)] with a non-empty topic empties that topic and
    leaves the others; [clear()] and, because the test is [if (topic)],
    also [clear("")] empty every topic.  An emission on a cleared topic
    calls nobody and leaves the registry as it is. *)
Theorem clear_listeners topic em :
  (topic ≠ "" →
   listeners (clear (Some topic) em) topic = [] ∧
   (∀ t, t ≠ topic → listeners (clear (Some topic) em) t = listeners em t) ∧
   (∀ P fuel e,
      emit P (S fuel) topic e (clear (Some topic) em)
      = Some (clear (Some topic) em, EvEmit (VStr topic) e []))) ∧
  (∀ t, listeners (clear None em) t = []) ∧
  (∀ t, listeners (clear (Some "") em) t = []).
Proof.
  split_and!.
  - intros Hne.
    assert (truthy (VStr topic) = true) as Htruthy.
    { simpl. destruct (String.eqb_spec topic ""); done. }
    assert (listeners (clear (Some topic) em) topic = []) as Hempty.
    { unfold clear, listeners. rewrite Htruthy. simpl.
      by rewrite lookup_delete_eq. }
    split_and!; [done| |].
    + intros t Ht. unfold clear, listeners. rewrite Htruthy. simpl.
      by rewrite lookup_delete_ne.
    + intros P fuel e. by apply emit_no_listeners.
  - intros t. unfold clear, listeners. simpl. by rewrite lookup_empty.
  - intros t. unfold clear, listeners. simpl. by rewrite lookup_empty.
Qed.

Lemma clear_listeners_witness :
  listeners (clear (Some "T") (on "U" (LFn 5) Scenario.em_pair).1) "T" = [] ∧
  listeners (clear (Some "T") (on "U" (LFn 5) Scenario.em_pair).1) "U"
  = [LFn 5].
Proof.
  destruct (clear_listeners "T" (on "U" (LFn 5) Scenario.em_pair).1)
    as (Hone & _).
  destruct Hone as (-> & Hother & _); [done|].
  split; [done|]. rewrite Hother by done. by vm_compute.
Defined.

(** X6.  The closure returned by [on] holds the [Set] it was created
    with.  After [clear(topic)] and a new subscription of the same
    function, which gets a new [Set], the old closure no longer
    unsubscribes it. *)
Theorem stale_unsubscribe_after_clear topic f em :
  wf em → topic ≠ "" →
  let em1 := (on topic (LFn f) em).1 in
  let u := (on topic (LFn f) em).2 in
  let em3 := (on topic (LFn f) (clear (Some topic) em1)).1 in
  listeners em3 topic = [LFn f] ∧
  listeners (unsubscribe u em3) topic = [LFn f].
Proof.
  intros Hwf Hne em1 u em3.
  assert (wf em1) as Hwf1 by by apply wf_on.
  assert (wf (clear (Some topic) em1)) as Hwf2 by by apply wf_clear.
  assert (wf em3) as Hwf3 by by apply wf_on.
  pose proof (clear_topic_empty topic em1 Hne) as Hempty.
  assert (listeners em3 topic = [LFn f]) as Hl3.
  { unfold em3. rewrite listeners_on by by apply wf_inv.
    by rewrite Hempty. }
  split; [done|].
  destruct (on_handle topic (LFn f) em) as (s & Hu & Hs).
  fold u in Hu. fold em1 in Hs. rewrite Hu. unfold unsubscribe. simpl.
  rewrite listeners_delete by done.
  rewrite decide_False; [done|].
  assert (s < length (sets em1)) as Hlt.
  { destruct Hwf1 as [(_ & _ & Hr) _]. eauto. }
  assert (truthy (VStr topic) = true) as Htruthy.
  { simpl. destruct (String.eqb_spec topic ""); done. }
  unfold em3, on, clear. rewrite Htruthy. simpl.
  rewrite lookup_delete_eq. simpl. rewrite lookup_insert_eq.
  intros [= Heq]. lia.
Qed.

Lemma stale_unsubscribe_after_clear_witness :
  listeners
    (unsubscribe (on "T" (LFn 0) new_Emitter).2
       (on "T" (LFn 0) (clear (Some "T") (on "T" (LFn 0) new_Emitter).1)).1)
    "T"
  = [LFn 0].
Proof.
  apply (stale_unsubscribe_after_clear "T" 0 new_Emitter wf_new). done.
Defined.

(** *** Once-listeners and emissions *)

Section Consumed.

Variable P : nat → Val → list Cmd.
Variables k s f : nat.

(** The invariant together with the fact that wrapper [k] has been
    allocated is kept by every operation. *)
Lemma allocated_on t g em :
  inv em ∧ k < closures em →
  inv (on t (LFn g) em).1 ∧ k < closures (on t (LFn g) em).1.
Proof.
  intros [Hinv Hk]. split; [by apply inv_on|].
  unfold on. by destruct (e_map em !! t).
Qed.

Lemma allocated_once t g em :
  inv em ∧ k < closures em →
  inv (once t g em).1 ∧ k < closures (once t g em).1.
Proof.
  intros [Hinv Hk]. split; [by apply inv_once|].
  unfold once, on. simpl. destruct (e_map em !! t); simpl; lia.
Qed.

Lemma allocated_off t g em :
  inv em ∧ k < closures em →
  inv (off t (LFn g) em) ∧ k < closures (off t (LFn g) em).
Proof.
  intros [Hinv Hk]. split; [by apply inv_off|].
  unfold off. by destruct (e_map em !! t).
Qed.

Lemma allocated_unsubscribe u em :
  inv em ∧ k < closures em →
  inv (unsubscribe u em) ∧ k < closures (unsubscribe u em).
Proof. intros [Hinv Hk]. split; [by apply inv_unsubscribe|done]. Qed.

Lemma allocated_clear t em :
  inv em ∧ k < closures em →
  inv (clear t em) ∧ k < closures (clear t em).
Proof.
  intros [Hinv Hk]. split; [by apply inv_clear|].
  unfold clear. destruct t as [t|]; [destruct (truthy (VStr t))|]; done.
Qed.

Lemma allocated_emit fuel t e em em' ev :
  inv em ∧ k < closures em →
  emit P fuel t e em = Some (em', ev) →
  inv em' ∧ k < closures em'.
Proof.
  apply (emit_keeps P (λ em, inv em ∧ k < closures em));
    auto using allocated_on, allocated_once, allocated_off,
               allocated_unsubscribe, allocated_clear.
Qed.

Lemma allocated_call fuel fn e em em' tr threw :
  inv em ∧ k < closures em →
  call P (emit P fuel) fn e em = Some (em', tr, threw) →
  inv em' ∧ k < closures em'.
Proof.
  apply (call_keeps P (λ em, inv em ∧ k < closures em));
    auto using allocated_on, allocated_once, allocated_off,
               allocated_unsubscribe, allocated_clear.
  intros t e0 em0 em0' ev. apply allocated_emit.
Qed.

(** Once the pass has reached the wrapper, it is out of every [Set] and
    stays out. *)
Lemma deliver_consumes fuel snapshot e em em' tr :
  inv em → k < closures em →
  LOnce k s f ∈ snapshot ∨ silenced (LOnce k s f) em →
  deliver P (emit P fuel) snapshot e em = Some (em', tr) →
  silenced (LOnce k s f) em'.
Proof.
  revert em em' tr.
  induction snapshot as [|fn rest IH]; intros em em' tr Hinv Hk Hcase; simpl.
  - intros [= <- _]. destruct Hcase as [Hin|Hs]; [|done].
    by apply elem_of_nil in Hin.
  - destruct (call P (emit P fuel) fn e em) as [[[em1 inner] threw]|] eqn:E;
      [|done].
    simpl.
    destruct (deliver P (emit P fuel) rest e em1) as [[em2 tr2]|] eqn:E2;
      [|done].
    simpl. intros [= <- _].
    destruct (allocated_call _ _ _ _ _ _ _ (conj Hinv Hk) E) as [Hinv1 Hk1].
    eapply IH; [exact Hinv1|exact Hk1| |exact E2].
    destruct (decide (fn = LOnce k s f)) as [->|Hne].
    + right. simpl in E.
      destruct (run (emit P fuel) (P f e) _) as [[[em3 tr3] threw3]|] eqn:E3;
        [|done].
      simpl in E. injection E as <- _ _.
      eapply (run_silent k s f (emit P fuel) (emit_silent P k s f fuel));
        [|exact E3].
      by apply inv_unsubscribe_silenced.
    + destruct Hcase as [Hin|Hs].
      * left. apply elem_of_cons in Hin as [?|?]; [congruence|done].
      * right.
        by eapply (call_silent P k s f (emit P fuel)
                     (emit_silent P k s f fuel)).
Qed.

End Consumed.

(** X7.  When an emission returns, every [once] wrapper that was
    subscribed to its topic at the start has run and is subscribed to no
    topic any more. *)
Theorem once_consumed_by_emission P fuel topic e em em' ev k s f :
  inv em →
  emit P fuel topic e em = Some (em', ev) →
  LOnce k s f ∈ listeners em topic →
  (LOnce k s f, e) ∈ called (match ev with
                            | EvEmit _ _ calls => calls
                            | _ => []
                            end) ∧
  ∀ t, LOnce k s f ∉ listeners em' t.
Proof.
  intros Hinv Hemit Hin. split.
  - destruct (emit_shape P fuel topic e em em' ev Hemit) as (calls & -> & Hd).
    apply delivered_called in Hd. rewrite Hd.
    apply list_elem_of_fmap. eauto.
  - intros t. apply silenced_listeners.
    assert (k < closures em) as Hk.
    { destruct Hinv as (_ & Hw & _). unfold listeners in Hin.
      destruct (e_map em !! topic) as [i|]; [|by apply elem_of_nil in Hin].
      destruct (sets em !! i) as [set|] eqn:Hi;
        [|by apply elem_of_nil in Hin].
      simpl in Hin. by destruct (Hw _ _ _ _ _ Hi Hin). }
    destruct fuel as [|fuel]; [done|]. simpl in Hemit.
    unfold listeners in Hin.
    destruct (e_map em !! topic) as [i|]; [|by apply elem_of_nil in Hin].
    case_decide as Hlen.
    { apply length_zero_iff_nil in Hlen. rewrite Hlen in Hin.
      by apply elem_of_nil in Hin. }
    destruct (deliver P (emit P fuel) _ e em) as [[em1 calls]|] eqn:E;
      [|done].
    simpl in Hemit. injection Hemit as <- _.
    eapply deliver_consumes; [exact Hinv|exact Hk| |exact E]. by left.
Qed.

Lemma once_consumed_by_emission_witness :
  ∃ em' ev,
    emit Scenario.P_reentrant 3 "T" (VNum 7) Scenario.em_once_pair
      = Some (em', ev) ∧
    ∀ t, LOnce 1 0 1 ∉ listeners em' t.
Proof.
  destruct (emit Scenario.P_reentrant 3 "T" (VNum 7) Scenario.em_once_pair)
    as [[em' ev]|] eqn:Hemit; [|vm_compute in Hemit; discriminate].
  exists em', ev. split; [done|].
  apply (once_consumed_by_emission Scenario.P_reentrant 3 "T" (VNum 7)
           Scenario.em_once_pair em' ev 1 0 1 inv_em_once_pair Hemit).
  replace (listeners Scenario.em_once_pair "T")
    with [LOnce 0 0 0; LOnce 1 0 1] by (by vm_compute).
  apply list_elem_of_further, list_elem_of_here.
Defined.

(** X8.  Calling the closure returned by [once] before any emission
    cancels the subscription: every topic has the listeners it had
    before [once]. *)
Theorem once_then_unsubscribe topic f em :
  wf em →
  ∀ t, listeners (unsubscribe (once topic f em).2 (once topic f em).1) t
       = listeners em t.
Proof.
  intros Hwf t. pose proof (wf_once topic f em Hwf) as Hwf1.
  unfold once in *.
  set (em0 := mkEmitter (e_map em) (sets em) (S (closures em))) in *.
  set (W := LOnce (closures em) _ f) in *.
  assert (wf em0) as Hwf0.
  { destruct Hwf as [Hinv Hinj]. split; [by apply inv_closures|done]. }
  rewrite on_unsubscribe_listeners by done.
  case_decide as Ht; [|done]. subst t.
  change (listeners em0 topic) with (listeners em topic).
  apply set_delete_not_in. intros Hin.
  destruct Hwf as [(_ & Hw & _) _]. unfold listeners in Hin.
  destruct (e_map em !! topic) as [i|]; [|by apply elem_of_nil in Hin].
  destruct (sets em !! i) as [set|] eqn:Hi; [|by apply elem_of_nil in Hin].
  simpl in Hin. destruct (Hw _ _ _ _ _ Hi Hin) as [_ Hlt]. lia.
Qed.

Lemma once_then_unsubscribe_witness :
  listeners (unsubscribe (once "T" 2 Scenario.em_pair).2
                         (once "T" 2 Scenario.em_pair).1) "T"
  = [LFn 0; LFn 1].
Proof.
  rewrite (once_then_unsubscribe "T" 2 Scenario.em_pair wf_em_pair "T").
  by vm_compute.
Defined.

(** ** The sender and the bridge, operation by operation *)

(** X9.  [setSender] replaces the sender and then emits exactly one
    "bridge:sender" notification with the readiness of the new value,
    also when it clears: installing a sender and clearing it gives
    [{ready: true}] then [{ready: false}], after which [isReady()] is
    false and [send] returns false.  Nothing but the sender and the
    registry changes.  With listener bodies that start no emission, the
    two calls return whatever the budget. *)
Theorem setSender_then_clear P s w :
  (∀ fuel w' tr c,
     (setSender P fuel (Some s) ;; setSender P fuel None) w
     = Some (w', tr, c) →
     c = Returned tt ∧
     emissions tr = [(VStr "bridge:sender", VObj [("ready", VBool true)]);
                     (VStr "bridge:sender", VObj [("ready", VBool false)])] ∧
     isReady w' = false ∧
     (∀ data, send data VUndef w' = Some (w', [], Returned false)) ∧
     set_bus (bus w) (set_post (_post w) w') = w) ∧
  ((∀ f e, emit_free (P f e)) →
   ∀ fuel,
     is_Some ((setSender P (S fuel) (Some s) ;; setSender P (S fuel) None) w)).
Proof.
  split.
  - intros fuel w' tr c. unfold bind.
    destruct (setSender P fuel (Some s) w) as [[[w1 t1] c1]|] eqn:E1; [|done].
    apply setSender_spec in E1 as (b1 & calls1 & -> & -> & ->).
    destruct (setSender P fuel None _) as [[[w2 t2] c2]|] eqn:E2; [|done].
    apply setSender_spec in E2 as (b2 & calls2 & -> & -> & ->).
    intros [= <- <- <-]. by destruct w.
  - intros Hfree fuel. unfold bind.
    destruct (setSender_emit_free P fuel (Some s) w Hfree)
      as [[[w1 t1] c1] E1].
    rewrite E1. apply setSender_spec in E1 as (b1 & calls1 & -> & -> & ->).
    destruct (setSender_emit_free P fuel None
                (set_bus b1 (set_post (Some s) w)) Hfree)
      as [[[w2 t2] c2] ->].
    by eexists.
Qed.

Lemma setSender_then_clear_witness :
  ∃ w' tr,
    (setSender Scenario.P_idle 1 (Some (SFn 3 (λ _, None))) ;;
     setSender Scenario.P_idle 1 None) BridgeScenario.w_fresh
      = Some (w', tr, Returned tt) ∧
    isReady w' = false.
Proof.
  destruct (setSender_then_clear Scenario.P_idle (SFn 3 (λ _, None))
              BridgeScenario.w_fresh) as [Hspec Hret].
  destruct (Hret P_idle_emit_free 0) as [[[w' tr] c] Hrun].
  destruct (Hspec _ _ _ _ Hrun) as (-> & _ & Hready & _).
  by exists w', tr.
Defined.

Section BridgeCases.

Variable P : nat → Val → list Cmd.
Variable host : Host.
Variable options : BridgeOptions.

Lemma connect_not_ready fuel w :
  iframeEl w = None ∨ loaded w = false →
  Bridge.connect P fuel host options w = Some (w, [], Returned tt).
Proof.
  intros Hcase. unfold Bridge.connect, bind, gets, ret.
  destruct (iframeEl w) as [el|]; [|done].
  destruct Hcase as [?| ->]; done.
Qed.

Lemma resolve_origin_cases w :
  (nullish (targetOrigin options) = true ∧
   url_origin host (src options) = None ∧
   Bridge.resolve_origin host options w
   = Some (w, [], Thrown "TypeError: Invalid URL")) ∨
  (∃ origin,
     Bridge.resolve_origin host options w = Some (w, [], Returned origin) ∧
     origin = if nullish (targetOrigin options)
              then VStr (default "" (url_origin host (src options)))
              else targetOrigin options).
Proof.
  unfold Bridge.resolve_origin.
  destruct (nullish (targetOrigin options)).
  - destruct (url_origin host (src options)) as [o|].
    + right. by eexists.
    + by left.
  - right. by eexists.
Qed.

Lemma connect_invalid_url fuel w el :
  iframeEl w = Some el → loaded w = true →
  Bridge.resolve_origin host options w
  = Some (w, [], Thrown "TypeError: Invalid URL") →
  Bridge.connect P fuel host options w
  = Some (w, [], Thrown "TypeError: Invalid URL").
Proof.
  intros Hel Hld Hres. unfold Bridge.connect.
  unfold bind at 1. unfold gets at 1. unfold bind at 1. unfold gets at 1.
  rewrite Hel, Hld. simpl. unfold bind at 1. by rewrite Hres.
Qed.

(** The three ways [connect] can end. *)
Lemma connect_cases fuel w w' tr c :
  Bridge.connect P fuel host options w = Some (w', tr, c) →
  (w' = w ∧ tr = [] ∧
   (c = Returned tt ∨ c = Thrown "TypeError: Invalid URL")) ∨
  (∃ el origin b' calls1 calls2,
     iframeEl w = Some el ∧ loaded w = true ∧
     Bridge.resolve_origin host options w = Some (w, [], Returned origin) ∧
     w' = mkWorld b' (Some SBridge) (iframeEl w) (Some (channels w))
                  (loaded w) (microtasks w) (S (channels w)) ∧
     tr = match port w with
          | Some p => [EvPortClose p]
          | None => []
          end
          ++ EvPortStart (channels w)
          :: handshake_trace host el origin (channels w)
          ++ [EvEmit (VStr "bridge:sender") (VObj [("ready", VBool true)])
                calls1;
              EvEmit (VStr "bridge:open") (VObj [("origin", origin)])
                calls2] ∧
     c = Returned tt).
Proof.
  intros Hconnect.
  destruct (iframeEl w) as [el|] eqn:Hel.
  - destruct (loaded w) eqn:Hld.
    + destruct (resolve_origin_cases w)
        as [(_ & _ & Hres)|(origin & Hres & _)].
      * rewrite (connect_invalid_url fuel w el Hel Hld Hres) in Hconnect.
        injection Hconnect as <- <- <-. left. eauto.
      * right.
        destruct (connect_spec P host options fuel w el origin w' tr c
                    Hel Hld Hres Hconnect)
          as (b' & calls1 & calls2 & Hw & Htr & Hc).
        rewrite Hel, Hld in Hw. by exists el, origin, b', calls1, calls2.
    + rewrite connect_not_ready in Hconnect by by right.
      injection Hconnect as <- <- <-. left. eauto.
  - rewrite connect_not_ready in Hconnect by by left.
    injection Hconnect as <- <- <-. left. eauto.
Qed.

Lemma connect_returns fuel w :
  (∀ f e, emit_free (P f e)) →
  is_Some (Bridge.connect P (S fuel) host options w).
Proof.
  intros Hfree.
  destruct (iframeEl w) as [el|] eqn:Hel;
    [|rewrite connect_not_ready by (by left); by eexists].
  destruct (loaded w) eqn:Hld;
    [|rewrite connect_not_ready by (by right); by eexists].
  destruct (resolve_origin_cases w) as [(_ & _ & Hres)|(origin & Hres & _)].
  - rewrite (connect_invalid_url (S fuel) w el Hel Hld Hres). by eexists.
  - by eapply connect_emit_free.
Qed.

Lemma run_tasks_returns fuel ts w :
  (∀ f e, emit_free (P f e)) →
  is_Some (Bridge.run_tasks P (S fuel) host options ts w).
Proof.
  intros Hfree. revert w. induction ts as [|[] ts IH]; intros w;
    [by eexists|].
  cbn [Bridge.run_tasks]. unfold bind, try_catch.
  destruct (connect_returns fuel w Hfree) as [[[w1 t1] c1] ->].
  destruct c1; simpl; destruct (IH w1) as [[[w2 t2] c2] ->]; by eexists.
Qed.

Lemma run_microtasks_returns fuel w :
  (∀ f e, emit_free (P f e)) →
  is_Some (Bridge.run_microtasks P (S fuel) host options w).
Proof.
  intros Hfree. unfold Bridge.run_microtasks, bind, gets, modify.
  destruct (run_tasks_returns fuel (microtasks w) (set_microtasks [] w) Hfree)
    as [[[w1 t1] c1] ->].
  by eexists.
Qed.

Lemma update_returns fuel now next w :
  (∀ f e, emit_free (P f e)) →
  is_Some (Bridge.update P (S fuel) options now next w).
Proof.
  intros Hfree. unfold Bridge.update. unfold bind at 1.
  destruct (disconnect_emit_free P fuel w Hfree) as [[[w1 t1] c1] E1].
  rewrite E1.
  apply disconnect_spec in E1 as (b1 & calls1 & calls2 & -> & -> & ->).
  unfold bind, gets, ret, modify, Bridge.assign_src. simpl.
  destruct (match n_src next with
            | VStr s => bool_decide (s ≠ src options)
            | _ => false
            end); simpl; [|by eexists].
  destruct (iframeEl w) as [el|]; simpl; [|by eexists].
  destruct (n_src next) as [| |? |? | |s|?]; simpl; try by eexists.
  destruct (bool_decide (s = src options)); by eexists.
Qed.

End BridgeCases.

(** X10.  On a loaded frame whose window takes the post,
    [connect()] closes the port it held, opens a new channel, posts
    [{type: "connect"}] with the new [port2] to the frame window, scoped
    to the resolved origin, exactly once, installs the bridge's sender
    and emits "bridge:sender" and then "bridge:open" with that origin.
    From then on [send] posts on the new port.  With listener bodies
    that start no emission, [connect] returns whatever the budget. *)
Theorem connect_handshake P host options w el win origin :
  iframeEl w = Some el → loaded w = true → contentWindow el = Some win →
  Bridge.resolve_origin host options w = Some (w, [], Returned origin) →
  postMessage_throws host origin = false →
  (∀ fuel w' tr c,
     Bridge.connect P fuel host options w = Some (w', tr, c) →
     c = Returned tt ∧
     posts tr = [(win, VObj [("type", VStr "connect")], origin, channels w)] ∧
     emissions tr =
       [(VStr "bridge:sender", VObj [("ready", VBool true)]);
        (VStr "bridge:open", VObj [("origin", origin)])] ∧
     (∀ p, port w = Some p → head tr = Some (EvPortClose p)) ∧
     port w' = Some (channels w) ∧
     isReady w' = true ∧
     (∀ data,
        send data VUndef w'
        = Some (w', [EvPortPost (channels w) data], Returned true))) ∧
  ((∀ f e, emit_free (P f e)) →
   ∀ fuel, is_Some (Bridge.connect P (S fuel) host options w)).
Proof.
  intros Hel Hld Hwin Horigin Hpost. split.
  - intros fuel w' tr c Hconnect.
    destruct (connect_spec P host options fuel w el origin w' tr c
                Hel Hld Horigin Hconnect)
      as (b' & calls1 & calls2 & -> & -> & ->).
    unfold handshake_trace. rewrite Hwin, Hpost.
    split_and!; try done; try by destruct (port w).
    by intros p ->.
  - intros Hfree fuel. by eapply connect_emit_free.
Qed.

Lemma connect_handshake_witness :
  ∃ w' tr,
    Bridge.connect Scenario.P_idle 1 BridgeScenario.host_ok
      BridgeScenario.options
      (mkWorld new_Emitter None
         (Some (mkIframe "https://example.test/frame.html" "bus-bridge"
                         "none" true true (Some 7)))
         None true [] 0)
      = Some (w', tr, Returned tt) ∧
    posts tr = [(7, VObj [("type", VStr "connect")], VStr "https://a.test", 0)] ∧
    isReady w' = true.
Proof.
  destruct (connect_handshake Scenario.P_idle
              BridgeScenario.host_ok BridgeScenario.options
              (mkWorld new_Emitter None
                 (Some (mkIframe "https://example.test/frame.html"
                                 "bus-bridge" "none" true true (Some 7)))
                 None true [] 0)
              (mkIframe "https://example.test/frame.html" "bus-bridge"
                        "none" true true (Some 7))
              7 (VStr "https://a.test")
              eq_refl eq_refl eq_refl eq_refl eq_refl) as [Hspec Hret].
  destruct (Hret P_idle_emit_free 0) as [[[w' tr] c] Hconnect].
  destruct (Hspec _ _ _ _ Hconnect) as (-> & Hposts & _ & _ & _ & Hready & _).
  by exists w', tr.
Defined.

(** X11.  The target origin of the handshake is the [targetOrigin]
    the bridge was mounted with; when that is [null] or [undefined] it
    is the origin of the [src] the bridge was mounted with, whatever
    source the frame element has by now.  When that [src] does not parse
    as a URL, [connect()] throws before it touches anything: the port
    and the sender stay as they were and nothing is emitted. *)
Theorem connect_origin P fuel host options w el :
  iframeEl w = Some el → loaded w = true →
  (nullish (targetOrigin options) = true →
   url_origin host (src options) = None →
   Bridge.connect P fuel host options w
   = Some (w, [], Thrown "TypeError: Invalid URL")) ∧
  (∀ w' tr c win msg origin transfer,
     Bridge.connect P fuel host options w = Some (w', tr, c) →
     (win, msg, origin, transfer) ∈ posts tr →
     origin = (if nullish (targetOrigin options)
               then VStr (default "" (url_origin host (src options)))
               else targetOrigin options) ∧
     (VStr "bridge:open", VObj [("origin", origin)]) ∈ emissions tr).
Proof.
  intros Hel Hld. split.
  - intros Hnull Hurl. apply (connect_invalid_url P host options fuel w el);
      [done|done|].
    unfold Bridge.resolve_origin. by rewrite Hnull, Hurl.
  - intros w' tr c win msg origin transfer Hconnect Hin.
    destruct (connect_cases P host options fuel w w' tr c Hconnect)
      as [(_ & -> & _)|(el' & origin' & b' & calls1 & calls2 & Hel' & _ &
                        Hres & _ & -> & _)].
    { by apply elem_of_nil in Hin. }
    destruct (resolve_origin_cases host options w)
      as [(_ & _ & Hres')|(origin'' & Hres' & Horigin)]; [congruence|].
    assert (origin'' = origin') as -> by congruence.
    assert (origin = origin') as ->.
    { unfold handshake_trace in Hin.
      destruct (port w), (contentWindow el') as [win'|],
        (postMessage_throws host origin'); csimpl in Hin;
        repeat (apply elem_of_cons in Hin as [[= _ _ ->]|Hin]; [done|]);
        by apply elem_of_nil in Hin. }
    split; [done|].
    unfold handshake_trace.
    destruct (port w), (contentWindow el') as [win'|],
      (postMessage_throws host origin'); csimpl;
      apply list_elem_of_further, list_elem_of_here.
Qed.

(** A bridge mounted without a target origin whose frame was pointed at
    another site: the handshake still goes to the origin of the first
    [src]. *)
Lemma connect_origin_witness :
  ∃ w' tr,
    Bridge.connect Scenario.P_idle 1 BridgeScenario.host_ok
      (mkOptions "https://example.test/frame.html" VNull None)
      (mkWorld new_Emitter None
         (Some (mkIframe "https://other.test/moved.html" "bus-bridge"
                         "none" true true (Some 7)))
         None true [] 0)
      = Some (w', tr, Returned tt) ∧
    ∀ win msg origin transfer,
      (win, msg, origin, transfer) ∈ posts tr →
      origin = VStr "https://example.test".
Proof.
  destruct (Bridge.connect Scenario.P_idle 1 BridgeScenario.host_ok
      (mkOptions "https://example.test/frame.html" VNull None)
      (mkWorld new_Emitter None
         (Some (mkIframe "https://other.test/moved.html" "bus-bridge"
                         "none" true true (Some 7)))
         None true [] 0)) as [[[w' tr] c]|] eqn:Hconnect;
    [|vm_compute in Hconnect; discriminate].
  assert (c = Returned tt) as ->.
  { vm_compute in Hconnect. by injection Hconnect as _ _ <-. }
  exists w', tr. split; [done|].
  intros win msg origin transfer Hin.
  destruct (connect_origin Scenario.P_idle 1 BridgeScenario.host_ok
              (mkOptions "https://example.test/frame.html" VNull None)
              (mkWorld new_Emitter None
                 (Some (mkIframe "https://other.test/moved.html"
                                 "bus-bridge" "none" true true (Some 7)))
                 None true [] 0)
              (mkIframe "https://other.test/moved.html" "bus-bridge"
                        "none" true true (Some 7))
              eq_refl eq_refl) as [_ Horigin].
  by destruct (Horigin _ _ _ _ _ _ _ Hconnect Hin) as [-> _].
Defined.

(** *** What every operation of the bridge keeps *)

Section BridgeInvariant.

Variable P : nat → Val → list Cmd.
Variable host : Host.
Variable options : BridgeOptions.

Lemma bridge_ok_set_bus b w : bridge_ok w → bridge_ok (set_bus b w).
Proof. by intros [? ?]. Qed.

Lemma connect_bridge_ok fuel w w' tr c :
  bridge_ok w →
  Bridge.connect P fuel host options w = Some (w', tr, c) → bridge_ok w'.
Proof.
  intros Hok Hconnect.
  destruct (connect_cases P host options fuel w w' tr c Hconnect)
    as [(-> & _)|(el & origin & b' & calls1 & calls2 & _ & _ & _ & -> & _)];
    [done|].
  split.
  - intros p [= <-]. simpl. lia.
  - intros _. by eexists.
Qed.

Lemma disconnect_bridge_ok fuel w w' tr c :
  Bridge.disconnect P fuel w = Some (w', tr, c) →
  port w' = None ∧ _post w' = None ∧ channels w' = channels w ∧
  iframeEl w' = iframeEl w ∧ loaded w' = loaded w ∧
  microtasks w' = microtasks w.
Proof.
  by intros (b' & calls1 & calls2 & -> & _ & _)%disconnect_spec.
Qed.

Lemma offline_bridge_ok w : port w = None → _post w = None → bridge_ok w.
Proof. intros Hp Hs. split; [by intros p; rewrite Hp|by rewrite Hs]. Qed.

(** [update] always leaves the bridge disconnected. *)
Lemma update_offline fuel now next w w' tr c :
  Bridge.update P fuel options now next w = Some (w', tr, c) →
  c = Returned tt ∧ port w' = None ∧ _post w' = None ∧
  channels w' = channels w ∧
  (∃ calls1 calls2,
     tr = EvEmit (VStr "bridge:sender") (VObj [("ready", VBool false)]) calls1
            :: match port w with
               | Some p => [EvPortClose p]
               | None => []
               end
            ++ [EvEmit (VStr "bridge:close") VUndef calls2]).
Proof.
  unfold Bridge.update. unfold bind at 1.
  destruct (Bridge.disconnect P fuel w) as [[[w1 t1] c1]|] eqn:E1; [|done].
  apply disconnect_spec in E1 as (b1 & calls1 & calls2 & -> & -> & ->).
  destruct w as [b p el pt ld q n].
  unfold bind, gets, ret, modify, Bridge.assign_src. simpl.
  destruct (match n_src next with
            | VStr s => bool_decide (s ≠ src options)
            | _ => false
            end); simpl.
  - destruct el as [el|]; simpl.
    + destruct (n_src next) as [| |? |? | |s|?]; simpl;
        try (intros [= <- <- <-]; rewrite ?app_nil_r; by eauto 10).
      destruct (bool_decide (s = src options)); simpl;
        intros [= <- <- <-]; rewrite ?app_nil_r; by eauto 10.
    + intros [= <- <- <-]. rewrite ?app_nil_r. by eauto 10.
  - intros [= <- <- <-]. rewrite ?app_nil_r. by eauto 10.
Qed.

Lemma run_tasks_bridge_ok fuel ts w w' tr c :
  bridge_ok w →
  Bridge.run_tasks P fuel host options ts w = Some (w', tr, c) →
  bridge_ok w'.
Proof.
  revert w w' tr c. induction ts as [|[] ts IH]; intros w w' tr c Hok; simpl.
  - by intros [= <- _ _].
  - unfold bind, try_catch.
    destruct (Bridge.connect P fuel host options w) as [[[w1 t1] c1]|] eqn:E;
      [|done].
    pose proof (connect_bridge_ok _ _ _ _ _ Hok E) as Hok1.
    destruct c1; simpl.
    + destruct (Bridge.run_tasks P fuel host options ts w1)
        as [[[w2 t2] c2]|] eqn:E2; [|done].
      intros [= <- _ _]. eauto.
    + destruct (Bridge.run_tasks P fuel host options ts w1)
        as [[[w2 t2] c2]|] eqn:E2; [|done].
      intros [= <- _ _]. eauto.
Qed.

Lemma onmessage_frame fuel e_data w w' tr c :
  Bridge.onmessage P fuel e_data w = Some (w', tr, c) →
  ∃ b', w' = set_bus b' w.
Proof.
  unfold Bridge.onmessage.
  destruct (get_prop _ "topic") as [topic|];
    [|intros [= <- _ _]; exists (bus w); by destruct w].
  destruct (get_prop _ "payload") as [payload|];
    [|intros [= <- _ _]; exists (bus w); by destruct w].
  destruct (truthy topic).
  - unfold bind.
    destruct (bus_emit P fuel topic payload w) as [[[w1 t1] c1]|] eqn:E1;
      [|done].
    apply bus_emit_spec in E1 as (b1 & calls1 & -> & -> & ->).
    destruct (bus_emit P fuel _ _ _) as [[[w2 t2] c2]|] eqn:E2; [|done].
    apply bus_emit_spec in E2 as (b2 & calls2 & -> & -> & ->).
    intros [= <- _ _]. exists b2. by destruct w.
  - intros (b' & calls & -> & _)%bus_emit_spec. by exists b'.
Qed.

Lemma bridge_step_ok w w' :
  bridge_step P host options w w' → bridge_ok w → bridge_ok w'.
Proof.
  destruct 1 as [fuel w w' tr c H|fuel w w' tr c H|fuel w w' tr c H
                |fuel w w' tr c H|fuel now next w w' tr c H
                |fuel w w' tr c H|fuel e_data w w' tr c H]; intros Hok.
  - unfold Bridge.fire_load, Bridge.onIframeLoad, bind, gets, modify, ret
      in H.
    destruct (iframeEl w) as [el|]; [|by injection H as <- _ _].
    destruct (el_onload el); [|by injection H as <- _ _].
    destruct (Bridge.connect P fuel host options (set_loaded true w))
      as [[[w1 t1] c1]|] eqn:E; [|done].
    injection H as <- _ _.
    eapply connect_bridge_ok; [|exact E]. by destruct Hok.
  - by eapply connect_bridge_ok.
  - apply disconnect_bridge_ok in H as (Hp & Hs & _).
    by apply offline_bridge_ok.
  - apply destroy_spec in H as (b' & calls1 & calls2 & -> & _).
    by apply offline_bridge_ok.
  - apply update_offline in H as (_ & Hp & Hs & _).
    by apply offline_bridge_ok.
  - unfold Bridge.run_microtasks, bind, gets, modify in H.
    destruct (Bridge.run_tasks P fuel host options (microtasks w)
                (set_microtasks [] w)) as [[[w1 t1] c1]|] eqn:E; [|done].
    injection H as <- _ _.
    eapply run_tasks_bridge_ok; [|exact E]. by destruct Hok.
  - apply onmessage_frame in H as (b' & ->). by apply bridge_ok_set_bus.
Qed.

End BridgeInvariant.

(** X12.  Through the whole life of a bridge mounted while no
    sender was installed (frame loads, [connect], [disconnect],
    [destroy], [update], microtask checkpoints, inbound messages, in any
    order), the bridge's sender is never installed without an open
    port: whenever [isReady()] holds, [send] posts the data on the port
    the bridge holds, and that port is never the one a later [connect]
    will allocate. *)
Theorem bridge_sender_always_has_port P host options w0 w1 t1 c1 w :
  _post w0 = None →
  Bridge.mount host options w0 = Some (w1, t1, c1) →
  rtc (bridge_step P host options) w1 w →
  bridge_ok w ∧
  (isReady w = true →
   ∃ p, port w = Some p ∧ p < channels w ∧
        ∀ data, send data VUndef w = Some (w, [EvPortPost p data],
                                           Returned true)).
Proof.
  intros Hpost Hmount Hreach.
  assert (bridge_ok w1 ∧ (∀ id body, _post w1 ≠ Some (SFn id body))) as Hstart.
  { unfold Bridge.mount, bind, modify in Hmount.
    injection Hmount as <- _ _. split.
    - apply offline_bridge_ok; [done|]. by destruct w0.
    - intros id body. destruct w0. simpl in *. by subst. }
  assert (bridge_ok w ∧ (∀ id body, _post w ≠ Some (SFn id body))) as [Hok Hnofn].
  { clear Hmount. induction Hreach as [w|w w' w'' Hstep _ IH]; [done|].
    apply IH. destruct Hstart as [Hok Hnofn]. split.
    - by eapply bridge_step_ok.
    - intros id body.
      destruct Hstep as [fuel w w' tr c H|fuel w w' tr c H|fuel w w' tr c H
                        |fuel w w' tr c H|fuel now next w w' tr c H
                        |fuel w w' tr c H|fuel e_data w w' tr c H].
      + unfold Bridge.fire_load, Bridge.onIframeLoad, bind, gets, modify,
          ret in H.
        destruct (iframeEl w) as [el|]; [|injection H as <- _ _; eauto].
        destruct (el_onload el); [|injection H as <- _ _; eauto].
        destruct (Bridge.connect P fuel host options (set_loaded true w))
          as [[[wx tx] cx]|] eqn:E; [|done].
        injection H as <- _ _.
        destruct (connect_cases P host options fuel _ _ _ _ E)
          as [(-> & _)|(? & ? & ? & ? & ? & _ & _ & _ & -> & _)];
          [apply (Hnofn id body)|done].
      + destruct (connect_cases P host options fuel _ _ _ _ H)
          as [(-> & _)|(? & ? & ? & ? & ? & _ & _ & _ & -> & _)];
          [apply (Hnofn id body)|done].
      + apply disconnect_bridge_ok in H as (_ & -> & _). done.
      + apply destroy_spec in H as (b' & calls1 & calls2 & -> & _). done.
      + apply update_offline in H as (_ & _ & -> & _). done.
      + unfold Bridge.run_microtasks, bind, gets, modify in H.
        destruct (Bridge.run_tasks P fuel host options (microtasks w)
                    (set_microtasks [] w)) as [[[wx tx] cx]|] eqn:E; [|done].
        injection H as <- _ _.
        assert (∀ ts wa wb tb cb,
                  (∀ id body, _post wa ≠ Some (SFn id body)) →
                  Bridge.run_tasks P fuel host options ts wa
                  = Some (wb, tb, cb) →
                  ∀ id body, _post wb ≠ Some (SFn id body)) as Htasks.
        { clear. induction ts as [|[] ts IHts]; intros wa wb tb cb Ha; simpl.
          - by intros [= <- _ _].
          - unfold bind, try_catch.
            destruct (Bridge.connect P fuel host options wa)
              as [[[wx tx] cx]|] eqn:E; [|done].
            assert (∀ id body, _post wx ≠ Some (SFn id body)) as H1.
            { destruct (connect_cases P host options fuel _ _ _ _ E)
                as [(-> & _)|(? & ? & ? & ? & ? & _ & _ & _ & -> & _)];
                [done|]. by intros id body. }
            destruct cx; simpl;
              (destruct (Bridge.run_tasks P fuel host options ts wx)
                 as [[[w2 t2] c2]|] eqn:E2; [|done]);
              intros [= <- _ _]; eauto. }
        eapply Htasks; [|exact E]. intros id' body'. apply (Hnofn id' body').
      + apply onmessage_frame in H as (b' & ->). apply (Hnofn id body). }
  split; [done|].
  intros Hready. unfold isReady in Hready.
  apply bool_decide_eq_true in Hready as [s Hs].
  destruct s as [|id body]; [|by destruct (Hnofn id body)].
  destruct Hok as [Hports Hport].
  destruct (Hport Hs) as [p Hp].
  exists p. split_and!; [done|by apply Hports|].
  intros data. unfold send. rewrite Hs. simpl. by rewrite Hp.
Qed.

(** A bridge that was mounted on a fresh bus and whose frame has
    loaded: [send] posts on port 0. *)
Lemma bridge_sender_always_has_port_witness :
  ∃ w1 t1 w tr c,
    Bridge.mount BridgeScenario.host_ok BridgeScenario.options
      BridgeScenario.w_fresh = Some (w1, t1, Returned tt) ∧
    Bridge.fire_load Scenario.P_idle 1 BridgeScenario.host_ok
      BridgeScenario.options w1 = Some (w, tr, c) ∧
    send (VNum 5) VUndef w
    = Some (w, [EvPortPost 0 (VNum 5)], Returned true).
Proof.
  destruct (Bridge.mount BridgeScenario.host_ok BridgeScenario.options
              BridgeScenario.w_fresh) as [[[w1 t1] c1]|] eqn:Hmount;
    [|vm_compute in Hmount; discriminate].
  assert (c1 = Returned tt) as ->.
  { vm_compute in Hmount. by injection Hmount as _ _ <-. }
  destruct (Bridge.fire_load Scenario.P_idle 1 BridgeScenario.host_ok
              BridgeScenario.options w1) as [[[w tr] c]|] eqn:Hload.
  2: { vm_compute in Hmount. by simplify_eq. }
  exists w1, t1, w, tr, c. split_and!; [done|done|].
  destruct (bridge_sender_always_has_port Scenario.P_idle
              BridgeScenario.host_ok BridgeScenario.options
              BridgeScenario.w_fresh w1 t1 (Returned tt) w
              eq_refl Hmount
              (rtc_once _ _ (bs_load _ _ _ _ _ _ _ _ Hload)))
    as [_ Hsend].
  assert (isReady w = true ∧ port w = Some 0) as [Hready Hport].
  { vm_compute in Hmount. simplify_eq.
    vm_compute in Hload. by simplify_eq. }
  destruct (Hsend Hready) as (p & Hp & _ & Hdata).
  rewrite Hport in Hp. injection Hp as <-. apply Hdata.
Defined.

(** *** Inbound envelopes *)



(** *** Going offline and coming back *)

(** X14.  [disconnect()] clears the sender, closes the port the
    bridge held, emits "bridge:sender" with [{ready: false}] and then
    "bridge:close", and leaves the bridge offline: [isReady()] is false
    and [send] returns false.  It keeps the frame and its loaded flag,
    so a later [connect()] on a loaded frame whose window takes the post
    handshakes again: it opens a new channel, posts [{type: "connect"}]
    to the frame window once, and the sender is ready again, without a
    load event.  With listener bodies that start no emission, both calls
    return whatever the budget. *)
Theorem disconnect_then_connect P host options w :
  (∀ fuel w1 t1 c1,
     Bridge.disconnect P fuel w = Some (w1, t1, c1) →
     c1 = Returned tt ∧
     emissions t1 = [(VStr "bridge:sender", VObj [("ready", VBool false)]);
                     (VStr "bridge:close", VUndef)] ∧
     (∀ p, port w = Some p → EvPortClose p ∈ t1) ∧
     isReady w1 = false ∧
     (∀ data, send data VUndef w1 = Some (w1, [], Returned false)) ∧
     (∀ el win origin fuel' w2 t2 c2,
        iframeEl w = Some el → loaded w = true →
        contentWindow el = Some win →
        Bridge.resolve_origin host options w1
        = Some (w1, [], Returned origin) →
        postMessage_throws host origin = false →
        Bridge.connect P fuel' host options w1 = Some (w2, t2, c2) →
        c2 = Returned tt ∧
        head t2 = Some (EvPortStart (channels w)) ∧
        posts t2
        = [(win, VObj [("type", VStr "connect")], origin, channels w)] ∧
        emissions t2 =
          [(VStr "bridge:sender", VObj [("ready", VBool true)]);
           (VStr "bridge:open", VObj [("origin", origin)])] ∧
        isReady w2 = true ∧ port w2 = Some (channels w))) ∧
  ((∀ f e, emit_free (P f e)) →
   ∀ fuel,
     ∃ w1 t1 c1,
       Bridge.disconnect P (S fuel) w = Some (w1, t1, c1) ∧
       is_Some (Bridge.connect P (S fuel) host options w1)).
Proof.
  split.
  - intros fuel w1 t1 c1
      (b1 & calls1 & calls2 & -> & -> & ->)%disconnect_spec.
    split_and!; try done.
    + by destruct (port w).
    + intros p ->. apply list_elem_of_further, list_elem_of_here.
    + intros el win origin fuel' w2 t2 c2 Hel Hld Hwin Hres Hpost Hconnect.
      destruct (connect_spec P host options fuel'
                  (set_bus b1 (set_port None (set_post None w)))
                  el origin w2 t2 c2 Hel Hld Hres Hconnect)
        as (b' & calls3 & calls4 & -> & -> & ->).
      unfold handshake_trace. rewrite Hwin, Hpost. done.
  - intros Hfree fuel.
    destruct (disconnect_emit_free P fuel w Hfree) as [[[w1 t1] c1] E1].
    exists w1, t1, c1. split; [done|]. by apply connect_returns.
Qed.

Lemma disconnect_then_connect_witness :
  ∃ w1 t1 w2 t2,
    Bridge.disconnect Scenario.P_idle 1
      (mkWorld new_Emitter (Some SBridge)
         (Some (mkIframe "https://example.test/frame.html" "bus-bridge"
                         "none" true true (Some 7)))
         (Some 0) true [] 1)
    = Some (w1, t1, Returned tt) ∧
    EvPortClose 0 ∈ t1 ∧
    isReady w1 = false ∧
    Bridge.connect Scenario.P_idle 1 BridgeScenario.host_ok
      BridgeScenario.options w1 = Some (w2, t2, Returned tt) ∧
    posts t2
    = [(7, VObj [("type", VStr "connect")], VStr "https://a.test", 1)] ∧
    isReady w2 = true.
Proof.
  set (w := mkWorld new_Emitter (Some SBridge)
         (Some (mkIframe "https://example.test/frame.html" "bus-bridge"
                         "none" true true (Some 7)))
         (Some 0) true [] 1).
  destruct (disconnect_then_connect Scenario.P_idle BridgeScenario.host_ok
              BridgeScenario.options w) as [Hspec Hret].
  destruct (Hret P_idle_emit_free 0)
    as (w1 & t1 & c1 & Hdis & [[[w2 t2] c2] Hcon]).
  destruct (Hspec _ _ _ _ Hdis) as (-> & _ & Hclose & Hready & _ & Hagain).
  destruct (Hagain (mkIframe "https://example.test/frame.html" "bus-bridge"
                             "none" true true (Some 7))
              7 (VStr "https://a.test") 1 w2 t2 c2
              eq_refl eq_refl eq_refl eq_refl eq_refl Hcon)
    as (-> & _ & Hposts & _ & Hready2 & _).
  exists w1, t1, w2, t2. split_and!; try done. by apply Hclose.
Defined.

(** *** Reconfiguring and tearing down *)

(** X15.  [update({src})] with a source other than the one the
    bridge was mounted with disconnects first, then points the frame at
    the new source and resets the loaded flag; it queues no reconnect,
    and [connect()] does nothing until the frame fires a new load
    event.  With listener bodies that start no emission, [update]
    returns whatever the budget. *)
Theorem update_new_src P host options now s o w el :
  s ≠ src options → iframeEl w = Some el →
  (∀ fuel w' tr c,
     Bridge.update P fuel options now (mkNext (VStr s) o) w
     = Some (w', tr, c) →
     c = Returned tt ∧
     emissions tr = [(VStr "bridge:sender", VObj [("ready", VBool false)]);
                     (VStr "bridge:close", VUndef)] ∧
     posts tr = [] ∧
     iframeEl w' = Some (mkIframe s (el_title el) (el_display el)
                                  (el_onload el) (el_attached el)
                                  (contentWindow el)) ∧
     loaded w' = false ∧
     microtasks w' = microtasks w ∧
     isReady w' = false ∧
     (∀ fuel', Bridge.connect P fuel' host options w'
               = Some (w', [], Returned tt))) ∧
  ((∀ f e, emit_free (P f e)) →
   ∀ fuel,
     is_Some (Bridge.update P (S fuel) options now (mkNext (VStr s) o) w)).
Proof.
  intros Hne Hel. split; [|intros Hfree fuel; by apply update_returns].
  intros fuel w' tr c. unfold Bridge.update. simpl.
  rewrite (bool_decide_eq_true_2 (s ≠ src options)) by done.
  rewrite (bool_decide_eq_false_2 (s = src options)) by done.
  unfold bind at 1.
  destruct (Bridge.disconnect P fuel w) as [[[w1 t1] c1]|] eqn:E1; [|done].
  apply disconnect_spec in E1 as (b1 & calls1 & calls2 & -> & -> & ->).
  destruct w as [b p el0 pt ld q n]. simpl in Hel. subst el0.
  unfold bind, gets, ret, modify, Bridge.assign_src. simpl.
  intros [= <- <- <-].
  split_and!; try done; try by destruct pt.
Qed.

Lemma update_new_src_witness :
  ∃ w' tr,
    Bridge.update Scenario.P_idle 1 BridgeScenario.options "1700"
      (mkNext (VStr "https://example.test/other.html") VUndef)
      (mkWorld new_Emitter (Some SBridge)
         (Some (mkIframe "https://example.test/frame.html" "bus-bridge"
                         "none" true true (Some 7)))
         (Some 0) true [] 1)
    = Some (w', tr, Returned tt) ∧
    loaded w' = false ∧ microtasks w' = [].
Proof.
  assert ("https://example.test/other.html" ≠ src BridgeScenario.options)
    as Hne by done.
  destruct (update_new_src Scenario.P_idle BridgeScenario.host_ok
              BridgeScenario.options "1700"
              "https://example.test/other.html" VUndef
              (mkWorld new_Emitter (Some SBridge)
                 (Some (mkIframe "https://example.test/frame.html"
                                 "bus-bridge" "none" true true (Some 7)))
                 (Some 0) true [] 1)
              (mkIframe "https://example.test/frame.html" "bus-bridge"
                        "none" true true (Some 7))
              Hne eq_refl) as [Hspec Hret].
  destruct (Hret P_idle_emit_free 0) as [[[w' tr] c] Hrun].
  destruct (Hspec _ _ _ _ Hrun) as (-> & _ & _ & _ & Hld & Hq & _).
  by exists w', tr.
Defined.

Lemma run_tasks_destroyed P fuel host options ts w :
  iframeEl w = None →
  Bridge.run_tasks P fuel host options ts w = Some (w, [], Returned tt).
Proof.
  intros Hel. induction ts as [|[] ts IH]; simpl; [done|].
  unfold bind, try_catch.
  rewrite connect_not_ready by by left. by rewrite IH.
Qed.

(** X16.  [destroy()] leaves the bridge without an element, and
    from then on nothing brings it back: [connect()] and a load event do
    nothing, and [update], with or without a new source, followed by the
    microtask checkpoint posts nothing and leaves the bridge offline. *)
Theorem destroyed_stays_down P host options fuel w w1 t1 c1 :
  Bridge.destroy P fuel w = Some (w1, t1, c1) →
  iframeEl w1 = None ∧
  (∀ fuel', Bridge.connect P fuel' host options w1
            = Some (w1, [], Returned tt)) ∧
  (∀ fuel', Bridge.fire_load P fuel' host options w1
            = Some (w1, [], Returned tt)) ∧
  (∀ fuel' now next w2 t2 c2,
     (Bridge.update P fuel' options now next ;;
      Bridge.run_microtasks P fuel' host options) w1 = Some (w2, t2, c2) →
     c2 = Returned tt ∧ posts t2 = [] ∧ iframeEl w2 = None ∧
     isReady w2 = false ∧ port w2 = None).
Proof.
  intros (b1 & calls1 & calls2 & -> & _ & _)%destroy_spec.
  split_and!; [done| | |].
  - intros fuel'. by apply connect_not_ready; left.
  - done.
  - intros fuel' now next w2 t2 c2. unfold bind at 1.
    destruct (Bridge.update P fuel' options now next _)
      as [[[w3 t3] c3]|] eqn:E; [|done].
    pose proof E as (-> & Hp & Hs & _ & calls3 & calls4 & ->)%update_offline.
    assert (iframeEl w3 = None) as Hel.
    { revert E. unfold Bridge.update. unfold bind at 1.
      destruct (Bridge.disconnect P fuel' _) as [[[w4 t4] c4]|] eqn:E4;
        [|done].
      apply disconnect_spec in E4 as (b4 & ? & ? & -> & -> & ->).
      unfold bind, gets, ret, modify. simpl.
      rewrite andb_false_r. simpl.
      destruct (negb _); by intros [= <- _]. }
    unfold Bridge.run_microtasks, bind, gets, modify.
    rewrite run_tasks_destroyed by done.
    intros [= <- <- <-]. unfold isReady. simpl. rewrite Hp, Hs, Hel.
    by split_and!.
Qed.

Lemma destroyed_stays_down_witness :
  ∃ w1 t1,
    Bridge.destroy Scenario.P_idle 1
      (mkWorld new_Emitter (Some SBridge)
         (Some (mkIframe "https://example.test/frame.html" "bus-bridge"
                         "none" true true (Some 7)))
         (Some 0) true [] 1)
    = Some (w1, t1, Returned tt) ∧
    Bridge.fire_load Scenario.P_idle 1 BridgeScenario.host_ok
      BridgeScenario.options w1 = Some (w1, [], Returned tt).
Proof.
  destruct (Bridge.destroy Scenario.P_idle 1
      (mkWorld new_Emitter (Some SBridge)
         (Some (mkIframe "https://example.test/frame.html" "bus-bridge"
                         "none" true true (Some 7)))
         (Some 0) true [] 1)) as [[[w1 t1] c1]|] eqn:Hrun;
    [|vm_compute in Hrun; discriminate].
  destruct (destroyed_stays_down Scenario.P_idle BridgeScenario.host_ok
              BridgeScenario.options 1 _ w1 t1 c1 Hrun)
    as (_ & _ & Hload & _).
  assert (c1 = Returned tt) as ->.
  { by apply destroy_spec in Hrun as (? & ? & ? & _ & _ & ->). }
  exists w1, t1. split; [done|]. apply Hload.
Defined.

(** X17.  On a connected bridge, [update] that does not change
    the source takes the bridge offline at once and reconnects at the
    microtask checkpoint: in between [isReady()] is false; afterwards
    the old port has been closed, a new channel has been opened, the
    handshake has been posted once, and the sender is ready again.  With
    listener bodies that start no emission, [update] and the checkpoint
    return whatever the budget. *)
Theorem update_then_checkpoint_reconnects
    P host options now next w el win origin p :
  n_src next = VStr (src options) ∨ n_src next = VUndef →
  iframeEl w = Some el → loaded w = true → contentWindow el = Some win →
  port w = Some p → microtasks w = [] →
  Bridge.resolve_origin host options w = Some (w, [], Returned origin) →
  postMessage_throws host origin = false →
  (∀ fuel w1 t1 c1 w2 t2 c2,
     Bridge.update P fuel options now next w = Some (w1, t1, c1) →
     Bridge.run_microtasks P fuel host options w1 = Some (w2, t2, c2) →
     isReady w1 = false ∧ microtasks w1 = [TConnect] ∧
     EvPortClose p ∈ t1 ∧
     c2 = Returned tt ∧
     posts t2 = [(win, VObj [("type", VStr "connect")], origin, channels w)] ∧
     emissions t2 = [(VStr "bridge:sender", VObj [("ready", VBool true)]);
                     (VStr "bridge:open", VObj [("origin", origin)])] ∧
     isReady w2 = true ∧ port w2 = Some (channels w) ∧ microtasks w2 = []) ∧
  ((∀ f e, emit_free (P f e)) →
   ∀ fuel,
     ∃ w1 t1 c1 w2 t2 c2,
       Bridge.update P (S fuel) options now next w = Some (w1, t1, c1) ∧
       Bridge.run_microtasks P (S fuel) host options w1
       = Some (w2, t2, c2)).
Proof.
  intros Hsrc Hel Hld Hwin Hport Hq Hres Hpost. split.
  2: { intros Hfree fuel.
       destruct (update_returns P options fuel now next w Hfree)
         as [[[w1 t1] c1] E1].
       destruct (run_microtasks_returns P host options fuel w1 Hfree)
         as [[[w2 t2] c2] E2].
       by exists w1, t1, c1, w2, t2, c2. }
  intros fuel w1 t1 c1 w2 t2 c2 Hupd Hrun.
  pose proof (update_same_src _ _ _ _ _ _ _ _ _ Hsrc Hupd)
    as (Hel1 & Hld1 & Hq1).
  pose proof Hupd as (-> & Hp1 & Hs1 & Hn1 & calls1 & calls2 & ->)
    %update_offline.
  rewrite Hq in Hq1. simpl in Hq1. rewrite Hport.
  unfold Bridge.run_microtasks, bind, gets, modify in Hrun.
  rewrite Hq1 in Hrun. simpl in Hrun. unfold bind, try_catch, ret in Hrun.
  destruct (Bridge.connect P fuel host options (set_microtasks [] w1))
    as [[[w3 t3] c3]|] eqn:E; [|done].
  assert (Bridge.resolve_origin host options (set_microtasks [] w1)
          = Some (set_microtasks [] w1, [], Returned origin)) as Hres1.
  { revert Hres. unfold Bridge.resolve_origin, ret, throw.
    destruct (nullish _); [destruct (url_origin _ _)|];
      by intros [= <-]. }
  rewrite <- Hel1 in Hel. rewrite <- Hld1 in Hld.
  destruct (connect_spec P host options fuel (set_microtasks [] w1) el origin
              w3 t3 c3 Hel Hld Hres1 E)
    as (b' & calls3 & calls4 & -> & -> & ->).
  simpl in Hrun. injection Hrun as <- <- <-.
  unfold handshake_trace. rewrite Hwin, Hpost. simpl.
  rewrite Hp1, Hn1. unfold isReady. rewrite Hs1.
  split_and!; try done.
  apply list_elem_of_further, list_elem_of_here.
Qed.

Lemma update_then_checkpoint_reconnects_witness :
  ∃ w1 t1 w2 t2,
    Bridge.update Scenario.P_idle 1 BridgeScenario.options "1700"
      (mkNext VUndef VUndef)
      (mkWorld new_Emitter (Some SBridge)
         (Some (mkIframe "https://example.test/frame.html" "bus-bridge"
                         "none" true true (Some 7)))
         (Some 0) true [] 1)
    = Some (w1, t1, Returned tt) ∧
    Bridge.run_microtasks Scenario.P_idle 1 BridgeScenario.host_ok
      BridgeScenario.options w1 = Some (w2, t2, Returned tt) ∧
    isReady w1 = false ∧ isReady w2 = true ∧ port w2 = Some 1.
Proof.
  set (w := mkWorld new_Emitter (Some SBridge)
         (Some (mkIframe "https://example.test/frame.html" "bus-bridge"
                         "none" true true (Some 7)))
         (Some 0) true [] 1).
  destruct (update_then_checkpoint_reconnects Scenario.P_idle
              BridgeScenario.host_ok BridgeScenario.options "1700"
              (mkNext VUndef VUndef) w
              (mkIframe "https://example.test/frame.html" "bus-bridge"
                        "none" true true (Some 7))
              7 (VStr "https://a.test") 0
              (or_intror eq_refl) eq_refl eq_refl eq_refl eq_refl eq_refl
              eq_refl eq_refl) as [Hspec Hret].
  destruct (Hret P_idle_emit_free 0)
    as (w1 & t1 & c1 & w2 & t2 & c2 & Hupd & Hrun).
  destruct (Hspec _ _ _ _ _ _ _ Hupd Hrun)
    as (Hoff & _ & _ & -> & _ & _ & Hon & Hport & _).
  assert (c1 = Returned tt) as ->.
  { by apply update_offline in Hupd as (-> & _). }
  by exists w1, t1, w2, t2.
Defined.

(** ** The channel transport over time *)

Lemma windowReceive_skips ev t :
  Transport.connected t = true ∨ triggers ev = false →
  ∃ c, Transport.windowReceive ev t
       = (t, [EvLog "[BWO] Received window data"], c).
Proof.
  unfold triggers, Transport.windowReceive, Transport.connect.
  intros Hcase.
  destruct (get_prop (Transport.data ev) "type") as [ty|]; [|by eexists].
  destruct (Transport.is_init ty); [|by eexists].
  destruct (Transport.source ev) as [win|]; [|by eexists].
  destruct Hcase as [->|?]; [by eexists|done].
Qed.

Lemma windowReceive_triggered ev t :
  Transport.connected t = false → triggers ev = true →
  ∃ win,
    Transport.source ev = Some win ∧
    Transport.windowReceive ev t =
      (Transport.mkState (Some (Transport.allocated t))
                         (Some (Transport.allocated t)) true
                         (S (Transport.allocated t)),
       [EvLog "[BWO] Received window data";
        EvLog "[BWO] Connecting channel to iframe as window data";
        EvWinPost win (VStr "init") (VStr "*") (Transport.allocated t)],
       Returned tt).
Proof.
  intros Hconn. unfold triggers, Transport.windowReceive, Transport.connect.
  destruct (get_prop (Transport.data ev) "type") as [ty|]; [|done].
  destruct (Transport.is_init ty); [|done].
  destruct (Transport.source ev) as [win|]; [|done].
  intros _. exists win. by rewrite Hconn.
Qed.

Lemma receive_all_connected evs t :
  Transport.connected t = true →
  (receive_all evs t).1 = t ∧ posts (receive_all evs t).2 = [].
Proof.
  intros Hconn. induction evs as [|ev evs [IH1 IH2]]; [done|]. simpl.
  destruct (windowReceive_skips ev t (or_introl Hconn)) as [c ->].
  destruct (receive_all evs t) as [t2 tr2]. simpl in *. by subst.
Qed.

(** X18.  Of the window messages the transport receives, the
    first one that has [type] "init" and a source window gets the port:
    the events before it, among them those whose data is the string
    "init", has no [type], or is [null] (for which the handler throws),
    change nothing, and every event after it, another "init" included,
    is ignored.  So the transport handshakes once, with that window, on
    its first channel. *)
Theorem transport_handshakes_with_first_init before ev after t win :
  Forall (λ e, triggers e = false) before →
  triggers ev = true → Transport.source ev = Some win →
  Transport.connected t = false →
  posts (receive_all (before ++ ev :: after) t).2
  = [(win, VStr "init", VStr "*", Transport.allocated t)] ∧
  Transport.port1 (receive_all (before ++ ev :: after) t).1
  = Some (Transport.allocated t) ∧
  Transport.connected (receive_all (before ++ ev :: after) t).1 = true.
Proof.
  intros Hbefore Hev Hsrc Hconn.
  induction Hbefore as [|e before He _ IH]; simpl.
  - destruct (windowReceive_triggered ev t Hconn Hev) as (win' & Hsrc' & ->).
    assert (win' = win) as -> by congruence.
    destruct (receive_all_connected after
                (Transport.mkState (Some (Transport.allocated t))
                   (Some (Transport.allocated t)) true
                   (S (Transport.allocated t))) eq_refl) as [Ht Hp].
    destruct (receive_all after _) as [t2 tr2]. simpl in *. subst t2.
    by rewrite Hp.
  - destruct (windowReceive_skips e t (or_intror He)) as [c ->].
    destruct (receive_all (before ++ ev :: after) t) as [t2 tr2].
    simpl in *. done.
Qed.

(** A string "init", a message from a window that is gone, a [null]
    message, then two well-formed init messages: the first of these,
    from window 3, gets the port. *)
Lemma transport_handshakes_with_first_init_witness :
  posts (receive_all
           [Transport.mkEvent (VStr "init") (Some 1) "https://a.test";
            Transport.mkEvent (VObj [("type", VStr "init")]) None
                              "https://a.test";
            Transport.mkEvent VNull (Some 2) "https://a.test";
            Transport.mkEvent (VObj [("type", VStr "init")]) (Some 3)
                              "https://b.test";
            Transport.mkEvent (VObj [("type", VStr "init")]) (Some 4)
                              "https://c.test"]
           Transport.initial).2
  = [(3, VStr "init", VStr "*", 0)].
Proof.
  apply (transport_handshakes_with_first_init
           [Transport.mkEvent (VStr "init") (Some 1) "https://a.test";
            Transport.mkEvent (VObj [("type", VStr "init")]) None
                              "https://a.test";
            Transport.mkEvent VNull (Some 2) "https://a.test"]
           (Transport.mkEvent (VObj [("type", VStr "init")]) (Some 3)
                              "https://b.test")
           [Transport.mkEvent (VObj [("type", VStr "init")]) (Some 4)
                              "https://c.test"]
           Transport.initial 3); try done.
  by repeat constructor.
Defined.

Lemma windowReceive_transport_ok ev t :
  transport_ok t → transport_ok (Transport.windowReceive ev t).1.1.
Proof.
  intros Hok.
  destruct (Transport.connected t) eqn:Hconn.
  { by destruct (windowReceive_skips ev t (or_introl Hconn)) as [c ->]. }
  destruct (triggers ev) eqn:Hev.
  2: { by destruct (windowReceive_skips ev t (or_intror Hev)) as [c ->]. }
  destruct (windowReceive_triggered ev t Hconn Hev) as (win & Hsrc & ->).
  simpl.
  split_and!; [by split; [eexists|]|done|].
  simpl. intros p [= <-]. lia.
Qed.

Lemma receive_all_transport_ok evs t :
  transport_ok t → transport_ok (receive_all evs t).1.
Proof.
  revert t. induction evs as [|ev evs IH]; intros t Hok; [done|]. simpl.
  pose proof (windowReceive_transport_ok ev t Hok) as Hok1.
  destruct (Transport.windowReceive ev t) as [[t1 tr1] c1]. simpl in Hok1.
  specialize (IH t1 Hok1).
  by destruct (receive_all evs t1) as [t2 tr2].
Qed.

(** X19.  Whatever window messages have arrived, [channel.send] either
    finds the transport unconnected and throws a [TypeError], after
    logging, because [port1] is still [undefined], or posts the message
    on the port kept from the handshake. *)
Theorem channel_send_after_events evs msg :
  let t := (receive_all evs Transport.initial).1 in
  (Transport.connected t = false ∧
   Channel.send msg t
   = ([EvLog "[BWO] Sending channel data"], Thrown "TypeError")) ∨
  (Transport.connected t = true ∧
   ∃ p, Transport.port1 t = Some p ∧ p < Transport.allocated t ∧
        Channel.send msg t
        = ([EvLog "[BWO] Sending channel data"; EvPortPost p msg],
           Returned tt)).
Proof.
  intros t.
  assert (transport_ok t) as (Hconn & _ & Hlt).
  { apply receive_all_transport_ok. split_and!; [|done|done].
    split; [done|]. by intros [? ?]. }
  unfold Channel.send.
  destruct (Transport.port1 t) as [p|] eqn:Hp.
  - right. split; [apply Hconn; by eexists|]. exists p. eauto.
  - left. split; [|done].
    destruct (Transport.connected t); [|done].
    by destruct (proj1 Hconn eq_refl).
Qed.

(** ** Delivery to the channel's handlers *)

Section ChannelFacts.

Variable H : nat → Val → list Channel.HCmd.
Variable t : Transport.State.
Variable data : Val.

Lemma live_app l1 l2 :
  Channel.live (l1 ++ l2) = Channel.live l1 ++ Channel.live l2.
Proof. unfold Channel.live. apply omap_app. Qed.

Lemma handled_app tr1 tr2 :
  Channel.handled (tr1 ++ tr2) = Channel.handled tr1 ++ Channel.handled tr2.
Proof. unfold Channel.handled. apply omap_app. Qed.

Lemma hrun_passive p cs hs :
  Transport.port1 t = Some p → Channel.passive cs →
  ∃ tr, Channel.hrun t cs hs = (hs, tr, None).
Proof.
  intros Hp Hcs. induction Hcs as [|c cs Hc _ [tr IH]]; [by eexists|].
  destruct c; try done. simpl. unfold Channel.send. rewrite Hp, IH.
  by eexists.
Qed.

(** A stretch of handlers that only send is walked in order and leaves
    the [Set] as it is. *)
Lemma forEach_passive_stretch p mid :
  Transport.port1 t = Some p →
  (∀ f, Some f ∈ mid → Channel.passive (H f data)) →
  ∀ before after fuel hs' tr c,
    Channel.forEach H t fuel (length before + length mid) data
      (before ++ mid ++ after) = Some (hs', tr, c) →
    ∃ tr0,
      Channel.forEach H t (length mid + fuel) (length before) data
        (before ++ mid ++ after) = Some (hs', tr0 ++ tr, c) ∧
      Channel.handled tr0 = Channel.live mid.
Proof.
  intros Hp. induction mid as [|x mid IH];
    intros Hmid before after fuel hs' tr c Hrest.
  - exists []. rewrite Nat.add_0_r in Hrest. by simpl.
  - assert (∀ f, Some f ∈ mid → Channel.passive (H f data)) as Hmid'.
    { intros f Hf. apply Hmid. by right. }
    destruct (IH Hmid' (before ++ [x]) after fuel hs' tr c) as (tr0 & Hrun & Hh).
    { rewrite <- app_assoc. simpl. rewrite length_app. simpl.
      replace (length before + 1 + length mid)
        with (length before + S (length mid)) by lia.
      exact Hrest. }
    rewrite <- app_assoc, length_app in Hrun. simpl in Hrun.
    replace (length before + 1) with (S (length before)) in Hrun by lia.
    change (length (x :: mid) + fuel) with (S (length mid + fuel)).
    cbn [Channel.forEach app].
    rewrite list_lookup_middle by done.
    destruct x as [f|].
    + destruct (hrun_passive p (H f data) (before ++ Some f :: mid ++ after)
                  Hp) as [inner Hinner].
      { apply Hmid. by left. }
      rewrite Hinner, Hrun. simpl.
      exists (EvCall (LFn f) data inner false :: tr0). split; [done|].
      unfold Channel.handled, Channel.live in *. csimpl. by rewrite Hh.
    + rewrite Hrun. by exists tr0.
Qed.

Lemma forEach_end fuel hs :
  Channel.forEach H t (S fuel) (length hs) data hs = Some (hs, [], Returned tt).
Proof. simpl. by rewrite lookup_ge_None_2. Qed.

End ChannelFacts.

(** X20.  While the transport holds a port and the handlers do no
    more than send, [channelReceive] passes the data of an event to every
    handler, once, in the order they were added, and leaves the [Set] as
    it is; an event whose data is falsy (0, "", [false], [null]) is
    dropped without a log and reaches no handler. *)
Theorem channelReceive_delivers_in_order H t p data hs :
  Transport.port1 t = Some p →
  (∀ f, Some f ∈ hs → Channel.passive (H f data)) →
  ∃ tr,
    Channel.channelReceive H t (S (length hs)) (Some data) hs
    = Some (hs, tr, Returned tt) ∧
    Channel.handled tr = (if truthy data then Channel.live hs else []) ∧
    (truthy data = false → tr = []).
Proof.
  intros Hp Hhs. unfold Channel.channelReceive.
  destruct (truthy data); [|by exists []].
  destruct (forEach_passive_stretch H t data p hs Hp Hhs [] [] 1 hs []
              (Returned tt)) as (tr0 & Hrun & Hh).
  { rewrite app_nil_r. simpl. by rewrite lookup_ge_None_2. }
  simpl in Hrun. rewrite app_nil_r in Hrun.
  rewrite Nat.add_1_r in Hrun. rewrite Hrun. simpl.
  exists (EvLog "[BWO] Received channel data" :: tr0 ++ []).
  split_and!; [done| |done].
  rewrite app_nil_r. by unfold Channel.handled in *.
Qed.

Lemma channelReceive_delivers_in_order_witness :
  ∃ tr,
    Channel.channelReceive (λ _ d, [Channel.HSend d])
      (Transport.mkState (Some 0) (Some 0) true 1) 3
      (Some (VStr "roll")) [Some 4; Some 9]
    = Some ([Some 4; Some 9], tr, Returned tt) ∧
    Channel.handled tr = [4; 9].
Proof.
  destruct (channelReceive_delivers_in_order (λ _ d, [Channel.HSend d])
              (Transport.mkState (Some 0) (Some 0) true 1) 0
              (VStr "roll") [Some 4; Some 9] eq_refl) as (tr & Hrun & Hh & _).
  { intros f _. by repeat constructor. }
  by exists tr.
Defined.

(** X21.  [channelReceive] has no [try] around its handlers: when a
    handler throws, the handlers added after it are not called for that
    event and the exception leaves [channelReceive]. *)
Theorem channelReceive_stops_at_throw H t p data before f after hs1 inner err :
  Transport.port1 t = Some p → truthy data = true →
  (∀ g, Some g ∈ before → Channel.passive (H g data)) →
  Channel.hrun t (H f data) (before ++ Some f :: after)
  = (hs1, inner, Some err) →
  ∃ tr,
    Channel.channelReceive H t (S (length before)) (Some data)
      (before ++ Some f :: after)
    = Some (hs1, tr, Thrown err) ∧
    Channel.handled tr = Channel.live before ++ [f].
Proof.
  intros Hp Hdata Hbefore Hthrow. unfold Channel.channelReceive.
  rewrite Hdata.
  destruct (forEach_passive_stretch H t data p before Hp Hbefore []
              (Some f :: after) 1 hs1 [EvCall (LFn f) data inner true]
              (Thrown err)) as (tr0 & Hrun & Hh).
  { simpl. rewrite list_lookup_middle by done. by rewrite Hthrow. }
  simpl in Hrun. rewrite Nat.add_1_r in Hrun. rewrite Hrun. simpl.
  eexists. split; [done|].
  change (Channel.handled (tr0 ++ [EvCall (LFn f) data inner true])
          = Channel.live before ++ [f]).
  by rewrite handled_app, Hh.
Qed.

(** Handler 4 sends, handler 5 throws, handler 9 is not reached. *)
Lemma channelReceive_stops_at_throw_witness :
  ∃ tr,
    Channel.channelReceive
      (λ f d, match f with
              | 5 => [Channel.HThrow]
              | _ => [Channel.HSend d]
              end)
      (Transport.mkState (Some 0) (Some 0) true 1) 2
      (Some (VStr "roll")) [Some 4; Some 5; Some 9]
    = Some ([Some 4; Some 5; Some 9], tr, Thrown "Error") ∧
    Channel.handled tr = [4; 5].
Proof.
  apply (channelReceive_stops_at_throw
           (λ f d, match f with
                   | 5 => [Channel.HThrow]
                   | _ => [Channel.HSend d]
                   end)
           (Transport.mkState (Some 0) (Some 0) true 1) 0
           (VStr "roll") [Some 4] 5 [Some 9] [Some 4; Some 5; Some 9] []
           "Error"); try done.
  intros g ->%list_elem_of_singleton%(inj Some). by repeat constructor.
Defined.

Lemma channel_delete_not_in g hs : Some g ∉ hs → Channel.delete g hs = hs.
Proof.
  intros Hout. unfold Channel.delete.
  induction hs as [|x hs IH]; [done|].
  apply not_elem_of_cons in Hout as [Hne Hout]. csimpl.
  rewrite decide_False by done. by rewrite IH.
Qed.

Lemma channel_delete_app g l1 l2 :
  Channel.delete g (l1 ++ l2) = Channel.delete g l1 ++ Channel.delete g l2.
Proof. unfold Channel.delete. apply fmap_app. Qed.

Lemma elem_of_live f hs : f ∈ Channel.live hs ↔ Some f ∈ hs.
Proof.
  unfold Channel.live. rewrite list_elem_of_omap. split.
  - by intros ([x|] & Hin & [= ->]).
  - intros Hin. by exists (Some f).
Qed.

(** X22.  [forEach] walks the [Set] as it is by then: a handler
    that one of the handlers adds while an event is being delivered is
    called for that same event, after the handlers that were there. *)
Theorem channelReceive_calls_handler_added_meanwhile
    H t p data before f after g :
  Transport.port1 t = Some p → truthy data = true →
  (∀ h, Some h ∈ before ++ after → Channel.passive (H h data)) →
  Channel.passive (H g data) →
  H f data = [Channel.HAdd g] →
  Some g ∉ before ++ Some f :: after →
  ∃ tr,
    Channel.channelReceive H t (length before + length after + 3) (Some data)
      (before ++ Some f :: after)
    = Some ((before ++ Some f :: after) ++ [Some g], tr, Returned tt) ∧
    Channel.handled tr
    = Channel.live before ++ [f] ++ Channel.live after ++ [g].
Proof.
  intros Hp Hdata Hpassive Hg Hf Hfresh.
  set (hs := before ++ Some f :: after) in *.
  set (hs1 := hs ++ [Some g]).
  assert (Channel.hrun t (H f data) hs = (hs1, [], None)) as Hadd.
  { rewrite Hf. simpl. unfold Channel.add. by rewrite decide_False. }
  (* the handlers after f, and the new one *)
  destruct (forEach_passive_stretch H t data p (after ++ [Some g]) Hp)
    with (before := before ++ [Some f]) (after := @nil (option nat))
         (fuel := 1) (hs' := hs1) (tr := @nil Ev) (c := Returned tt)
    as (trA & HA & HhA).
  { intros h [Hh|Hh%list_elem_of_singleton]%elem_of_app.
    - apply Hpassive. apply elem_of_app. by right.
    - by injection Hh as ->. }
  { rewrite app_nil_r, <- length_app.
    replace ((before ++ [Some f]) ++ after ++ [Some g]) with hs1
      by (unfold hs1, hs; by rewrite <- !app_assoc).
    apply forEach_end. }
  rewrite !app_nil_r in HA.
  replace ((before ++ [Some f]) ++ after ++ [Some g]) with hs1 in HA
    by (unfold hs1, hs; by rewrite <- !app_assoc).
  rewrite !length_app in HA. simpl in HA.
  (* f itself *)
  assert (Channel.forEach H t (S (length after + 1 + 1)) (length before)
            data hs
          = Some (hs1, EvCall (LFn f) data [] false :: trA, Returned tt))
    as HB.
  { cbn [Channel.forEach]. unfold hs at 1.
    rewrite list_lookup_middle by done. rewrite Hadd.
    replace (S (length before)) with (length before + 1) by lia.
    by rewrite HA. }
  (* the handlers before f *)
  destruct (forEach_passive_stretch H t data p before Hp)
    with (before := @nil (option nat)) (after := Some f :: after)
         (fuel := S (length after + 1 + 1)) (hs' := hs1)
         (tr := EvCall (LFn f) data [] false :: trA) (c := Returned tt)
    as (trC & HC & HhC).
  { intros h Hh. apply Hpassive. apply elem_of_app. by left. }
  { exact HB. }
  simpl in HC. unfold Channel.channelReceive. rewrite Hdata.
  replace (length before + length after + 3)
    with (length before + S (length after + 1 + 1)) by lia.
  fold hs in HC. rewrite HC. simpl. eexists. split; [done|].
  change (Channel.handled (trC ++ EvCall (LFn f) data [] false :: trA)
          = Channel.live before ++ [f] ++ Channel.live after ++ [g]).
  rewrite handled_app, HhC.
  change (Channel.handled (EvCall (LFn f) data [] false :: trA))
    with (f :: Channel.handled trA).
  by rewrite HhA, live_app.
Qed.

(** Handler 4 adds handler 9 while the event is delivered. *)
Lemma channelReceive_calls_handler_added_meanwhile_witness :
  ∃ tr,
    Channel.channelReceive
      (λ f d, match f with
              | 4 => [Channel.HAdd 9]
              | _ => [Channel.HSend d]
              end)
      (Transport.mkState (Some 0) (Some 0) true 1) 4
      (Some (VStr "roll")) [Some 4; Some 5]
    = Some ([Some 4; Some 5; Some 9], tr, Returned tt) ∧
    Channel.handled tr = [4; 5; 9].
Proof.
  apply (channelReceive_calls_handler_added_meanwhile
           (λ f d, match f with
                   | 4 => [Channel.HAdd 9]
                   | _ => [Channel.HSend d]
                   end)
           (Transport.mkState (Some 0) (Some 0) true 1) 0
           (VStr "roll") [] 4 [Some 5] 9); try done.
  - intros h ->%list_elem_of_singleton%(inj Some). by repeat constructor.
  - by repeat constructor.
  - intros Hin. repeat (apply elem_of_cons in Hin as [[=]|Hin]).
    by apply elem_of_nil in Hin.
Defined.

(** X23.  A handler that an earlier handler removes while an
    event is being delivered is not called for that event. *)
Theorem channelReceive_skips_handler_removed_meanwhile
    H t p data before f mid g after :
  Transport.port1 t = Some p → truthy data = true →
  (∀ h, Some h ∈ before ++ mid ++ after → Channel.passive (H h data)) →
  H f data = [Channel.HRemove g] →
  g ≠ f → Some g ∉ before ++ mid ++ after →
  ∃ tr,
    Channel.channelReceive H t
      (length before + length mid + length after + 3) (Some data)
      (before ++ Some f :: mid ++ Some g :: after)
    = Some (before ++ Some f :: mid ++ None :: after, tr, Returned tt) ∧
    Channel.handled tr
    = Channel.live before ++ [f] ++ Channel.live mid ++ Channel.live after.
Proof.
  intros Hp Hdata Hpassive Hf Hne Hfresh.
  set (hs := before ++ Some f :: mid ++ Some g :: after).
  set (hs1 := before ++ Some f :: mid ++ None :: after).
  apply not_elem_of_app in Hfresh as [Hg1 Hfresh].
  apply not_elem_of_app in Hfresh as [Hg2 Hg3].
  assert (Channel.hrun t (H f data) hs = (hs1, [], None)) as Hremove.
  { rewrite Hf. simpl. unfold hs, hs1.
    rewrite channel_delete_app. rewrite (channel_delete_not_in g before) by done.
    change (Some f :: mid ++ Some g :: after)
      with ([Some f] ++ mid ++ [Some g] ++ after).
    rewrite !channel_delete_app.
    rewrite (channel_delete_not_in g mid), (channel_delete_not_in g after)
      by done.
    unfold Channel.delete. csimpl.
    rewrite decide_False by congruence. by rewrite decide_True. }
  destruct (forEach_passive_stretch H t data p (mid ++ None :: after) Hp)
    with (before := before ++ [Some f]) (after := @nil (option nat))
         (fuel := 1) (hs' := hs1) (tr := @nil Ev) (c := Returned tt)
    as (trA & HA & HhA).
  { intros h [Hh|Hh]%elem_of_app.
    - apply Hpassive. rewrite !elem_of_app. tauto.
    - apply elem_of_cons in Hh as [[=]|Hh].
      apply Hpassive. rewrite !elem_of_app. tauto. }
  { rewrite app_nil_r, <- length_app.
    replace ((before ++ [Some f]) ++ mid ++ None :: after) with hs1
      by (unfold hs1; by rewrite <- !app_assoc).
    apply forEach_end. }
  rewrite !app_nil_r in HA.
  replace ((before ++ [Some f]) ++ mid ++ None :: after) with hs1 in HA
    by (unfold hs1; by rewrite <- !app_assoc).
  rewrite !length_app in HA. simpl in HA.
  assert (Channel.forEach H t (S (length mid + S (length after) + 1))
            (length before) data hs
          = Some (hs1, EvCall (LFn f) data [] false :: trA, Returned tt))
    as HB.
  { cbn [Channel.forEach]. unfold hs at 1.
    rewrite list_lookup_middle by done. rewrite Hremove.
    replace (S (length before)) with (length before + 1) by lia.
    by rewrite HA. }
  destruct (forEach_passive_stretch H t data p before Hp)
    with (before := @nil (option nat))
         (after := Some f :: mid ++ Some g :: after)
         (fuel := S (length mid + S (length after) + 1)) (hs' := hs1)
         (tr := EvCall (LFn f) data [] false :: trA) (c := Returned tt)
    as (trC & HC & HhC).
  { intros h Hh. apply Hpassive. rewrite !elem_of_app. tauto. }
  { exact HB. }
  simpl in HC. unfold Channel.channelReceive. rewrite Hdata.
  replace (length before + length mid + length after + 3)
    with (length before + S (length mid + S (length after) + 1)) by lia.
  fold hs in HC. rewrite HC. simpl. eexists. split; [done|].
  change (Channel.handled (trC ++ EvCall (LFn f) data [] false :: trA)
          = Channel.live before ++ [f] ++ Channel.live mid
              ++ Channel.live after).
  rewrite handled_app, HhC.
  change (Channel.handled (EvCall (LFn f) data [] false :: trA))
    with (f :: Channel.handled trA).
  by rewrite HhA, live_app.
Qed.

(** Handler 4 removes handler 9, which was added after it. *)
Lemma channelReceive_skips_handler_removed_meanwhile_witness :
  ∃ tr,
    Channel.channelReceive
      (λ f d, match f with
              | 4 => [Channel.HRemove 9]
              | _ => [Channel.HSend d]
              end)
      (Transport.mkState (Some 0) (Some 0) true 1) 4
      (Some (VStr "roll")) [Some 4; Some 5; Some 9]
    = Some ([Some 4; Some 5; None], tr, Returned tt) ∧
    Channel.handled tr = [4; 5].
Proof.
  apply (channelReceive_skips_handler_removed_meanwhile
           (λ f d, match f with
                   | 4 => [Channel.HRemove 9]
                   | _ => [Channel.HSend d]
                   end)
           (Transport.mkState (Some 0) (Some 0) true 1) 0
           (VStr "roll") [] 4 [Some 5] 9 []); try done.
  - intros h ->%list_elem_of_singleton%(inj Some). by repeat constructor.
  - intros Hin. repeat (apply elem_of_cons in Hin as [[=]|Hin]).
    by apply elem_of_nil in Hin.
Defined.

(** X24.  [addListener] ignores a function that is already a
    handler, and the closure it returns removes the function and nothing
    else: for a function that was not a handler the handlers are again
    what they were; calling the closure again changes nothing. *)
Theorem addListener_round_trip f hs :
  let hs1 := (Channel.addListener f hs).1 in
  let remove := (Channel.addListener f hs).2 in
  (Channel.addListener f hs1).1 = hs1 ∧
  (f ∉ Channel.live (remove hs1)) ∧
  (∀ g, g ≠ f → (g ∈ Channel.live (remove hs1) ↔ g ∈ Channel.live hs)) ∧
  (Some f ∉ hs → Channel.live (remove hs1) = Channel.live hs) ∧
  remove (remove hs1) = remove hs1.
Proof.
  simpl.
  assert (∀ l, Some f ∉ Channel.delete f l) as Hgone.
  { intros l. unfold Channel.delete. rewrite list_elem_of_fmap.
    intros (x & Hx & _). by case_decide. }
  assert (∀ g l, g ≠ f → (Some g ∈ Channel.delete f l ↔ Some g ∈ l))
    as Hother.
  { intros g l Hne. unfold Channel.delete. rewrite list_elem_of_fmap. split.
    - intros (x & Hx & Hin). case_decide; [done|]. by subst.
    - intros Hin. exists (Some g). split; [|done].
      rewrite decide_False; [done|]. congruence. }
  assert (Some f ∈ Channel.add f hs) as Hin.
  { unfold Channel.add. case_decide; [done|].
    apply elem_of_app. right. apply list_elem_of_here. }
  split_and!.
  - unfold Channel.add at 1. by rewrite decide_True.
  - rewrite elem_of_live. apply Hgone.
  - intros g Hne. rewrite !elem_of_live, Hother by done.
    unfold Channel.add. case_decide; [done|].
    rewrite elem_of_app, list_elem_of_singleton. split; [|by left].
    intros [?|[= ->]]; done.
  - intros Hout. unfold Channel.add. rewrite decide_False by done.
    rewrite channel_delete_app, channel_delete_not_in by done.
    rewrite live_app. unfold Channel.delete, Channel.live. csimpl.
    rewrite decide_True by done. csimpl. by rewrite app_nil_r.
  - by apply channel_delete_not_in.
Qed.

Lemma addListener_round_trip_witness :
  Channel.live ((Channel.addListener 9 [Some 4; Some 5]).2
                  (Channel.addListener 9 [Some 4; Some 5]).1)
  = [4; 5].
Proof.
  destruct (addListener_round_trip 9 [Some 4; Some 5])
    as (_ & _ & _ & Hback & _).
  rewrite Hback; [done|].
  intros Hin. repeat (apply elem_of_cons in Hin as [[=]|Hin]).
  by apply elem_of_nil in Hin.
Defined.

(** ** The script, end to end *)

(** X25.  After the "ready" hook and the load event of the frame, the
    bridge has posted its handshake to the frame window, scoped to the
    origin of the portal address, and the logger has been called with
    that origin.  A message [{topic: "bwo:roll", payload}] that then
    arrives on the port calls [handleMessage] once, with the payload,
    and nothing else. *)
Theorem app_roll_reaches_handleMessage host o payload :
  url_origin host "https://magic-portal.divora.world" = Some o →
  postMessage_throws host (VStr o) = false →
  ∃ w1 w2,
    (App.ready host ;;
     Bridge.fire_load App.P 1 host App.options) BridgeScenario.w_fresh
    = Some (w1,
            [EvPortStart 0;
             EvWinPost (frame_window host) (VObj [("type", VStr "connect")])
                       (VStr o) 0;
             EvEmit (VStr "bridge:sender") (VObj [("ready", VBool true)]) [];
             EvEmit (VStr "bridge:open") (VObj [("origin", VStr o)])
               [EvCall (LFn App.logOpen) (VObj [("origin", VStr o)]) []
                       false]],
            Returned tt) ∧
    isReady w1 = true ∧
    Bridge.onmessage App.P 1
      (VObj [("topic", VStr "bwo:roll"); ("payload", payload)]) w1
    = Some (w2,
            [EvEmit (VStr "bwo:roll") payload
               [EvCall (LFn App.handleMessage) payload [] false];
             EvEmit (VStr "bridge:message")
               (VObj [("topic", VStr "bwo:roll"); ("payload", payload)]) []],
            Returned tt).
Proof.
  intros Hurl Hpost.
  pose (w1 := mkWorld App.registry (Some SBridge)
            (Some (mkIframe "https://magic-portal.divora.world" "bus-bridge"
                            "none" true true (Some (frame_window host))))
            (Some 0) true [] 1).
  exists w1, w1.
  assert (∀ e, emit App.P 1 "bridge:sender" e App.registry
               = Some (App.registry, EvEmit (VStr "bridge:sender") e []))
    as Hsender.
  { intros e. by apply emit_no_listeners. }
  assert (emit App.P 1 "bridge:open" (VObj [("origin", VStr o)]) App.registry
          = Some (App.registry,
                  EvEmit (VStr "bridge:open") (VObj [("origin", VStr o)])
                    [EvCall (LFn App.logOpen) (VObj [("origin", VStr o)])
                            [] false])) as Hopen.
  { by vm_compute. }
  assert (emit App.P 1 "bwo:roll" payload App.registry
          = Some (App.registry,
                  EvEmit (VStr "bwo:roll") payload
                    [EvCall (LFn App.handleMessage) payload [] false]))
    as Hroll.
  { by vm_compute. }
  assert (∀ e, emit App.P 1 "bridge:message" e App.registry
               = Some (App.registry, EvEmit (VStr "bridge:message") e []))
    as Hmessage.
  { intros e. by apply emit_no_listeners. }
  split_and!.
  - unfold App.ready, Bridge.mount, Bridge.fire_load, Bridge.onIframeLoad,
      Bridge.connect, Bridge.resolve_origin, Bridge.close_port, setSender,
      bus_emit, bind, try_catch, gets, modify, tell, ret, throw.
    cbn -[emit App.registry].
    change ((on "bridge:open" (LFn App.logOpen)
               (on "bwo:roll" (LFn App.handleMessage) new_Emitter).1).1)
      with App.registry.
    rewrite Hurl. cbn -[emit App.registry]. rewrite Hpost.
    cbn -[emit App.registry]. rewrite Hsender. cbn -[emit App.registry].
    by rewrite Hopen.
  - done.
  - unfold Bridge.onmessage, bus_emit, bind. cbn -[emit App.registry].
    rewrite Hroll. cbn -[emit App.registry]. by rewrite Hmessage.
Qed.

Lemma app_roll_reaches_handleMessage_witness :
  ∃ w1 w2,
    (App.ready BridgeScenario.host_ok ;;
     Bridge.fire_load App.P 1 BridgeScenario.host_ok App.options)
      BridgeScenario.w_fresh
    = Some (w1,
            [EvPortStart 0;
             EvWinPost 7 (VObj [("type", VStr "connect")])
                       (VStr "https://example.test") 0;
             EvEmit (VStr "bridge:sender") (VObj [("ready", VBool true)]) [];
             EvEmit (VStr "bridge:open")
               (VObj [("origin", VStr "https://example.test")])
               [EvCall (LFn App.logOpen)
                  (VObj [("origin", VStr "https://example.test")]) []
                  false]],
            Returned tt) ∧
    isReady w1 = true ∧
    Bridge.onmessage App.P 1
      (VObj [("topic", VStr "bwo:roll"); ("payload", VNum 6)]) w1
    = Some (w2,
            [EvEmit (VStr "bwo:roll") (VNum 6)
               [EvCall (LFn App.handleMessage) (VNum 6) [] false];
             EvEmit (VStr "bridge:message")
               (VObj [("topic", VStr "bwo:roll"); ("payload", VNum 6)]) []],
            Returned tt).
Proof.
  apply (app_roll_reaches_handleMessage BridgeScenario.host_ok
           "https://example.test" (VNum 6)); reflexivity.
Defined.

(** * Emissions, call by call *)

(** ** The pass over the snapshot *)

Section PassFacts.

Variable P : nat → Val → list Cmd.

Section Inner.

Variable emitf : string → Val → Emitter → option (Emitter * Ev).

Lemma deliver_pass snapshot e em em' tr :
  deliver P emitf snapshot e em = Some (em', tr) →
  pass P emitf e snapshot em em' tr.
Proof.
  revert em em' tr.
  induction snapshot as [|fn rest IH]; intros em em' tr; simpl.
  - intros [= <- <-]. constructor.
  - destruct (call P emitf fn e em) as [[[em1 inner] threw]|] eqn:E; [|done].
    simpl. destruct (deliver P emitf rest e em1) as [[em2 tr2]|] eqn:E2;
      [|done].
    simpl. intros [= <- <-]. econstructor; eauto.
Qed.

Lemma pass_deliver snapshot e em em' tr :
  pass P emitf e snapshot em em' tr →
  deliver P emitf snapshot e em = Some (em', tr).
Proof.
  induction 1 as [em|fn rest em em1 em2 inner threw tr Hcall _ IH]; simpl;
    [done|].
  rewrite Hcall. simpl. by rewrite IH.
Qed.

Lemma pass_delivered snapshot e em em' tr :
  pass P emitf e snapshot em em' tr → delivered e snapshot tr.
Proof. intros H. eapply deliver_delivered. by apply pass_deliver. Qed.

Lemma pass_app_inv l1 l2 e em em' tr :
  pass P emitf e (l1 ++ l2) em em' tr →
  ∃ em1 tr1 tr2,
    pass P emitf e l1 em em1 tr1 ∧
    pass P emitf e l2 em1 em' tr2 ∧
    tr = tr1 ++ tr2.
Proof.
  revert em tr. induction l1 as [|fn l1 IH]; intros em tr; simpl.
  - intros H. exists em, [], tr. split_and!; [constructor|done|done].
  - inversion 1 as [|? ? ? em1 ? inner threw tr' Hcall Hrest]; subst.
    destruct (IH _ _ Hrest) as (em2 & tr1 & tr2 & H1 & H2 & ->).
    eexists em2, _, tr2. split_and!; [econstructor; eauto|done|].
    simpl. by rewrite <- app_assoc.
Qed.

Lemma pass_split before fn after e em em' tr :
  pass P emitf e (before ++ fn :: after) em em' tr →
  ∃ em1 em2 inner threw trb tra,
    pass P emitf e before em em1 trb ∧
    call P emitf fn e em1 = Some (em2, inner, threw) ∧
    pass P emitf e after em2 em' tra ∧
    tr = trb ++ EvCall fn e inner threw
           :: (if threw then [EvError "bus listener error"] else []) ++ tra.
Proof.
  intros (em1 & trb & tr2 & Hb & H2 & ->)%pass_app_inv.
  inversion H2; subst. eauto 10.
Qed.

End Inner.

Lemma emit_pass fuel topic e em em' ev :
  emit P fuel topic e em = Some (em', ev) →
  ∃ fuel' calls,
    fuel = S fuel' ∧
    ev = EvEmit (VStr topic) e calls ∧
    pass P (emit P fuel') e (listeners em topic) em em' calls.
Proof.
  destruct fuel as [|fuel]; [done|]. simpl. unfold listeners.
  destruct (e_map em !! topic) as [s|].
  - case_decide as Hlen.
    + intros [= <- <-]. exists fuel, []. split_and!; [done|done|].
      apply length_zero_iff_nil in Hlen. rewrite Hlen. constructor.
    + destruct (deliver P (emit P fuel) (default [] (sets em !! s)) e em)
        as [[em1 calls]|] eqn:E; [|done].
      simpl. intros [= <- <-]. exists fuel, calls.
      split_and!; [done|done|]. by apply deliver_pass.
  - intros [= <- <-]. exists fuel, []. split_and!; [done|done|constructor].
Qed.

End PassFacts.

(** ** Emissions that nest no deeper than the rank of their topic *)

Section Stratified.

Variable rkf : nat → nat.
Variable rkt : string → nat.

Lemma ranked_new : ranked rkf rkt new_Emitter.
Proof. intros t l. unfold listeners. simpl. by inversion 1. Qed.

Lemma ranked_on topic fn em :
  wf em → ranked rkf rkt em → (rkf (fn_of fn) ≤ rkt topic)%nat →
  ranked rkf rkt (on topic fn em).1.
Proof.
  intros Hwf Hrk Hfn t l.
  destruct (decide (t = topic)) as [->|Hne].
  - rewrite listeners_on by (by apply wf_inv).
    intros [Hin| ->]%elem_of_set_add; [by apply Hrk|done].
  - rewrite listeners_on_other by done. apply Hrk.
Qed.

Lemma wf_closures em :
  wf em → wf (mkEmitter (e_map em) (sets em) (S (closures em))).
Proof. intros [Hinv Hinj]. split; [by apply inv_closures|done]. Qed.

Lemma ranked_once topic f em :
  wf em → ranked rkf rkt em → (rkf f ≤ rkt topic)%nat →
  ranked rkf rkt (once topic f em).1.
Proof.
  intros Hwf Hrk Hf. unfold once.
  apply ranked_on; [by apply wf_closures|done|done].
Qed.

Lemma ranked_delete fn s em :
  wf em → ranked rkf rkt em →
  ranked rkf rkt
    (mkEmitter (e_map em) (alter (set_delete fn) s (sets em)) (closures em)).
Proof.
  intros Hwf Hrk t l. rewrite listeners_delete by done.
  case_decide; [|apply Hrk].
  intros [Hin _]%elem_of_set_delete. by apply Hrk.
Qed.

Lemma ranked_off topic fn em :
  wf em → ranked rkf rkt em → ranked rkf rkt (off topic fn em).
Proof.
  intros Hwf Hrk. unfold off.
  destruct (e_map em !! topic); [by apply ranked_delete|done].
Qed.

Lemma ranked_unsubscribe u em :
  wf em → ranked rkf rkt em → ranked rkf rkt (unsubscribe u em).
Proof. intros Hwf Hrk. unfold unsubscribe. by apply ranked_delete. Qed.

Lemma ranked_clear topic em :
  ranked rkf rkt em → ranked rkf rkt (clear topic em).
Proof.
  intros Hrk t l. unfold clear, listeners.
  destruct topic as [t0|]; [destruct (truthy (VStr t0))|]; simpl;
    try by inversion 1.
  destruct (delete t0 (e_map em) !! t) as [s|] eqn:E; [|by inversion 1].
  apply lookup_delete_Some in E as [_ E]. intros Hin.
  apply Hrk. unfold listeners. by rewrite E.
Qed.

Variable P : nat → Val → list Cmd.
Hypothesis HP : stratified rkf rkt P.

Section Inner.

Variable emitf : string → Val → Emitter → option (Emitter * Ev).
Variable n : nat.
Hypothesis emitf_returns :
  ∀ t e em,
    (rkt t < n)%nat → wf em → ranked rkf rkt em →
    ∃ em' ev, emitf t e em = Some (em', ev) ∧ wf em' ∧ ranked rkf rkt em'.

Lemma run_stratified f cs em :
  Forall (λ c, match c with
               | CEmit t _ => (rkt t < rkf f)%nat
               | COn t g | COnce t g => (rkf g ≤ rkt t)%nat
               | _ => True
               end) cs →
  (rkf f ≤ n)%nat → wf em → ranked rkf rkt em →
  ∃ em' tr threw,
    run emitf cs em = Some (em', tr, threw) ∧ wf em' ∧ ranked rkf rkt em'.
Proof.
  intros Hcs Hn. revert em.
  induction Hcs as [|c cs Hc _ IH]; intros em Hwf Hrk; simpl.
  - by exists em, [], false.
  - destruct c as [t g|t g|t g|u|t e|t|]; simpl.
    + apply IH; [by apply wf_on|by apply ranked_on].
    + apply IH; [by apply wf_once|by apply ranked_once].
    + apply IH; [by apply wf_off|by apply ranked_off].
    + apply IH; [by apply wf_unsubscribe|by apply ranked_unsubscribe].
    + destruct (emitf_returns t e em) as (em1 & ev & -> & Hwf1 & Hrk1);
        [lia|done|done|].
      simpl.
      destruct (IH em1 Hwf1 Hrk1) as (em2 & tr & threw & -> & Hwf2 & Hrk2).
      simpl. by exists em2, (ev :: tr), threw.
    + apply IH; [by apply wf_clear|by apply ranked_clear].
    + by exists em, [], true.
Qed.

Lemma call_stratified fn e em :
  (rkf (fn_of fn) ≤ n)%nat → wf em → ranked rkf rkt em →
  ∃ em' tr threw,
    call P emitf fn e em = Some (em', tr, threw) ∧
    wf em' ∧ ranked rkf rkt em'.
Proof.
  intros Hn Hwf Hrk. destruct fn as [f|k s f]; simpl in *.
  - by apply (run_stratified f).
  - destruct (run_stratified f (P f e)
                (unsubscribe (Unsub s (LOnce k s f)) em) (HP f e) Hn
                (wf_unsubscribe _ _ Hwf) (ranked_unsubscribe _ _ Hwf Hrk))
      as (em2 & tr & threw & -> & Hwf2 & Hrk2).
    simpl. by eexists _, _, _.
Qed.

Lemma deliver_stratified snapshot e em :
  Forall (λ l, (rkf (fn_of l) ≤ n)%nat) snapshot →
  wf em → ranked rkf rkt em →
  ∃ em' tr,
    deliver P emitf snapshot e em = Some (em', tr) ∧
    wf em' ∧ ranked rkf rkt em'.
Proof.
  intros Hs. revert em.
  induction Hs as [|fn rest Hfn _ IH]; intros em Hwf Hrk; simpl.
  - by exists em, [].
  - destruct (call_stratified fn e em Hfn Hwf Hrk)
      as (em1 & inner & threw & -> & Hwf1 & Hrk1).
    simpl. destruct (IH em1 Hwf1 Hrk1) as (em2 & tr & -> & Hwf2 & Hrk2).
    simpl. by eexists _, _.
Qed.

End Inner.

Lemma emit_stratified n :
  ∀ t e em,
    (rkt t < n)%nat → wf em → ranked rkf rkt em →
    ∃ em' ev, emit P n t e em = Some (em', ev) ∧ wf em' ∧ ranked rkf rkt em'.
Proof.
  induction n as [|n IH]; intros t e em Hn Hwf Hrk; [lia|].
  rewrite emit_S.
  destruct (e_map em !! t) as [s|] eqn:Ht; [|by eexists _, _].
  cbv zeta. case_decide; [by eexists _, _|].
  destruct (deliver_stratified (emit P n) n IH (default [] (sets em !! s))
              e em) as (em' & calls & -> & Hwf' & Hrk'); [|done|done|].
  { apply Forall_forall. intros l Hl.
    assert (l ∈ listeners em t) as Hin by (unfold listeners; by rewrite Ht).
    specialize (Hrk _ _ Hin). lia. }
  simpl. by eexists _, _.
Qed.

End Stratified.

Lemma emit_returns_stratified rkf rkt P fuel topic e em :
  stratified rkf rkt P → wf em → ranked rkf rkt em →
  (rkt topic < fuel)%nat → is_Some (emit P fuel topic e em).
Proof.
  intros HP Hwf Hrk Hfuel.
  destruct (emit_stratified rkf rkt P HP fuel topic e em Hfuel Hwf Hrk)
    as (em' & ev & -> & _). by eexists.
Qed.

(** *** The scenarios *)

Lemma inv_em_pair : inv Scenario.em_pair.
Proof. apply wf_inv, wf_em_pair. Qed.

Lemma P_churn_emit_free f e : emit_free (Scenario.P_churn f e).
Proof. destruct f as [|[|f]]; simpl; repeat constructor. Qed.

Lemma P_fault_emit_free f e : emit_free (Scenario.P_fault f e).
Proof. destruct f as [|[|f]]; simpl; repeat constructor. Qed.

Lemma P_relay_stratified :
  stratified Scenario.rkf_relay Scenario.rkt_relay Scenario.P_relay.
Proof.
  intros f e. destruct f as [|[|f]]; simpl; repeat constructor.
Qed.

Lemma wf_em_relay : wf Scenario.em_relay.
Proof.
  unfold Scenario.em_relay.
  apply wf_on; [apply wf_on; [apply wf_new|done]|done].
Qed.

Lemma ranked_em_relay :
  ranked Scenario.rkf_relay Scenario.rkt_relay Scenario.em_relay.
Proof.
  unfold Scenario.em_relay.
  apply ranked_on; [apply wf_on; [apply wf_new|done]| |by vm_compute].
  apply ranked_on; [apply wf_new|apply ranked_new|by vm_compute].
Qed.

(** ** What an emission calls *)

(** C2.  An emission is one pass over the members the [Set] of its
    topic had when it started: each is called once, in the order of the
    [Set], with the event emitted, on the registry the member before it
    left, and the registry the last one leaves is the one the emission
    leaves.  A listener subscribed while the pass runs is not called by
    it, one unsubscribed while it runs still is.  The order of the
    [Set] is the order of registration: [on] puts a new function last.
    The emission returns whatever the budget when no body starts an
    emission, and with a budget above the rank of its topic when the
    program is stratified. *)
Theorem emit_calls_snapshot P topic x em :
  inv em →
  (∀ fuel em' ev,
     emit P fuel topic x em = Some (em', ev) →
     ∃ fuel' calls,
       fuel = S fuel' ∧
       ev = EvEmit (VStr topic) x calls ∧
       pass P (emit P fuel') x (listeners em topic) em em' calls ∧
       called calls = (λ fn, (fn, x)) <$> listeners em topic ∧
       NoDup (called calls) ∧
       (∀ fn e, fn ∉ listeners em topic → (fn, e) ∉ called calls) ∧
       (∀ fn, fn ∈ listeners em topic → (fn, x) ∈ called calls)) ∧
  (∀ fn, fn ∉ listeners em topic →
     listeners (on topic fn em).1 topic = listeners em topic ++ [fn]) ∧
  ((∀ f e, emit_free (P f e)) →
   ∀ fuel, is_Some (emit P (S fuel) topic x em)) ∧
  (∀ rkf rkt,
     stratified rkf rkt P → wf em → ranked rkf rkt em →
     ∀ fuel, (rkt topic < fuel)%nat → is_Some (emit P fuel topic x em)).
Proof.
  intros Hinv. pose proof Hinv as (Hnd & _ & _).
  split_and!; [|intros fn Hfn; by rewrite listeners_on, set_add_new
               |intros Hfree fuel; by apply emit_emit_free
               |intros rkf rkt HP Hwf Hrk fuel Hfuel;
                by eapply emit_returns_stratified].
  intros fuel em' ev Hemit.
  destruct (emit_pass P fuel topic x em em' ev Hemit)
    as (fuel' & calls & -> & -> & Hpass).
  exists fuel', calls.
  pose proof (delivered_called _ _ _ (pass_delivered _ _ _ _ _ _ _ Hpass))
    as Hd.
  rewrite Hd.
  split_and!; [done|done|done|done| | |].
  - apply NoDup_fmap_2; [by intros ?? [= ->]|].
    unfold listeners. destruct (e_map em !! topic) as [s|]; [|constructor].
    destruct (sets em !! s) as [set|] eqn:E; simpl; [|constructor].
    rewrite Forall_lookup in Hnd. eauto.
  - intros fn e Hout [fn' [[= -> ->] Hin]]%list_elem_of_fmap. done.
  - intros fn Hin. apply list_elem_of_fmap. eauto.
Qed.

(** Function 0 swaps function 1 for function 2 during the emission:
    functions 0 and 1 are called and function 2 is not; the [Set] of T
    ends as 0, 2, and function 1 has subscribed function 3 to U. *)
Lemma emit_calls_snapshot_witness :
  ∃ em' calls,
    emit Scenario.P_churn 1 "T" (VNum 7) Scenario.em_pair
      = Some (em', EvEmit (VStr "T") (VNum 7) calls) ∧
    called calls = [(LFn 0, VNum 7); (LFn 1, VNum 7)] ∧
    pass Scenario.P_churn (emit Scenario.P_churn 0) (VNum 7)
         [LFn 0; LFn 1] Scenario.em_pair em' calls ∧
    listeners em' "T" = [LFn 0; LFn 2] ∧
    listeners em' "U" = [LFn 3].
Proof.
  destruct (emit_calls_snapshot Scenario.P_churn "T" (VNum 7)
              Scenario.em_pair inv_em_pair) as (Hshape & _ & Hret & _).
  destruct (Hret P_churn_emit_free 0) as [[em' ev] Hemit].
  destruct (Hshape _ _ _ Hemit)
    as (fuel' & calls & [= <-] & -> & Hpass & Hcalled & _).
  exists em', calls. split; [done|]. split; [rewrite Hcalled; by vm_compute|].
  split; [exact Hpass|].
  vm_compute in Hemit. injection Hemit as <- _. by vm_compute.
Defined.

(** ** Listeners that throw *)

(** C8.  A listener that throws is caught inside the pass: whatever
    the member at any place of the snapshot does, throwing included,
    its call is followed by the console error when it threw and then by
    the calls of all the members after it, on the registry it left.  An
    emission has no way to end but by returning: a body that emits goes
    on with its next operation after the emission, whatever the
    listeners of that emission did, and [bus.emit] on the singleton
    completes with [Returned].  The emission returns whatever the budget
    when no body starts an emission, throwing bodies included, and with
    a budget above the rank of its topic when the program is
    stratified. *)
Theorem emit_contains_listener_faults P topic x em :
  (∀ fuel em' ev,
     emit P fuel topic x em = Some (em', ev) →
     ∃ fuel' calls,
       fuel = S fuel' ∧
       ev = EvEmit (VStr topic) x calls ∧
       pass P (emit P fuel') x (listeners em topic) em em' calls ∧
       delivered x (listeners em topic) calls ∧
       (∀ before fn after,
          listeners em topic = before ++ fn :: after →
          ∃ em1 em2 inner threw trb tra,
            pass P (emit P fuel') x before em em1 trb ∧
            call P (emit P fuel') fn x em1 = Some (em2, inner, threw) ∧
            pass P (emit P fuel') x after em2 em' tra ∧
            calls = trb ++ EvCall fn x inner threw
                      :: (if threw then [EvError "bus listener error"]
                          else [])
                      ++ tra)) ∧
  (∀ fuel cs t e em0 em2 tr threw,
     run (emit P fuel) (CEmit t e :: cs) em0 = Some (em2, tr, threw) →
     ∃ em1 ev tr',
       emit P fuel t e em0 = Some (em1, ev) ∧
       run (emit P fuel) cs em1 = Some (em2, tr', threw) ∧
       tr = ev :: tr') ∧
  (∀ fuel w w' tr c,
     bus_emit P fuel (VStr topic) x w = Some (w', tr, c) →
     c = Returned tt ∧
     ∃ b' ev,
       emit P fuel topic x (bus w) = Some (b', ev) ∧
       w' = set_bus b' w ∧ tr = [ev]) ∧
  ((∀ f e, emit_free (P f e)) →
   ∀ fuel, is_Some (emit P (S fuel) topic x em)) ∧
  (∀ rkf rkt,
     stratified rkf rkt P → wf em → ranked rkf rkt em →
     ∀ fuel, (rkt topic < fuel)%nat → is_Some (emit P fuel topic x em)).
Proof.
  split_and!.
  - intros fuel em' ev Hemit.
    destruct (emit_pass P fuel topic x em em' ev Hemit)
      as (fuel' & calls & -> & -> & Hpass).
    exists fuel', calls. split_and!; [done|done|done| |].
    + by eapply pass_delivered.
    + intros before fn after Hl. rewrite Hl in Hpass.
      by apply pass_split.
  - intros fuel cs t e em0 em2 tr threw. simpl.
    destruct (emit P fuel t e em0) as [[em1 ev]|]; [|done]. simpl.
    destruct (run (emit P fuel) cs em1) as [[[em3 tr'] threw']|] eqn:E;
      [|done].
    simpl. intros [= <- <- <-]. by exists em1, ev, tr'.
  - intros fuel w w' tr c. unfold bus_emit.
    destruct (emit P fuel topic x (bus w)) as [[b' ev]|]; [|done].
    intros [= <- <- <-]. split; [done|]. by exists b', ev.
  - intros Hfree fuel. by apply emit_emit_free.
  - intros rkf rkt HP Hwf Hrk fuel Hfuel. by eapply emit_returns_stratified.
Qed.

(** Function 0 throws; function 1, subscribed after it, is still
    called and subscribes function 3 to U.  And with function 0
    emitting on U, where function 1 throws: function 0 goes on and
    subscribes function 3 to V. *)
Lemma emit_contains_listener_faults_witness :
  (∃ em',
     emit Scenario.P_fault 1 "T" (VNum 7) Scenario.em_pair
       = Some (em', EvEmit (VStr "T") (VNum 7)
                      [EvCall (LFn 0) (VNum 7) [] true;
                       EvError "bus listener error";
                       EvCall (LFn 1) (VNum 7) [] false]) ∧
     call Scenario.P_fault (emit Scenario.P_fault 0) (LFn 1) (VNum 7)
          Scenario.em_pair = Some (em', [], false) ∧
     listeners em' "U" = [LFn 3]) ∧
  (∃ em',
     emit Scenario.P_relay 2 "T" (VNum 7) Scenario.em_relay
       = Some (em', EvEmit (VStr "T") (VNum 7)
                      [EvCall (LFn 0) (VNum 7)
                         [EvEmit (VStr "U") (VNum 7)
                            [EvCall (LFn 1) (VNum 7) [] true;
                             EvError "bus listener error"]]
                         false]) ∧
     listeners em' "V" = [LFn 3]).
Proof.
  split.
  - destruct (emit_contains_listener_faults Scenario.P_fault "T" (VNum 7)
                Scenario.em_pair) as (Hshape & _ & _ & Hret & _).
    destruct (Hret P_fault_emit_free 0) as [[em' ev] Hemit].
    destruct (Hshape _ _ _ Hemit)
      as (fuel' & calls & [= <-] & -> & _ & _ & Hsplit).
    destruct (Hsplit [LFn 0] (LFn 1) [] eq_refl)
      as (em1 & em2 & inner & threw & trb & tra & Hb & Hcall & Ha & ->).
    exists em'.
    inversion Ha; subst.
    inversion Hb as [|? ? ? em0 ? inner0 threw0 tr0 Hcall0 Hnil]; subst.
    inversion Hnil; subst.
    vm_compute in Hcall0. injection Hcall0 as <- <- <-.
    pose proof Hcall as Hcall'.
    vm_compute in Hcall'. injection Hcall' as <- <- <-.
    split_and!; [exact Hemit|exact Hcall|by vm_compute].
  - destruct (emit_contains_listener_faults Scenario.P_relay "T" (VNum 7)
                Scenario.em_relay) as (Hshape & _ & _ & _ & Hret).
    destruct (Hret _ _ P_relay_stratified wf_em_relay ranked_em_relay 2)
      as [[em' ev] Hemit]; [vm_compute; lia|].
    exists em'. vm_compute in Hemit. injection Hemit as <- <-.
    split; by vm_compute.
Defined.
